(** * Course_paper: the placement search engine of ChessLogic.py

    A shallow embedding of [ChessFigure], [ChessBoard] and [ChessSolver]
    (src/Course-paper/ChessLogic.py) and of the dialog-level check
    [CoordinatesInputDialog._check_safety] (src/Course-paper/Windows.py),
    with the properties of the search that the specification states.

    Python integers are [Z]; lists are [list] with Python's indexing
    (negative indices wrap, anything else out of range raises IndexError);
    [set] and [frozenset] are stdpp's [gset]; methods that mutate [self]
    are computations in a state-and-exception monad. *)

From Stdlib Require Import ZArith String Ascii DecimalString Lia.
From stdpp Require Import base list gmap sets strings.

Open Scope Z_scope.

(** ** Python semantics used by the program *)

Module Py.

Inductive exn : Type := IndexError | ValueError.

Inductive res (A : Type) : Type :=
| Val (a : A)
| Raise (e : exn).
Arguments Val {A} a.
Arguments Raise {A} e.

(** A computation over a mutable state [S]: it ends with a value or a
    raised exception, and in both cases with the state it left behind. *)
Definition M (S A : Type) : Type := S → res A * S.

Definition ret {S A} (a : A) : M S A := λ s, (Val a, s).
Definition bind {S A B} (f : A → M S B) (m : M S A) : M S B :=
  λ s, match m s with
       | (Val a, s') => f a s'
       | (Raise e, s') => (Raise e, s')
       end.
#[global] Instance M_ret {S} : MRet (M S) := @ret S.
#[global] Instance M_bind {S} : MBind (M S) := @bind S.
Definition raise {S A} (e : exn) : M S A := λ s, (Raise e, s).
Definition get {S} : M S S := λ s, (Val s, s).
Definition gets {S A} (f : S → A) : M S A := λ s, (Val (f s), s).
Definition put {S} (s : S) : M S unit := λ _, (Val tt, s).
Definition lift {S A} (r : res A) : M S A := λ s, (r, s).

(** [for a in l: body(a)] *)
Fixpoint for_each {S A} (l : list A) (body : A → M S unit) : M S unit :=
  match l with
  | [] => ret tt
  | a :: l' => body a;; for_each l' body
  end.

(** [range(n)] *)
Definition range (n : Z) : list Z := Z.of_nat <$> seq 0 (Z.to_nat n).

(** The position that index [i] denotes in a list of length [len]. *)
Definition norm_index (len : nat) (i : Z) : option nat :=
  if decide (0 ≤ i < Z.of_nat len) then Some (Z.to_nat i)
  else if decide (- Z.of_nat len ≤ i < 0) then Some (Z.to_nat (Z.of_nat len + i))
  else None.

(** [l[i]] *)
Definition getitem {A} (l : list A) (i : Z) : res A :=
  match norm_index (length l) i ≫= (l !!.) with
  | Some a => Val a
  | None => Raise IndexError
  end.

(** [l.remove(a)] for an equality test [same]: the list without its first
    element equal to [a], ValueError (as [None]) when there is none. *)
Fixpoint list_remove {A} (same : A → A → bool) (a : A) (l : list A) : option (list A) :=
  match l with
  | [] => None
  | b :: l' => if same b a then Some l' else (b ::.) <$> list_remove same a l'
  end.

(** [itertools.combinations_with_replacement(pool, r)] for [r >= 0]. *)
Fixpoint combinations_with_replacement {A} (pool : list A) (r : nat) : list (list A) :=
  match r with
  | O => [[]]
  | S r' =>
      (fix go (p : list A) : list (list A) :=
         match p with
         | [] => []
         | a :: p' =>
             ((a ::.) <$> combinations_with_replacement p r') ++ go p'
         end) pool
  end.

End Py.
Import Py.


(** ** ChessFigure *)

(** [oid] is the identity of the Python object: [ChessFigure] defines no
    [__eq__], so [==] and [list.remove] compare objects by identity. *)
Record ChessFigure : Type := mkFigure {
  oid : nat;
  pos_x : Z;
  pos_y : Z
}.

(** [self.possible_moves]: set by [__init__] to the same list for every
    figure and never assigned again. *)
Definition possible_moves (_ : ChessFigure) : list (Z * Z) :=
  [(-1, 0); (1, 0); (0, -1); (0, 1); (-2, 0); (2, 0); (0, -2); (0, 2)].

Definition same_object (p q : ChessFigure) : bool := bool_decide (oid p = oid q).

(** ** ChessBoard *)

(** A cell is the dict [{'x', 'y', 'piece', 'threatened'}]. *)
Record Cell : Type := mkCell {
  cell_x : Z;
  cell_y : Z;
  cell_piece : option ChessFigure;
  cell_threatened : bool
}.

Record ChessBoard : Type := mkBoard {
  board_size : Z;
  cells : list (list Cell);
  placed_pieces : list ChessFigure
}.

Definition set_piece (o : option ChessFigure) (c : Cell) : Cell :=
  mkCell (cell_x c) (cell_y c) o (cell_threatened c).
Definition set_threatened (t : bool) (c : Cell) : Cell :=
  mkCell (cell_x c) (cell_y c) (cell_piece c) t.
Definition set_cells (cs : list (list Cell)) (b : ChessBoard) : ChessBoard :=
  mkBoard (board_size b) cs (placed_pieces b).
Definition set_placed (ps : list ChessFigure) (b : ChessBoard) : ChessBoard :=
  mkBoard (board_size b) (cells b) ps.

(** [ChessBoard.__init__] *)
Definition ChessBoard_init (board_size : Z) : ChessBoard :=
  mkBoard board_size
    ((λ y, (λ x, mkCell x y None false) <$> range board_size) <$> range board_size)
    [].

(** [self.cells[pos_y][pos_x]] *)
Definition cell_at (pos_x pos_y : Z) : M ChessBoard Cell :=
  b ← get;
  row ← lift (getitem (cells b) pos_y);
  lift (getitem row pos_x).

(** [self.cells[pos_y][pos_x][key] = v], as the update [f] of that dict. *)
Definition cell_update (f : Cell → Cell) (pos_x pos_y : Z) : M ChessBoard unit :=
  b ← get;
  match norm_index (length (cells b)) pos_y with
  | None => raise IndexError
  | Some j =>
      match cells b !! j with
      | None => raise IndexError
      | Some row =>
          match norm_index (length row) pos_x with
          | None => raise IndexError
          | Some i => put (set_cells (<[j := alter f i row]> (cells b)) b)
          end
      end
  end.

Definition is_position_empty (pos_x pos_y : Z) : M ChessBoard bool :=
  c ← cell_at pos_x pos_y;
  ret (match cell_piece c with None => true | Some _ => false end).

Definition reaches (other_piece : ChessFigure) (x y : Z) : bool :=
  existsb (λ '(dx, dy),
             bool_decide (pos_x other_piece + dx = x)
             && bool_decide (pos_y other_piece + dy = y))
          (possible_moves other_piece).

Definition is_position_safe (piece : ChessFigure) : M ChessBoard bool :=
  b ← get;
  if negb (bool_decide (0 ≤ pos_x piece < board_size b)
           && bool_decide (0 ≤ pos_y piece < board_size b))
  then ret false
  else
    e ← is_position_empty (pos_x piece) (pos_y piece);
    if negb e then ret false
    else
      ret (negb (existsb (λ other_piece, reaches other_piece (pos_x piece) (pos_y piece))
                         (placed_pieces b))).

Definition update_threatened_cells : M ChessBoard unit :=
  b ← get;
  put (set_cells ((λ row : list Cell, set_threatened false <$> row) <$> cells b) b);;
  for_each (placed_pieces b) (λ piece,
    for_each (possible_moves piece) (λ '(dx, dy),
      let new_x := pos_x piece + dx in
      let new_y := pos_y piece + dy in
      if bool_decide (0 ≤ new_x < board_size b) && bool_decide (0 ≤ new_y < board_size b)
      then cell_update (set_threatened true) new_x new_y
      else ret tt)).

Definition place_piece (piece : ChessFigure) : M ChessBoard bool :=
  e ← is_position_empty (pos_x piece) (pos_y piece);
  if negb e then ret false
  else
    s ← is_position_safe piece;
    if negb s then ret false
    else
      cell_update (set_piece (Some piece)) (pos_x piece) (pos_y piece);;
      b ← get;
      put (set_placed (placed_pieces b ++ [piece]) b);;
      update_threatened_cells;;
      ret true.

Definition remove_piece (piece : ChessFigure) : M ChessBoard unit :=
  cell ← cell_at (pos_x piece) (pos_y piece);
  if match cell_piece cell with Some q => same_object q piece | None => false end
  then
    cell_update (set_piece None) (pos_x piece) (pos_y piece);;
    b ← get;
    match list_remove same_object piece (placed_pieces b) with
    | None => raise ValueError
    | Some ps => put (set_placed ps b)
    end;;
    update_threatened_cells
  else ret tt.

(** ** ChessSolver *)

(** The objects that a search works on: the board it was handed (the
    solver's [self.chess_board]), the solver's [self.found_solutions], and
    the allocator of object identities. *)
Record Env : Type := mkEnv {
  chess_board : ChessBoard;
  found_solutions : gset (gset (Z * Z));
  next_oid : nat
}.

(** [ChessSolver.__init__], on an allocator that has handed out [n] objects. *)
Definition ChessSolver_init (n : nat) : Env := mkEnv (ChessBoard_init 0) ∅ n.

(** [ChessFigure(pos_x, pos_y)]: a new object. *)
Definition new_ChessFigure (pos_x pos_y : Z) : M Env ChessFigure :=
  λ e, (Val (mkFigure (next_oid e) pos_x pos_y),
        mkEnv (chess_board e) (found_solutions e) (S (next_oid e))).

(** A method call on the solver's board. *)
Definition on_board {A} (m : M ChessBoard A) : M Env A :=
  λ e, let (r, b) := m (chess_board e) in
       (r, mkEnv b (found_solutions e) (next_oid e)).

(** A method call on a board held in a local variable: the result and the
    board as the call left it.  An exception leaves the function, and the
    local board with it. *)
Definition on_local {A} (board : ChessBoard) (m : M ChessBoard A) : M Env (A * ChessBoard) :=
  λ e, match m board with
       | (Val a, board') => (Val (a, board'), e)
       | (Raise ex, _) => (Raise ex, e)
       end.

Definition coordinates_of (ps : list ChessFigure) : list (Z * Z) :=
  (λ p, (pos_x p, pos_y p)) <$> ps.

(** [self.found_solutions.add(frozenset((p.pos_x, p.pos_y) for p in board.placed_pieces))] *)
Definition record_solution : M Env unit :=
  e ← get;
  put (mkEnv (chess_board e)
             ({[ list_to_set (coordinates_of (placed_pieces (chess_board e))) ]}
                ∪ found_solutions e)
             (next_oid e)).

Fixpoint recursive_solver (remaining_pieces : list ascii) : M Env unit :=
  match remaining_pieces with
  | [] => record_solution
  | current_piece :: rest =>
      rows ← on_board (gets board_size);
      for_each (range rows) (λ y,
        columns ← on_board (gets board_size);
        for_each (range columns) (λ x,
          new_piece ← new_ChessFigure x y;
          placed ← on_board (place_piece new_piece);
          if placed : bool
          then recursive_solver rest;; on_board (remove_piece new_piece)
          else mret tt))
  end.

(** [find_solutions(board, piece_arrangements)]: the closure
    [recursive_solver] works on the object [board], which is the board of
    the environment from here on. *)
Definition find_solutions (board : ChessBoard) (piece_arrangements : list (list ascii))
  : M Env unit :=
  e ← get;
  put (mkEnv board (found_solutions e) (next_oid e));;
  for_each piece_arrangements recursive_solver.

(** [start_solving] followed by [run], without the thread and the signal:
    [self.chess_board = board], then [find_solutions(self.chess_board, ...)]. *)
Definition start_solving (board : ChessBoard) (piece_arrangements : list (list ascii))
  : M Env unit :=
  find_solutions board piece_arrangements.

(** The loop of [create_board] over [initial_pieces]; the value of
    [place_piece] is dropped. *)
Fixpoint seed_board (board : ChessBoard) (initial_pieces : list (Z * Z)) : M Env ChessBoard :=
  match initial_pieces with
  | [] => mret board
  | coordinates :: rest =>
      piece ← new_ChessFigure coordinates.1 coordinates.2;
      r ← on_local board (place_piece piece);
      seed_board r.2 rest
  end.

(** [list(set(combinations_with_replacement(' ', l)))]; a negative [l]
    raises ValueError.  The pool has one element, so the set has one tuple
    and its order as a list is immaterial. *)
Definition placement_options (l : Z) : M Env (list (list ascii)) :=
  if bool_decide (l < 0) then raise ValueError
  else mret (remove_dups (combinations_with_replacement [" "%char] (Z.to_nat l))).

Definition create_board (n l k : Z) (initial_pieces : list (Z * Z))
  : M Env (ChessBoard * list (list ascii)) :=
  let board := ChessBoard_init n in
  board ← (if bool_decide (k > 0) then seed_board board initial_pieces else mret board);
  options ← placement_options l;
  mret (board, options).

(** The two calls of [ChessAppWindow._render_board]. *)
Definition solve (n l k : Z) (initial_pieces : list (Z * Z)) : M Env unit :=
  r ← create_board n l k initial_pieces;
  start_solving r.1 r.2.

(** The loop of [CoordinatesInputDialog._check_safety] over the positions,
    which returns at the first figure that cannot be placed. *)
Fixpoint check_positions (temp_board : ChessBoard) (pieces_positions : list (Z * Z)) : M Env bool :=
  match pieces_positions with
  | [] => mret true
  | (x, y) :: rest =>
      piece ← new_ChessFigure x y;
      r ← on_local temp_board (place_piece piece);
      if negb r.1 then mret false else check_positions r.2 rest
  end.

(** [_check_safety]: the loop on a temporary board of its own. *)
Definition _check_safety (pieces_positions : list (Z * Z)) (board_size : Z) : M Env bool :=
  check_positions (ChessBoard_init board_size) pieces_positions.

(** *** save_results *)

(** The order in which Python iterates over a [set] or [frozenset] is not
    specified: any enumeration without repetition. *)
Class SetOrder : Type := {
  iter : ∀ {A} `{Countable A}, gset A → list A;
  iter_elements : ∀ {A} `{Countable A} (s : gset A), iter s ≡ₚ elements s
}.






#[global] Instance elements_order : SetOrder :=
  {| iter := λ A _ _ s, elements s; iter_elements := λ A _ _ s, reflexivity _ |}.

(** ** Vocabulary of the specification *)

Definition in_bounds (n x y : Z) : Prop := 0 ≤ x < n ∧ 0 ≤ y < n.

(** The cell of column [x] and row [y], for coordinates that are not negative. *)
Definition grid_at (g : list (list Cell)) (x y : Z) : option Cell :=
  g !! Z.to_nat y ≫= (.!! Z.to_nat x).

(** [n] rows of [n] cells. *)
Definition grid_shape (n : Z) (g : list (list Cell)) : Prop :=
  length g = Z.to_nat n ∧ Forall (λ row, length row = Z.to_nat n) g.

(** The position that Python's indexing gives to [i] in a list of [n]
    elements, for [- n ≤ i < n]. *)
Definition wrap (n i : Z) : Z := if decide (0 ≤ i) then i else n + i.

(** The grid after a successful [place_piece] and after [remove_piece]:
    the cell of the figure gets the occupant [o], every flag is that of the
    new placed list [ps]. *)
Definition regrid (x0 y0 : Z) (o : option ChessFigure) (ps : list ChessFigure)
    (x y : Z) (c : Cell) : Cell :=
  mkCell (cell_x c) (cell_y c)
         (if decide (x = x0 ∧ y = y0) then o else cell_piece c)
         (existsb (λ q, reaches q x y) ps).

Definition occupied (b : ChessBoard) (x y : Z) : Prop :=
  ∃ c q, grid_at (cells b) x y = Some c ∧ cell_piece c = Some q.

(** The invariant of a board: the grid has its shape and each cell knows its
    coordinates; a cell holds a figure exactly when that figure is in the
    placed list at that cell; the flag of a cell tells whether a placed
    figure reaches it; the placed figures are on the board, on different
    cells. *)
Record board_ok (b : ChessBoard) : Prop := mk_board_ok {
  ok_shape : grid_shape (board_size b) (cells b);
  ok_coords : ∀ x y c, in_bounds (board_size b) x y →
      grid_at (cells b) x y = Some c → cell_x c = x ∧ cell_y c = y;
  ok_piece : ∀ x y c q, in_bounds (board_size b) x y →
      grid_at (cells b) x y = Some c →
      (cell_piece c = Some q ↔ q ∈ placed_pieces b ∧ pos_x q = x ∧ pos_y q = y);
  ok_flags : ∀ x y c, in_bounds (board_size b) x y →
      grid_at (cells b) x y = Some c →
      cell_threatened c = existsb (λ q, reaches q x y) (placed_pieces b);
  ok_inside : ∀ q, q ∈ placed_pieces b → in_bounds (board_size b) (pos_x q) (pos_y q);
  ok_nodup : NoDup (coordinates_of (placed_pieces b))
}.

(** The two parts of it that the specification names. *)
Definition one_piece_per_cell (b : ChessBoard) : Prop :=
  NoDup (coordinates_of (placed_pieces b)) ∧
  ∀ x y c q, in_bounds (board_size b) x y → grid_at (cells b) x y = Some c →
    (cell_piece c = Some q ↔ q ∈ placed_pieces b ∧ pos_x q = x ∧ pos_y q = y).

Definition flags_consistent (b : ChessBoard) : Prop :=
  ∀ x y, in_bounds (board_size b) x y →
    ∃ c, grid_at (cells b) x y = Some c ∧
         (cell_threatened c = true ↔ ∃ q, q ∈ placed_pieces b ∧ reaches q x y = true).

(** Different placed figures are different objects. *)
Definition board_inv (b : ChessBoard) : Prop :=
  board_ok b ∧ NoDup (oid <$> placed_pieces b).

(** [p] is a new object, or the placed object of that identity. *)
Definition coherent (b : ChessBoard) (p : ChessFigure) : Prop :=
  ∀ q, q ∈ placed_pieces b → oid q = oid p → q = p.

(** The boards a caller can build. *)
Inductive reachable_board : ChessBoard → Prop :=
| reach_init n : reachable_board (ChessBoard_init n)
| reach_place b p :
    reachable_board b → coherent b p → reachable_board (place_piece p b).2
| reach_remove b p :
    reachable_board b → coherent b p → reachable_board (remove_piece p b).2.

(** The figures of a board were allocated before [next]. *)
Definition allocated (next : nat) (b : ChessBoard) : Prop :=
  ∀ q, q ∈ placed_pieces b → (oid q < next)%nat.

(** The board of the search is in order and its figures were allocated. *)
Definition env_ok (e : Env) : Prop :=
  board_inv (chess_board e) ∧ allocated (next_oid e) (chess_board e).

(** A figure at [c] reaches [d]. *)
Definition threatens (c d : Z * Z) : bool := reaches (mkFigure 0 c.1 c.2) d.1 d.2.

Definition conflict (c d : Z * Z) : bool := bool_decide (c = d) || threatens c d.

(** No two of the coordinates coincide or threaten each other. *)
Fixpoint mutually_safe (l : list (Z * Z)) : bool :=
  match l with
  | [] => true
  | c :: l' => forallb (λ d, negb (conflict c d)) l' && mutually_safe l'
  end.

(** [c] can be added to figures at [placed] on a board of size [n]. *)
Definition safe_addition (n : Z) (placed : list (Z * Z)) (c : Z * Z) : bool :=
  bool_decide (0 ≤ c.1 < n) && bool_decide (0 ≤ c.2 < n)
  && forallb (λ d, negb (conflict d c)) placed.

(** [completes n placed l final]: [final] is [placed] followed by [l]
    additions, each safe when it is made. *)
Inductive completes (n : Z) : list (Z * Z) → nat → list (Z * Z) → Prop :=
| completes_O placed : completes n placed 0 placed
| completes_S placed c l final :
    safe_addition n placed c = true →
    completes n (placed ++ [c]) l final →
    completes n placed (S l) final.

(** The coordinate sets that [l] safe additions to [placed] end with. *)
Definition solved (n : Z) (placed : list (Z * Z)) (l : nat) (s : gset (Z * Z)) : Prop :=
  ∃ final, completes n placed l final ∧ s = list_to_set final.

(** What one run of [recursive_solver] is to do: return, with the board as
    it was, having added to the solutions those of [l] more figures. *)
Definition searched (l : nat) (e e' : Env) : Prop :=
  chess_board e' = chess_board e ∧ (next_oid e ≤ next_oid e')%nat ∧
  ∀ s, s ∈ found_solutions e' ↔
       s ∈ found_solutions e
       ∨ solved (board_size (chess_board e))
                (coordinates_of (placed_pieces (chess_board e))) l s.

(** The same on boards, with the program's own predicate and method. *)
Inductive grows : ChessBoard → nat → ChessBoard → Prop :=
| grows_O b : grows b 0 b
| grows_S b p b1 l b' :
    is_position_safe p b = (Val true, b) →
    place_piece p b = (Val true, b1) →
    grows b1 l b' →
    grows b (S l) b'.

(** The pre-placed coordinates that [create_board] keeps: those that are
    safe additions when their turn comes. *)
Definition keep (n : Z) (kept : list (Z * Z)) (c : Z * Z) : list (Z * Z) :=
  if safe_addition n kept c then kept ++ [c] else kept.
Definition seeded (n : Z) (initial_pieces : list (Z * Z)) : list (Z * Z) :=
  foldl (keep n) [] initial_pieces.



(** The 3×3 board with a figure on its centre. *)
Definition centre_board : ChessBoard :=
  (place_piece (mkFigure 0 1 1) (ChessBoard_init 3)).2.

Definition with_found (f : gset (gset (Z * Z))) (e : Env) : Env :=
  mkEnv (chess_board e) f (next_oid e).

(** Two environments that differ by solutions [F] recorded earlier, and a
    computation that behaves in both in the same way. *)
Definition ahead (F : gset (gset (Z * Z))) (e1 e2 : Env) : Prop :=
  chess_board e1 = chess_board e2 ∧ next_oid e1 = next_oid e2 ∧
  found_solutions e1 = F ∪ found_solutions e2.

Definition accumulates {A : Type} (F : gset (gset (Z * Z))) (m : M Env A) : Prop :=
  ∀ e1 e2, ahead F e1 e2 → (m e1).1 = (m e2).1 ∧ ahead F (m e1).2 (m e2).2.

(** ** DeskWindow: the picture of one solution *)

(** [for a in l: scene.addItem(body(a))], as the list of the items added. *)
Fixpoint collect {S A B} (l : list A) (body : A → M S (list B)) : M S (list B) :=
  match l with
  | [] => mret []
  | a :: l' => items ← body a; rest ← collect l' body; mret (items ++ rest)
  end.

Inductive Colour : Type := white | brown | blue | yellow.

(** [CELL_COLORS.get(cell_state, QColor("white"))] *)
Definition cell_colour (cell_state : Z) : Colour :=
  if bool_decide (cell_state = 0) then white
  else if bool_decide (cell_state = 1) then brown
  else if bool_decide (cell_state = 2) then blue
  else if bool_decide (cell_state = 3) then yellow
  else white.

(** The rectangle of a cell: its position in the scene and its brush. *)
Record Item : Type := mkItem {
  item_x : Z;
  item_y : Z;
  item_brush : Colour
}.

(** [create_board_cell(x, y, cell_state)] *)
Definition create_board_cell (x y cell_state : Z) : Item :=
  mkItem (x * 40) (y * 40) (cell_colour cell_state).

(** The first loop of [_display_solution]: the figures of the solution
    that are not on the board are placed on it and remembered. *)
Fixpoint place_temporary (solution : list (Z * Z)) (temporary_pieces : list ChessFigure)
  : M Env (list ChessFigure) :=
  match solution with
  | [] => mret temporary_pieces
  | (x, y) :: rest =>
      empty ← on_board (is_position_empty x y);
      if empty : bool
      then
        piece ← new_ChessFigure x y;
        placed ← on_board (place_piece piece);
        place_temporary rest (if placed : bool then temporary_pieces ++ [piece]
                              else temporary_pieces)
      else place_temporary rest temporary_pieces
  end.

(** The [if]/[elif] chain that chooses the state of the cell at [(x, y)]. *)
Definition cell_state (x y : Z) : M ChessBoard Z :=
  c ← cell_at x y;
  if cell_threatened c then mret 3
  else
    e ← is_position_empty x y;
    if e && bool_decide ((y + x) `mod` 2 = 0) then mret 0
    else
      e' ← is_position_empty x y;
      if e' && bool_decide ((y + x) `mod` 2 ≠ 0) then mret 1
      else mret 2.

(** [DeskWindow._display_solution], as the items it adds to the scene. *)
Definition _display_solution (solution : list (Z * Z)) : M Env (list Item) :=
  board_size ← on_board (gets (λ b, Z.of_nat (length (cells b))));
  temporary_pieces ← place_temporary solution [];
  scene ← collect (range board_size) (λ x,
             collect (range board_size) (λ y,
               state ← on_board (cell_state x y);
               mret [create_board_cell x y state]));
  for_each temporary_pieces (λ piece, on_board (remove_piece piece));;
  mret scene.

(** [ChessAppWindow._handle_solution(board, solutions)], for the board that
    [run] emits with the solutions, which is the solver's own board: the
    first solution of the iteration is shown, when there is one. *)
Definition _handle_solution `{SetOrder} (solutions : gset (gset (Z * Z)))
  : M Env (option (list Item)) :=
  match iter solutions with
  | [] => mret None
  | solution :: _ => scene ← _display_solution (iter solution); mret (Some scene)
  end.

(** ** More vocabulary *)

(** No two different coordinates of [l] threaten each other. *)
Definition conflict_free (l : list (Z * Z)) : Prop :=
  ∀ c d, c ∈ l → d ∈ l → c ≠ d → threatens c d = false.

(** Some offset of the list [offsets], added to [c], gives [d]. *)
Definition offsets_reach (offsets : list (Z * Z)) (c d : Z * Z) : Prop :=
  ∃ dx dy, (dx, dy) ∈ offsets ∧ c.1 + dx = d.1 ∧ c.2 + dy = d.2.

(** [d] is one or two cells away from [c], in its column or in its row. *)
Definition in_line_within_two (c d : Z * Z) : Prop :=
  (d.1 = c.1 ∧ (d.2 = c.2 - 1 ∨ d.2 = c.2 + 1 ∨ d.2 = c.2 - 2 ∨ d.2 = c.2 + 2))
  ∨ (d.2 = c.2 ∧ (d.1 = c.1 - 1 ∨ d.1 = c.1 + 1 ∨ d.1 = c.1 - 2 ∨ d.1 = c.1 + 2)).

(** The colour that the picture of [solution] gives to the cell [(x, y)]. *)
Definition shown (solution : list (Z * Z)) (x y : Z) : Colour :=
  if existsb (λ c, threatens c (x, y)) solution then yellow
  else if bool_decide ((x, y) ∈ solution) then blue
  else if bool_decide ((y + x) `mod` 2 = 0) then white
  else brown.

(** The picture of [solution] on a board of size [n], column by column. *)
Definition picture (n : Z) (solution : list (Z * Z)) : list Item :=
  x ← range n; y ← range n; [mkItem (x * 40) (y * 40) (shown solution x y)].

(** ** Running computations *)

Lemma bind_val {S A B} (m : M S A) (f : A → M S B) s a s' :
  m s = (Val a, s') → (m ≫= f) s = f a s'.
Proof. intros Hm. unfold mbind, M_bind, bind. by rewrite Hm. Qed.

Lemma bind_raise {S A B} (m : M S A) (f : A → M S B) s e s' :
  m s = (Raise e, s') → (m ≫= f) s = (Raise e, s').
Proof. intros Hm. unfold mbind, M_bind, bind. by rewrite Hm. Qed.

Lemma for_each_from {S A} (I : list A → S → Prop) (body : A → M S unit) (l pre : list A) s :
  I pre s →
  (∀ done a rest s1, pre ++ l = done ++ a :: rest → I done s1 →
     ∃ s2, body a s1 = (Val tt, s2) ∧ I (done ++ [a]) s2) →
  ∃ s', for_each l body s = (Val tt, s') ∧ I (pre ++ l) s'.
Proof.
  revert pre s. induction l as [|a l IH]; intros pre s Hpre Hbody.
  - exists s. rewrite app_nil_r. done.
  - destruct (Hbody pre a l s eq_refl Hpre) as (s2 & Hrun & Hs2).
    destruct (IH (pre ++ [a]) s2 Hs2) as (s' & Hrest & Hs').
    { intros done b rest s1 Heq. apply (Hbody done b rest). by rewrite <- Heq, <- app_assoc. }
    exists s'. split.
    + simpl. by rewrite (bind_val _ _ _ _ _ Hrun).
    + by rewrite <- app_assoc in Hs'.
Qed.

(** The rule of a [for] loop whose body does not raise: an invariant of
    the elements already visited. *)
Lemma for_each_rule {S A} (I : list A → S → Prop) (body : A → M S unit) (l : list A) s :
  I [] s →
  (∀ done a rest s1, l = done ++ a :: rest → I done s1 →
     ∃ s2, body a s1 = (Val tt, s2) ∧ I (done ++ [a]) s2) →
  ∃ s', for_each l body s = (Val tt, s') ∧ I l s'.
Proof. intros H0 Hbody. by apply (for_each_from I body l []). Qed.

(** ** Python lists *)

Lemma elem_of_range n x : x ∈ range n ↔ 0 ≤ x < n.
Proof.
  unfold range. rewrite list_elem_of_fmap. split.
  - intros (k & -> & Hk). apply elem_of_seq in Hk. lia.
  - intros Hx. exists (Z.to_nat x). split; [lia|]. apply elem_of_seq. lia.
Qed.

Lemma norm_index_lt len i k : norm_index len i = Some k → (k < len)%nat.
Proof.
  unfold norm_index. repeat case_decide; intros [= <-]; lia.
Qed.

Lemma norm_index_in_range len i :
  0 ≤ i < Z.of_nat len → norm_index len i = Some (Z.to_nat i).
Proof. intros Hi. unfold norm_index. by rewrite decide_True. Qed.

Lemma norm_index_is_Some len i :
  is_Some (norm_index len i) ↔ - Z.of_nat len ≤ i < Z.of_nat len.
Proof.
  unfold norm_index. split.
  - intros [k Hk]. repeat case_decide; try lia. done.
  - intros Hi. repeat case_decide; try (by eexists). lia.
Qed.

Lemma getitem_in_range {A} (l : list A) i a :
  0 ≤ i → l !! Z.to_nat i = Some a → getitem l i = Val a.
Proof.
  intros Hi Ha. unfold getitem.
  rewrite norm_index_in_range; [simpl; by rewrite Ha|].
  apply lookup_lt_Some in Ha. lia.
Qed.

Lemma getitem_wrapped {A} (l : list A) i :
  - Z.of_nat (length l) ≤ i < Z.of_nat (length l) → ∃ a, getitem l i = Val a ∧ a ∈ l.
Proof.
  intros Hi. apply norm_index_is_Some in Hi as [k Hk].
  destruct (lookup_lt_is_Some_2 l k (norm_index_lt _ _ _ Hk)) as [a Ha].
  exists a. split; [|by eapply list_elem_of_lookup_2].
  unfold getitem. rewrite Hk. simpl. by rewrite Ha.
Qed.

Lemma getitem_out_of_range {A} (l : list A) i :
  ¬ (- Z.of_nat (length l) ≤ i < Z.of_nat (length l)) → getitem l i = Raise IndexError.
Proof.
  intros Hi. unfold getitem.
  destruct (norm_index (length l) i) as [k|] eqn:Hk; [|done].
  exfalso. apply Hi. apply norm_index_is_Some. by eexists.
Qed.

(** ** The grid *)

Lemma grid_at_is_Some n g x y :
  grid_shape n g → in_bounds n x y → is_Some (grid_at g x y).
Proof.
  intros [Hlen Hrows] [Hx Hy]. unfold grid_at.
  destruct (lookup_lt_is_Some_2 g (Z.to_nat y)) as [row Hrow]; [lia|].
  rewrite Hrow. simpl. apply lookup_lt_is_Some_2.
  rewrite Forall_forall in Hrows. rewrite (Hrows row); [lia|].
  by eapply list_elem_of_lookup_2.
Qed.

Lemma grid_at_row n g x y c :
  grid_shape n g → grid_at g x y = Some c →
  ∃ row, g !! Z.to_nat y = Some row ∧ row !! Z.to_nat x = Some c ∧ length row = Z.to_nat n.
Proof.
  intros [Hlen Hrows]. unfold grid_at.
  destruct (g !! Z.to_nat y) as [row|] eqn:Hrow; [|done]. simpl. intros Hc.
  exists row. repeat split; [done|].
  rewrite Forall_forall in Hrows. apply Hrows. by eapply list_elem_of_lookup_2.
Qed.

Lemma grid_eq n g1 g2 :
  grid_shape n g1 → grid_shape n g2 →
  (∀ x y, in_bounds n x y → grid_at g1 x y = grid_at g2 x y) → g1 = g2.
Proof.
  intros [Hl1 Hr1] [Hl2 Hr2] Heq. apply list_eq. intros j.
  destruct (decide (j < length g1)%nat) as [Hj|Hj].
  - destruct (lookup_lt_is_Some_2 g1 j Hj) as [r1 Hj1].
    destruct (lookup_lt_is_Some_2 g2 j) as [r2 Hj2]; [lia|].
    rewrite Hj1, Hj2. f_equal. apply list_eq. intros i.
    rewrite Forall_forall in Hr1, Hr2.
    assert (length r1 = Z.to_nat n) as Hlr1 by (apply Hr1; by eapply list_elem_of_lookup_2).
    assert (length r2 = Z.to_nat n) as Hlr2 by (apply Hr2; by eapply list_elem_of_lookup_2).
    destruct (decide (i < Z.to_nat n)%nat) as [Hi|Hi].
    + specialize (Heq (Z.of_nat i) (Z.of_nat j)). unfold grid_at in Heq.
      rewrite !Nat2Z.id, Hj1, Hj2 in Heq. simpl in Heq. apply Heq.
      unfold in_bounds. lia.
    + rewrite !lookup_ge_None_2; [done|lia|lia].
  - rewrite !lookup_ge_None_2; [done|lia|lia].
Qed.

Lemma grid_at_alter f g x y x' y' :
  0 ≤ x → 0 ≤ y → 0 ≤ x' → 0 ≤ y' →
  grid_at (alter (alter f (Z.to_nat x)) (Z.to_nat y) g) x' y'
  = if decide (x' = x ∧ y' = y) then f <$> grid_at g x y else grid_at g x' y'.
Proof.
  intros Hx Hy Hx' Hy'. unfold grid_at.
  destruct (decide (Z.to_nat y' = Z.to_nat y)) as [Hyy|Hyy].
  - rewrite Hyy, list_lookup_alter_eq. assert (y' = y) as -> by lia.
    destruct (g !! Z.to_nat y) as [row|]; simpl.
    + destruct (decide (Z.to_nat x' = Z.to_nat x)) as [Hxx|Hxx].
      * rewrite Hxx, list_lookup_alter_eq. assert (x' = x) as -> by lia.
        by rewrite decide_True.
      * rewrite list_lookup_alter_ne by done. rewrite decide_False; [done|lia].
    + case_decide; [|done]. by destruct_and!; subst.
  - rewrite list_lookup_alter_ne by done. rewrite decide_False; [done|lia].
Qed.

Lemma grid_shape_alter f n g i j :
  grid_shape n g → grid_shape n (alter (alter f i) j g).
Proof.
  intros [Hlen Hrows]. split; [by rewrite length_alter|].
  rewrite Forall_forall in *. intros row Hrow.
  apply list_elem_of_lookup in Hrow as [k Hk].
  destruct (decide (k = j)) as [->|Hne].
  - rewrite list_lookup_alter_eq in Hk.
    destruct (g !! j) as [r|] eqn:Hr; [|done]. simpl in Hk.
    injection Hk as <-. rewrite length_alter. apply Hrows. by eapply list_elem_of_lookup_2.
  - rewrite list_lookup_alter_ne in Hk by done. apply Hrows. by eapply list_elem_of_lookup_2.
Qed.

Lemma insert_alter_row {A} (f : A → A) (g : list (list A)) i j row :
  g !! j = Some row → <[j := alter f i row]> g = alter (alter f i) j g.
Proof.
  intros Hrow. apply list_eq. intros k. destruct (decide (k = j)) as [->|Hne].
  - rewrite list_lookup_alter_eq, Hrow. simpl. apply list_lookup_insert_eq.
    by eapply lookup_lt_Some.
  - by rewrite list_lookup_insert_ne, list_lookup_alter_ne.
Qed.

(** ** Reading and writing cells *)

Lemma cell_at_in_bounds b x y :
  grid_shape (board_size b) (cells b) → in_bounds (board_size b) x y →
  ∃ c, cell_at x y b = (Val c, b) ∧ grid_at (cells b) x y = Some c.
Proof.
  intros Hshape Hin. destruct (grid_at_is_Some _ _ _ _ Hshape Hin) as [c Hc].
  exists c. split; [|done].
  destruct (grid_at_row _ _ _ _ _ Hshape Hc) as (row & Hrow & Hcell & _).
  destruct Hin as [Hx Hy]. unfold cell_at.
  rewrite (bind_val get _ b b b) by done.
  rewrite (bind_val _ _ b row b);
    [|unfold lift; rewrite (getitem_in_range _ _ row); [done|lia|done]].
  unfold lift. rewrite (getitem_in_range _ _ c); [done|lia|done].
Qed.

Lemma cell_at_state x y b : (cell_at x y b).2 = b.
Proof.
  unfold cell_at, mbind, M_bind, bind, get, lift. simpl.
  by destruct (getitem (cells b) y).
Qed.

Lemma is_position_empty_state x y b : (is_position_empty x y b).2 = b.
Proof.
  unfold is_position_empty, mbind, M_bind, bind.
  pose proof (cell_at_state x y b) as H.
  destruct (cell_at x y b) as [[c|e] b']; simpl in *; by subst.
Qed.

Lemma is_position_safe_state p b : (is_position_safe p b).2 = b.
Proof.
  unfold is_position_safe, mbind, M_bind, bind, get. simpl.
  destruct (negb _); [done|].
  pose proof (is_position_empty_state (pos_x p) (pos_y p) b) as H.
  destruct (is_position_empty _ _ b) as [[[]|e] b']; simpl in *; by subst.
Qed.

Lemma cell_update_in_bounds f b x y :
  grid_shape (board_size b) (cells b) → in_bounds (board_size b) x y →
  cell_update f x y b
  = (Val tt, set_cells (alter (alter f (Z.to_nat x)) (Z.to_nat y) (cells b)) b).
Proof.
  intros Hshape Hin. destruct (grid_at_is_Some _ _ _ _ Hshape Hin) as [c Hc].
  destruct (grid_at_row _ _ _ _ _ Hshape Hc) as (row & Hrow & Hcell & Hlen).
  destruct Hshape as [Hrows _]. destruct Hin as [Hx Hy].
  unfold cell_update. rewrite (bind_val get _ b b b) by done.
  rewrite norm_index_in_range by lia. rewrite Hrow.
  rewrite norm_index_in_range by lia. unfold put.
  by rewrite (insert_alter_row _ _ _ _ _ Hrow).
Qed.

Lemma grid_at_fmap (f : Cell → Cell) g x y :
  grid_at ((λ row : list Cell, f <$> row) <$> g) x y = f <$> grid_at g x y.
Proof.
  unfold grid_at. rewrite list_lookup_fmap.
  destruct (g !! Z.to_nat y) as [row|]; simpl; [|done].
  by rewrite list_lookup_fmap.
Qed.

Lemma grid_shape_fmap (f : Cell → Cell) n g :
  grid_shape n g → grid_shape n ((λ row : list Cell, f <$> row) <$> g).
Proof.
  intros [Hlen Hrows]. split; [by rewrite length_fmap|].
  rewrite Forall_fmap. eapply Forall_impl; [done|].
  intros row Hrow. simpl. by rewrite length_fmap.
Qed.

Lemma set_threatened_twice t t' (o : option Cell) :
  set_threatened t <$> (set_threatened t' <$> o) = set_threatened t <$> o.
Proof. by destruct o. Qed.

(** ** update_threatened_cells *)

(** The recomputation returns, and leaves each cell with the flag that the
    placed list gives it. *)
Lemma update_threatened_cells_spec b :
  grid_shape (board_size b) (cells b) →
  ∃ g, update_threatened_cells b = (Val tt, set_cells g b) ∧
       grid_shape (board_size b) g ∧
       ∀ x y, in_bounds (board_size b) x y →
         grid_at g x y
         = set_threatened (existsb (λ q, reaches q x y) (placed_pieces b)) <$> grid_at (cells b) x y.
Proof.
  intros Hshape. unfold update_threatened_cells.
  rewrite (bind_val get _ b b b) by done.
  rewrite (bind_val (put _) _ b tt _) by done.
  set (I := λ (done : list ChessFigure) (s : ChessBoard),
    ∃ g, s = set_cells g b ∧ grid_shape (board_size b) g ∧
         ∀ x y, in_bounds (board_size b) x y →
           grid_at g x y
           = set_threatened (existsb (λ q, reaches q x y) done) <$> grid_at (cells b) x y).
  match goal with |- context [for_each ?l ?body ?s] =>
    destruct (for_each_rule I body l s) as (s' & Hrun & (g & -> & Hg & Hflags))
  end; [| |by eauto].
  { eexists. split; [done|]. split; [by apply grid_shape_fmap|].
    intros x y _. apply grid_at_fmap. }
  intros done p _ s1 _ (g1 & -> & Hg1 & Hflags1).
  set (J := λ (mdone : list (Z * Z)) (s : ChessBoard),
    ∃ g, s = set_cells g b ∧ grid_shape (board_size b) g ∧
         ∀ x y, in_bounds (board_size b) x y →
           grid_at g x y
           = set_threatened
               (existsb (λ q, reaches q x y) done
                || existsb (λ '(dx, dy), bool_decide (pos_x p + dx = x)
                                          && bool_decide (pos_y p + dy = y)) mdone)
             <$> grid_at (cells b) x y).
  match goal with |- context [for_each ?l ?body ?s] =>
    destruct (for_each_rule J body l s) as (s2 & Hrun2 & (g2 & -> & Hg2 & Hflags2))
  end; [| |].
  { exists g1. split; [done|]. split; [done|]. intros x y Hin. simpl.
    rewrite orb_false_r. by apply Hflags1. }
  { intros mdone [dx dy] _ s3 _ (g3 & -> & Hg3 & Hflags3).
    cbv beta iota zeta.
    destruct (bool_decide (0 ≤ pos_x p + dx < board_size b)
              && bool_decide (0 ≤ pos_y p + dy < board_size b)) eqn:Hb.
    - apply andb_true_iff in Hb as [Hbx%bool_decide_eq_true Hby%bool_decide_eq_true].
      assert (in_bounds (board_size b) (pos_x p + dx) (pos_y p + dy)) as Hin by done.
      rewrite (cell_update_in_bounds _ (set_cells g3 b)) by done.
      eexists. split; [done|]. eexists. split; [done|]. simpl.
      split; [by apply grid_shape_alter|].
      intros x y Hxy. rewrite grid_at_alter by (unfold in_bounds in *; lia).
      rewrite existsb_app. simpl. case_decide as Heq.
      + destruct Heq as [-> ->]. rewrite Hflags3 by done.
        rewrite set_threatened_twice.
        rewrite !bool_decide_eq_true_2 by done. simpl.
        by rewrite !orb_true_r.
      + rewrite Hflags3 by done. do 2 f_equal. f_equal.
        rewrite orb_false_r.
        destruct (bool_decide (pos_x p + dx = x)) eqn:E1;
          destruct (bool_decide (pos_y p + dy = y)) eqn:E2; simpl;
          rewrite ?orb_false_r; try done.
        apply bool_decide_eq_true in E1, E2. subst. tauto.
    - eexists. split; [done|]. exists g3. split; [done|]. split; [done|].
      intros x y Hxy. rewrite Hflags3 by done. do 2 f_equal. f_equal.
      rewrite existsb_app. simpl. rewrite orb_false_r.
      destruct (bool_decide (pos_x p + dx = x)) eqn:E1;
        destruct (bool_decide (pos_y p + dy = y)) eqn:E2; simpl;
        rewrite ?orb_false_r; try done.
      apply bool_decide_eq_true in E1, E2. subst.
      destruct Hxy as [Hx Hy].
      rewrite (bool_decide_eq_true_2 _ Hx), (bool_decide_eq_true_2 _ Hy) in Hb. done. }
  exists (set_cells g2 b). split; [exact Hrun2|]. exists g2. split; [done|]. split; [done|].
  intros x y Hxy. rewrite Hflags2 by done. do 2 f_equal.
  rewrite existsb_app. f_equal.
  change (existsb (λ q, reaches q x y) [p]) with (reaches p x y || false).
  by rewrite orb_false_r.
Qed.

Lemma getitem_cases {A} (l : list A) n i :
  length l = Z.to_nat n →
  (- n ≤ i < n ∧ ∃ a, getitem l i = Val a ∧ l !! Z.to_nat (wrap n i) = Some a)
  ∨ (¬ (- n ≤ i < n) ∧ getitem l i = Raise IndexError).
Proof.
  intros Hlen. destruct (decide (- n ≤ i < n)) as [Hi|Hi].
  - left. split; [done|]. unfold getitem, norm_index, wrap. rewrite Hlen.
    destruct (decide (0 ≤ i)).
    + rewrite decide_True by lia. simpl.
      destruct (lookup_lt_is_Some_2 l (Z.to_nat i)) as [a Ha]; [lia|].
      exists a. by rewrite Ha.
    + rewrite decide_False by lia. rewrite decide_True by lia. simpl.
      replace (Z.of_nat (Z.to_nat n)) with n by lia.
      destruct (lookup_lt_is_Some_2 l (Z.to_nat (n + i))) as [a Ha]; [lia|].
      exists a. by rewrite Ha.
  - right. split; [done|]. apply getitem_out_of_range. lia.
Qed.

Lemma cell_at_cases b x y :
  grid_shape (board_size b) (cells b) →
  (- board_size b ≤ x < board_size b ∧ - board_size b ≤ y < board_size b ∧
   ∃ c, cell_at x y b = (Val c, b) ∧
        grid_at (cells b) (wrap (board_size b) x) (wrap (board_size b) y) = Some c)
  ∨ (¬ (- board_size b ≤ x < board_size b ∧ - board_size b ≤ y < board_size b) ∧
     cell_at x y b = (Raise IndexError, b)).
Proof.
  intros [Hlen Hrows]. unfold cell_at, grid_at.
  rewrite (bind_val get _ b b b) by done.
  destruct (getitem_cases (cells b) (board_size b) y Hlen)
    as [(Hy & row & Hget & Hrow)|[Hy Hget]].
  - rewrite (bind_val _ _ b row b) by (unfold lift; by rewrite Hget).
    rewrite Forall_forall in Hrows.
    assert (length row = Z.to_nat (board_size b)) as Hlr
      by (apply Hrows; by eapply list_elem_of_lookup_2).
    destruct (getitem_cases row (board_size b) x Hlr) as [(Hx & c & Hgetc & Hc)|[Hx Hgetc]].
    + left. repeat split; try lia. exists c. unfold lift. rewrite Hgetc, Hrow. done.
    + right. split; [lia|]. unfold lift. by rewrite Hgetc.
  - right. split; [lia|]. by rewrite (bind_raise _ _ b IndexError b) by (unfold lift; by rewrite Hget).
Qed.

Lemma wrap_in_bounds n x y :
  - n ≤ x < n → - n ≤ y < n → in_bounds n (wrap n x) (wrap n y).
Proof. unfold wrap, in_bounds. intros. repeat case_decide; lia. Qed.

Lemma wrap_id n x : 0 ≤ x → wrap n x = x.
Proof. unfold wrap. intros. by rewrite decide_True. Qed.

(** ** is_position_safe *)

Lemma is_position_safe_outside p b :
  ¬ in_bounds (board_size b) (pos_x p) (pos_y p) → is_position_safe p b = (Val false, b).
Proof.
  intros Hout. unfold is_position_safe. rewrite (bind_val get _ b b b) by done.
  destruct (bool_decide (0 ≤ pos_x p < board_size b)
            && bool_decide (0 ≤ pos_y p < board_size b)) eqn:Hb; [|done].
  apply andb_true_iff in Hb as [Hx%bool_decide_eq_true Hy%bool_decide_eq_true].
  by destruct Hout.
Qed.

Lemma is_position_empty_in_bounds b x y c :
  grid_shape (board_size b) (cells b) → in_bounds (board_size b) x y →
  grid_at (cells b) x y = Some c →
  is_position_empty x y b
  = (Val (match cell_piece c with None => true | Some _ => false end), b).
Proof.
  intros Hshape Hin Hc. unfold is_position_empty.
  destruct (cell_at_in_bounds b x y Hshape Hin) as (c' & Hrun & Hc').
  assert (c' = c) as -> by congruence.
  by rewrite (bind_val _ _ b c b).
Qed.

Lemma is_position_safe_in_bounds p b c :
  grid_shape (board_size b) (cells b) →
  in_bounds (board_size b) (pos_x p) (pos_y p) →
  grid_at (cells b) (pos_x p) (pos_y p) = Some c →
  is_position_safe p b
  = (Val (match cell_piece c with
          | None => negb (existsb (λ q, reaches q (pos_x p) (pos_y p)) (placed_pieces b))
          | Some _ => false
          end), b).
Proof.
  intros Hshape Hin Hc. unfold is_position_safe. rewrite (bind_val get _ b b b) by done.
  destruct Hin as [Hx Hy].
  rewrite (bool_decide_eq_true_2 _ Hx), (bool_decide_eq_true_2 _ Hy). simpl.
  rewrite (bind_val _ _ b _ b (is_position_empty_in_bounds b _ _ c Hshape (conj Hx Hy) Hc)).
  by destruct (cell_piece c).
Qed.

(** ** place_piece *)

(** Outside the board and outside the indices that Python wraps, the
    emptiness check raises before the safety predicate is asked. *)
Lemma place_piece_index_error p b :
  grid_shape (board_size b) (cells b) →
  ¬ (- board_size b ≤ pos_x p < board_size b ∧ - board_size b ≤ pos_y p < board_size b) →
  place_piece p b = (Raise IndexError, b).
Proof.
  intros Hshape Hout. unfold place_piece, is_position_empty.
  destruct (cell_at_cases b (pos_x p) (pos_y p) Hshape) as [(Hx & Hy & _)|[_ Hrun]]; [tauto|].
  rewrite (bind_raise _ _ b IndexError b); [done|].
  by rewrite (bind_raise _ _ b IndexError b).
Qed.

(** A negative index that Python wraps: the emptiness check reads another
    cell, and the bounds check of the safety predicate answers. *)
Lemma place_piece_wrapped p b :
  grid_shape (board_size b) (cells b) →
  - board_size b ≤ pos_x p < board_size b → - board_size b ≤ pos_y p < board_size b →
  pos_x p < 0 ∨ pos_y p < 0 →
  place_piece p b = (Val false, b).
Proof.
  intros Hshape Hx Hy Hneg. unfold place_piece, is_position_empty.
  destruct (cell_at_cases b (pos_x p) (pos_y p) Hshape)
    as [(_ & _ & c & Hrun & _)|[Hout _]]; [|tauto].
  rewrite (bind_val _ _ b (match cell_piece c with None => true | Some _ => false end) b)
    by (by rewrite (bind_val _ _ b c b)).
  destruct (cell_piece c); [done|]. simpl.
  rewrite (bind_val _ _ b false b); [done|].
  apply is_position_safe_outside. unfold in_bounds. lia.
Qed.

Lemma place_piece_occupied p b c q :
  grid_shape (board_size b) (cells b) →
  in_bounds (board_size b) (pos_x p) (pos_y p) →
  grid_at (cells b) (pos_x p) (pos_y p) = Some c → cell_piece c = Some q →
  place_piece p b = (Val false, b).
Proof.
  intros Hshape Hin Hc Hq. unfold place_piece.
  rewrite (bind_val _ _ b _ b (is_position_empty_in_bounds b _ _ c Hshape Hin Hc)).
  by rewrite Hq.
Qed.

Lemma place_piece_threatened p b c :
  grid_shape (board_size b) (cells b) →
  in_bounds (board_size b) (pos_x p) (pos_y p) →
  grid_at (cells b) (pos_x p) (pos_y p) = Some c → cell_piece c = None →
  existsb (λ q, reaches q (pos_x p) (pos_y p)) (placed_pieces b) = true →
  place_piece p b = (Val false, b).
Proof.
  intros Hshape Hin Hc Hq Hthreat. unfold place_piece.
  rewrite (bind_val _ _ b _ b (is_position_empty_in_bounds b _ _ c Hshape Hin Hc)).
  rewrite Hq. simpl.
  rewrite (bind_val _ _ b _ b (is_position_safe_in_bounds p b c Hshape Hin Hc)).
  by rewrite Hq, Hthreat.
Qed.


Lemma place_piece_success p b c :
  grid_shape (board_size b) (cells b) →
  in_bounds (board_size b) (pos_x p) (pos_y p) →
  grid_at (cells b) (pos_x p) (pos_y p) = Some c → cell_piece c = None →
  existsb (λ q, reaches q (pos_x p) (pos_y p)) (placed_pieces b) = false →
  ∃ g, place_piece p b = (Val true, mkBoard (board_size b) g (placed_pieces b ++ [p])) ∧
       grid_shape (board_size b) g ∧
       ∀ x y, in_bounds (board_size b) x y →
         grid_at g x y
         = regrid (pos_x p) (pos_y p) (Some p) (placed_pieces b ++ [p]) x y
             <$> grid_at (cells b) x y.
Proof.
  intros Hshape Hin Hc Hq Hsafe. unfold place_piece.
  rewrite (bind_val _ _ b _ b (is_position_empty_in_bounds b _ _ c Hshape Hin Hc)).
  rewrite Hq. simpl.
  rewrite (bind_val _ _ b _ b (is_position_safe_in_bounds p b c Hshape Hin Hc)).
  rewrite Hq, Hsafe. simpl.
  rewrite (bind_val _ _ b tt _ (cell_update_in_bounds _ b _ _ Hshape Hin)).
  rewrite (bind_val get _ _ _ _ eq_refl).
  rewrite (bind_val (put _) _ _ tt _ eq_refl).
  set (b1 := set_placed _ _).
  assert (grid_shape (board_size b1) (cells b1)) as Hshape1
    by (by apply grid_shape_alter).
  destruct (update_threatened_cells_spec b1 Hshape1) as (g & Hrun & Hg & Hflags).
  rewrite (bind_val _ _ _ tt _ Hrun).
  exists g. split; [done|]. split; [done|].
  intros x y Hxy. rewrite (Hflags x y Hxy). simpl.
  rewrite grid_at_alter by (unfold in_bounds in *; lia).
  unfold regrid. case_decide as Heq.
  - destruct Heq as [-> ->]. by rewrite Hc.
  - by destruct (grid_at (cells b) x y).
Qed.

(** ** The invariant *)

Lemma lookup_range n k : (k < Z.to_nat n)%nat → range n !! k = Some (Z.of_nat k).
Proof.
  intros Hk. unfold range. rewrite list_lookup_fmap, lookup_seq_lt by done. done.
Qed.

Lemma length_range n : length (range n) = Z.to_nat n.
Proof. unfold range. by rewrite length_fmap, length_seq. Qed.

Lemma ChessBoard_init_shape n : grid_shape n (cells (ChessBoard_init n)).
Proof.
  split; simpl.
  - by rewrite length_fmap, length_range.
  - rewrite Forall_fmap. apply Forall_forall. intros y _. simpl.
    by rewrite length_fmap, length_range.
Qed.

Lemma ChessBoard_init_at n x y :
  in_bounds n x y → grid_at (cells (ChessBoard_init n)) x y = Some (mkCell x y None false).
Proof.
  intros [Hx Hy]. unfold grid_at. simpl.
  rewrite list_lookup_fmap, lookup_range by lia. simpl.
  rewrite list_lookup_fmap, lookup_range by lia. simpl.
  by rewrite !Z2Nat.id by lia.
Qed.

Lemma ChessBoard_init_ok n : board_ok (ChessBoard_init n).
Proof.
  split.
  - apply ChessBoard_init_shape.
  - intros x y c Hin. rewrite ChessBoard_init_at by done. by intros [= <-].
  - intros x y c q Hin. rewrite ChessBoard_init_at by done. intros [= <-]. simpl.
    split; [done|]. intros [Hq _]. by apply elem_of_nil in Hq.
  - intros x y c Hin. rewrite ChessBoard_init_at by done. by intros [= <-].
  - intros q Hq. by apply elem_of_nil in Hq.
  - simpl. constructor.
Qed.

Lemma ChessBoard_init_inv n : board_inv (ChessBoard_init n).
Proof. split; [apply ChessBoard_init_ok|simpl; constructor]. Qed.

(** The invariant leaves no freedom: the size and the placed list fix the
    board. *)
Lemma board_ok_unique b b' :
  board_ok b → board_ok b' →
  board_size b = board_size b' → placed_pieces b = placed_pieces b' → b = b'.
Proof.
  intros Hb Hb' Hsize Hplaced.
  destruct b as [n g ps], b' as [n' g' ps']. simpl in *. subst n' ps'.
  f_equal. apply (grid_eq n); [apply (ok_shape _ Hb)|apply (ok_shape _ Hb')|].
  intros x y Hin.
  destruct (grid_at_is_Some n g x y (ok_shape _ Hb) Hin) as [c Hc].
  destruct (grid_at_is_Some n g' x y (ok_shape _ Hb') Hin) as [c' Hc'].
  rewrite Hc, Hc'. f_equal.
  destruct (ok_coords _ Hb x y c Hin Hc) as [Hx Hy].
  destruct (ok_coords _ Hb' x y c' Hin Hc') as [Hx' Hy'].
  pose proof (ok_flags _ Hb x y c Hin Hc) as Hf.
  pose proof (ok_flags _ Hb' x y c' Hin Hc') as Hf'.
  pose proof (λ q, ok_piece _ Hb x y c q Hin Hc) as Hp.
  pose proof (λ q, ok_piece _ Hb' x y c' q Hin Hc') as Hp'.
  destruct c as [cx cy o t], c' as [cx' cy' o' t']. simpl in *. subst.
  f_equal.
  destruct o as [q|], o' as [q'|]; try done.
  - symmetry. by apply (Hp' q), (Hp q).
  - exfalso. assert (None = Some q) as Habs by (by apply (Hp' q), (Hp q)). done.
  - exfalso. assert (None = Some q') as Habs by (by apply (Hp q'), (Hp' q')). done.
Qed.

(** A grid rebuilt by [regrid] around one cell satisfies the invariant for
    the new placed list, when the list changed at that cell only. *)
Lemma board_ok_regrid b g x0 y0 o ps :
  board_ok b → grid_shape (board_size b) g →
  (∀ x y, in_bounds (board_size b) x y →
     grid_at g x y = regrid x0 y0 o ps x y <$> grid_at (cells b) x y) →
  (∀ q, ¬ (pos_x q = x0 ∧ pos_y q = y0) → q ∈ ps ↔ q ∈ placed_pieces b) →
  (∀ q, o = Some q ↔ q ∈ ps ∧ pos_x q = x0 ∧ pos_y q = y0) →
  (∀ q, q ∈ ps → in_bounds (board_size b) (pos_x q) (pos_y q)) →
  NoDup (coordinates_of ps) →
  board_ok (mkBoard (board_size b) g ps).
Proof.
  intros Hb Hg Hat Hothers Hcell Hinside Hnodup. split; simpl; try done.
  - intros x y c Hin. rewrite (Hat x y Hin).
    destruct (grid_at (cells b) x y) as [c0|] eqn:Hc0; [|done].
    intros [= <-]. simpl. by apply (ok_coords _ Hb).
  - intros x y c q Hin. rewrite (Hat x y Hin).
    destruct (grid_at (cells b) x y) as [c0|] eqn:Hc0; [|done].
    intros [= <-]. unfold regrid. simpl. case_decide as Heq.
    + destruct Heq as [-> ->]. apply Hcell.
    + rewrite (ok_piece _ Hb x y c0 q Hin Hc0). split.
      * intros (Hq & <- & <-). split; [|done]. by apply Hothers.
      * intros (Hq & <- & <-). split; [|done]. by apply Hothers.
  - intros x y c Hin. rewrite (Hat x y Hin).
    destruct (grid_at (cells b) x y) as [c0|] eqn:Hc0; [|done].
    by intros [= <-].
Qed.

Lemma coordinates_of_app ps qs :
  coordinates_of (ps ++ qs) = coordinates_of ps ++ coordinates_of qs.
Proof. apply fmap_app. Qed.

Lemma elem_of_coordinates_of ps x y :
  (x, y) ∈ coordinates_of ps ↔ ∃ q, q ∈ ps ∧ pos_x q = x ∧ pos_y q = y.
Proof.
  unfold coordinates_of. rewrite list_elem_of_fmap. split.
  - intros (q & [= -> ->] & Hq). eauto.
  - intros (q & Hq & <- & <-). eauto.
Qed.

(** *** place_piece keeps it *)

Lemma place_piece_ok p b c :
  board_ok b →
  in_bounds (board_size b) (pos_x p) (pos_y p) →
  grid_at (cells b) (pos_x p) (pos_y p) = Some c → cell_piece c = None →
  existsb (λ q, reaches q (pos_x p) (pos_y p)) (placed_pieces b) = false →
  ∃ b', place_piece p b = (Val true, b') ∧ board_ok b' ∧
        board_size b' = board_size b ∧ placed_pieces b' = placed_pieces b ++ [p].
Proof.
  intros Hb Hin Hc Hempty Hsafe.
  destruct (place_piece_success p b c (ok_shape _ Hb) Hin Hc Hempty Hsafe)
    as (g & Hrun & Hg & Hat).
  eexists. split; [exact Hrun|]. split; [|done].
  assert (∀ q, q ∈ placed_pieces b → ¬ (pos_x q = pos_x p ∧ pos_y q = pos_y p)) as Hfree.
  { intros q Hq [Hx Hy].
    assert (cell_piece c = Some q) as Habs by (by apply (ok_piece _ Hb _ _ c q Hin Hc)).
    congruence. }
  eapply board_ok_regrid; try done.
  - intros q Hq. rewrite elem_of_app, list_elem_of_singleton. split; [|tauto].
    intros [?| ->]; [done|tauto].
  - intros q. rewrite elem_of_app, list_elem_of_singleton. split.
    + intros [= <-]. tauto.
    + intros ([Hq| ->] & Hx & Hy); [|done]. by destruct (Hfree q Hq).
  - intros q. rewrite elem_of_app, list_elem_of_singleton.
    intros [Hq| ->]; [by apply (ok_inside _ Hb)|done].
  - rewrite coordinates_of_app. apply NoDup_app. split; [apply (ok_nodup _ Hb)|].
    split; [|apply NoDup_singleton].
    intros [x y] Hxy Hp. apply list_elem_of_singleton in Hp as [= -> ->].
    apply elem_of_coordinates_of in Hxy as (q & Hq & Hx & Hy). by destruct (Hfree q Hq).
Qed.

Lemma reaches_threatens q x y : reaches q x y = threatens (pos_x q, pos_y q) (x, y).
Proof. reflexivity. Qed.

Lemma no_conflict_unthreatened ps x y :
  (∀ q, q ∈ ps → ¬ (pos_x q = x ∧ pos_y q = y)) →
  forallb (λ d, negb (conflict d (x, y))) (coordinates_of ps)
  = negb (existsb (λ q, reaches q x y) ps).
Proof.
  induction ps as [|q ps IH]; intros Hfree; [done|].
  simpl. rewrite IH by (intros q' Hq'; apply Hfree; by right).
  rewrite negb_orb. f_equal. unfold conflict.
  rewrite bool_decide_eq_false_2; [done|].
  intros [= Hx Hy]. apply (Hfree q); [by left|done].
Qed.

(** On a board that satisfies the invariant, [safe_addition] is the value
    of the safety predicate. *)
Lemma safe_addition_cell b x y c :
  board_ok b → in_bounds (board_size b) x y → grid_at (cells b) x y = Some c →
  safe_addition (board_size b) (coordinates_of (placed_pieces b)) (x, y)
  = match cell_piece c with
    | None => negb (existsb (λ q, reaches q x y) (placed_pieces b))
    | Some _ => false
    end.
Proof.
  intros Hb Hin Hc. unfold safe_addition. simpl.
  destruct Hin as [Hx Hy].
  rewrite (bool_decide_eq_true_2 _ Hx), (bool_decide_eq_true_2 _ Hy). simpl.
  destruct (cell_piece c) as [q|] eqn:Hq.
  - apply (ok_piece _ Hb x y c q (conj Hx Hy) Hc) in Hq as (Hq & Hqx & Hqy).
    apply not_true_is_false. intros Hall.
    rewrite forallb_forall in Hall.
    specialize (Hall (x, y)). rewrite <- list_elem_of_In in Hall.
    rewrite elem_of_coordinates_of in Hall.
    unfold conflict in Hall. rewrite bool_decide_eq_true_2 in Hall by done.
    simpl in Hall. discriminate Hall. eauto.
  - apply no_conflict_unthreatened. intros q Hq' [Hqx Hqy].
    assert (cell_piece c = Some q) as Habs
      by (by apply (ok_piece _ Hb x y c q (conj Hx Hy) Hc)).
    congruence.
Qed.

Lemma safe_addition_in_bounds n placed c :
  safe_addition n placed c = true → in_bounds n c.1 c.2.
Proof.
  unfold safe_addition. rewrite !andb_true_iff, !bool_decide_eq_true.
  by intros [[Hx Hy] _].
Qed.

Lemma is_position_safe_ok p b :
  board_ok b →
  is_position_safe p b
  = (Val (safe_addition (board_size b) (coordinates_of (placed_pieces b)) (pos_x p, pos_y p)), b).
Proof.
  intros Hb.
  destruct (decide (in_bounds (board_size b) (pos_x p) (pos_y p))) as [Hin|Hout].
  - destruct (grid_at_is_Some _ _ _ _ (ok_shape _ Hb) Hin) as [c Hc].
    rewrite (is_position_safe_in_bounds p b c (ok_shape _ Hb) Hin Hc).
    by rewrite (safe_addition_cell b _ _ c Hb Hin Hc).
  - rewrite is_position_safe_outside by done.
    destruct (safe_addition _ _ _) eqn:Hs; [|done].
    by apply safe_addition_in_bounds in Hs.
Qed.

(** What [place_piece] does on a board that satisfies the invariant, for
    coordinates on the board. *)
Lemma place_piece_cases p b :
  board_ok b → in_bounds (board_size b) (pos_x p) (pos_y p) →
  (safe_addition (board_size b) (coordinates_of (placed_pieces b)) (pos_x p, pos_y p) = true ∧
   ∃ b', place_piece p b = (Val true, b') ∧ board_ok b' ∧
         board_size b' = board_size b ∧ placed_pieces b' = placed_pieces b ++ [p])
  ∨ (safe_addition (board_size b) (coordinates_of (placed_pieces b)) (pos_x p, pos_y p) = false ∧
     place_piece p b = (Val false, b)).
Proof.
  intros Hb Hin.
  destruct (grid_at_is_Some _ _ _ _ (ok_shape _ Hb) Hin) as [c Hc].
  rewrite (safe_addition_cell b _ _ c Hb Hin Hc).
  destruct (cell_piece c) as [q|] eqn:Hq.
  - right. split; [done|]. by eapply place_piece_occupied; [apply Hb|..].
  - destruct (existsb _ (placed_pieces b)) eqn:Hthreat.
    + right. split; [done|]. by eapply place_piece_threatened; [apply Hb|..].
    + left. split; [done|]. by eapply place_piece_ok.
Qed.

(** *** remove_piece keeps it *)

Lemma list_remove_split (p : ChessFigure) ps :
  p ∈ ps → (∀ q, q ∈ ps → oid q = oid p → q = p) →
  ∃ l1 l2, ps = l1 ++ p :: l2 ∧ list_remove same_object p ps = Some (l1 ++ l2).
Proof.
  induction ps as [|q ps IH]; intros Hp Hco; [by apply elem_of_nil in Hp|].
  simpl. unfold same_object at 1. case_bool_decide as Hoid.
  - assert (q = p) as -> by (apply Hco; [by left|done]).
    by exists [], ps.
  - apply elem_of_cons in Hp as [->|Hp]; [done|].
    destruct IH as (l1 & l2 & -> & Hrem); [done|intros q' Hq'; apply Hco; by right|].
    exists (q :: l1), l2. by rewrite Hrem.
Qed.

Lemma list_remove_fresh_last (p : ChessFigure) ps :
  (∀ q, q ∈ ps → oid q ≠ oid p) → list_remove same_object p (ps ++ [p]) = Some ps.
Proof.
  induction ps as [|q ps IH]; intros Hfresh; simpl.
  - unfold same_object. by rewrite bool_decide_eq_true_2.
  - unfold same_object at 1. rewrite bool_decide_eq_false_2 by (apply Hfresh; by left).
    rewrite IH; [done|]. intros q' Hq'. apply Hfresh. by right.
Qed.

Lemma remove_piece_placed p b l1 l2 :
  board_ok b → placed_pieces b = l1 ++ p :: l2 →
  list_remove same_object p (placed_pieces b) = Some (l1 ++ l2) →
  ∃ b', remove_piece p b = (Val tt, b') ∧ board_ok b' ∧
        board_size b' = board_size b ∧ placed_pieces b' = l1 ++ l2.
Proof.
  intros Hb Hsplit Hrem.
  assert (p ∈ placed_pieces b) as Hp by (rewrite Hsplit; set_solver).
  pose proof (ok_inside _ Hb p Hp) as Hin.
  destruct (cell_at_in_bounds b _ _ (ok_shape _ Hb) Hin) as (c & Hrun & Hc).
  assert (cell_piece c = Some p) as Hcp by (by apply (ok_piece _ Hb _ _ c p Hin Hc)).
  unfold remove_piece. rewrite (bind_val _ _ b c b Hrun). rewrite Hcp.
  unfold same_object at 1. rewrite bool_decide_eq_true_2 by done.
  rewrite (bind_val _ _ b tt _ (cell_update_in_bounds _ b _ _ (ok_shape _ Hb) Hin)).
  rewrite (bind_val get _ _ _ _ eq_refl). simpl placed_pieces. rewrite Hrem.
  rewrite (bind_val (put _) _ _ tt _ eq_refl).
  set (b1 := set_placed _ _).
  assert (grid_shape (board_size b1) (cells b1)) as Hshape1
    by (apply grid_shape_alter, Hb).
  destruct (update_threatened_cells_spec b1 Hshape1) as (g & Hrun1 & Hg & Hflags).
  rewrite Hrun1. eexists. split; [done|]. split; [|done].
  pose proof (ok_nodup _ Hb) as Hnodup. rewrite Hsplit in Hnodup.
  rewrite coordinates_of_app in Hnodup. simpl in Hnodup.
  apply NoDup_app in Hnodup as (Hnd1 & Hdisj & Hnd2).
  apply NoDup_cons in Hnd2 as [Hnotin2 Hnd2].
  assert ((pos_x p, pos_y p) ∉ coordinates_of l1) as Hnotin1.
  { intros Hin1. apply (Hdisj _ Hin1). by left. }
  assert (∀ q, q ∈ l1 ++ l2 → ¬ (pos_x q = pos_x p ∧ pos_y q = pos_y p)) as Hfree.
  { intros q Hq [Hx Hy]. apply elem_of_app in Hq as [Hq|Hq].
    - apply Hnotin1. apply elem_of_coordinates_of. eauto.
    - apply Hnotin2. apply elem_of_coordinates_of. eauto. }
  change (set_cells g b1) with (mkBoard (board_size b) g (l1 ++ l2)).
  eapply (board_ok_regrid b g (pos_x p) (pos_y p) None); try done.
  - intros x y Hxy. rewrite (Hflags x y Hxy). simpl.
    rewrite grid_at_alter by (unfold in_bounds in *; lia).
    unfold regrid. case_decide as Heq.
    + destruct Heq as [-> ->]. by rewrite Hc.
    + by destruct (grid_at (cells b) x y).
  - intros q Hne. rewrite Hsplit, !elem_of_app, elem_of_cons. split; [tauto|].
    intros [?|[Heq|?]]; [tauto| |tauto]. subst q. tauto.
  - intros q. split; [done|]. intros (Hq & Hx & Hy). by destruct (Hfree q Hq).
  - intros q Hq. apply (ok_inside _ Hb). rewrite Hsplit.
    rewrite elem_of_app, elem_of_cons. apply elem_of_app in Hq. tauto.
  - rewrite coordinates_of_app. apply NoDup_app. split; [done|]. split; [|done].
    intros c' H1 H2. apply (Hdisj c' H1). by right.
Qed.

(** *** On every call *)

Lemma place_piece_inv p b :
  board_inv b → coherent b p → board_inv (place_piece p b).2.
Proof.
  intros [Hb Hoids] Hco.
  destruct (decide (- board_size b ≤ pos_x p < board_size b
                    ∧ - board_size b ≤ pos_y p < board_size b)) as [[Hx Hy]|Hout].
  - destruct (decide (pos_x p < 0 ∨ pos_y p < 0)) as [Hneg|Hpos].
    + by rewrite (place_piece_wrapped p b (ok_shape _ Hb) Hx Hy Hneg).
    + assert (in_bounds (board_size b) (pos_x p) (pos_y p)) as Hin
        by (unfold in_bounds; lia).
      destruct (place_piece_cases p b Hb Hin)
        as [(Hsafe & b' & Hrun & Hb' & Hsize & Hplaced)|[_ Hrun]]; rewrite Hrun; [|done].
      split; [done|]. simpl. rewrite Hplaced, fmap_app. apply NoDup_app.
      split; [done|]. split; [|apply NoDup_singleton].
      intros o Ho Hp. apply list_elem_of_singleton in Hp as ->.
      apply list_elem_of_fmap in Ho as (q & Hoid & Hq).
      assert (q = p) as -> by (by apply Hco).
      destruct (grid_at_is_Some _ _ _ _ (ok_shape _ Hb) Hin) as [c Hc].
      rewrite (safe_addition_cell b _ _ c Hb Hin Hc) in Hsafe.
      assert (cell_piece c = Some p) as Hcp by (by apply (ok_piece _ Hb _ _ c p Hin Hc)).
      by rewrite Hcp in Hsafe.
  - by rewrite (place_piece_index_error p b (ok_shape _ Hb) Hout).
Qed.

Lemma remove_piece_inv p b :
  board_inv b → coherent b p → board_inv (remove_piece p b).2.
Proof.
  intros [Hb Hoids] Hco.
  destruct (cell_at_cases b (pos_x p) (pos_y p) (ok_shape _ Hb))
    as [(Hx & Hy & c & Hrun & Hc)|[_ Hrun]].
  - destruct (cell_piece c) as [q|] eqn:Hq.
    + destruct (same_object q p) eqn:Hsame.
      * apply (ok_piece _ Hb _ _ c q (wrap_in_bounds _ _ _ Hx Hy) Hc) in Hq as (Hq & _).
        assert (q = p) as -> by (apply Hco; [done|by apply bool_decide_eq_true in Hsame]).
        destruct (list_remove_split p (placed_pieces b) Hq Hco) as (l1 & l2 & Hsplit & Hrem).
        destruct (remove_piece_placed p b l1 l2 Hb Hsplit Hrem)
          as (b' & Hrun' & Hb' & Hsize & Hplaced).
        rewrite Hrun'. split; [done|]. simpl. rewrite Hplaced.
        rewrite Hsplit, fmap_app, fmap_cons in Hoids. rewrite fmap_app.
        apply NoDup_app in Hoids as (H1 & H2 & H3). apply NoDup_cons in H3 as [H3 H4].
        apply NoDup_app. split; [done|]. split; [|done].
        intros o Ho1 Ho2. apply (H2 o Ho1). by right.
      * unfold remove_piece. rewrite (bind_val _ _ b c b Hrun). by rewrite Hq, Hsame.
    + unfold remove_piece. rewrite (bind_val _ _ b c b Hrun). by rewrite Hq.
  - unfold remove_piece. by rewrite (bind_raise _ _ b IndexError b Hrun).
Qed.

Lemma reachable_board_inv b : reachable_board b → board_inv b.
Proof.
  induction 1 as [n|b p _ IH Hco|b p _ IH Hco].
  - apply ChessBoard_init_inv.
  - by apply place_piece_inv.
  - by apply remove_piece_inv.
Qed.

(** ** The search *)

Lemma on_board_run {A} (m : M ChessBoard A) e r b :
  m (chess_board e) = (r, b) → on_board m e = (r, mkEnv b (found_solutions e) (next_oid e)).
Proof. intros Hm. unfold on_board. by rewrite Hm. Qed.

Lemma env_ok_later e e1 :
  env_ok e → chess_board e1 = chess_board e → (next_oid e ≤ next_oid e1)%nat → env_ok e1.
Proof.
  intros [Hinv Hoids] Hb Hn. split; rewrite Hb; [done|].
  intros q Hq. specialize (Hoids q Hq). lia.
Qed.

Lemma completes_O_inv n placed final : completes n placed 0 final ↔ final = placed.
Proof. split; [by inversion 1|intros ->; constructor]. Qed.

Lemma completes_S_inv n placed l final :
  completes n placed (S l) final ↔
  ∃ c, safe_addition n placed c = true ∧ completes n (placed ++ [c]) l final.
Proof.
  split; [inversion 1; subst; eauto|]. intros (c & Hc & Hrest). by econstructor.
Qed.

Lemma record_solution_searched e :
  ∃ e', record_solution e = (Val tt, e') ∧ searched 0 e e'.
Proof.
  eexists. split; [reflexivity|]. split; [done|]. split; [simpl; lia|].
  intros s. simpl. rewrite elem_of_union, elem_of_singleton. unfold solved.
  split.
  - intros [->|?]; [right|by left]. eexists. split; [constructor|done].
  - intros [?|(final & Hfinal%completes_O_inv & ->)]; [by right|left]. by subst.
Qed.

(** One candidate cell of the loop: the figure is created and placed, the
    rest of the search runs on the grown board, the figure is removed. *)
Lemma candidate_searched rest x y e :
  (∀ e0, env_ok e0 → ∃ e', recursive_solver rest e0 = (Val tt, e') ∧ searched (length rest) e0 e') →
  env_ok e → in_bounds (board_size (chess_board e)) x y →
  ∃ e', (new_piece ← new_ChessFigure x y;
         placed ← on_board (place_piece new_piece);
         if placed : bool
         then recursive_solver rest;; on_board (remove_piece new_piece)
         else mret tt) e = (Val tt, e') ∧
        chess_board e' = chess_board e ∧ (next_oid e ≤ next_oid e')%nat ∧
        ∀ s, s ∈ found_solutions e' ↔
             s ∈ found_solutions e
             ∨ (safe_addition (board_size (chess_board e))
                              (coordinates_of (placed_pieces (chess_board e))) (x, y) = true
                ∧ solved (board_size (chess_board e))
                         (coordinates_of (placed_pieces (chess_board e)) ++ [(x, y)])
                         (length rest) s).
Proof.
  intros IH [[Hb Hnodup] Hoids] Hin.
  destruct e as [b found next]. simpl in *.
  set (p := mkFigure next x y).
  rewrite (bind_val (new_ChessFigure x y) _ (mkEnv b found next) p
             (mkEnv b found (S next)) eq_refl).
  cbv beta.
  destruct (place_piece_cases p b Hb Hin)
    as [(Hsafe & b1 & Hrun & Hb1 & Hsize & Hplaced)|[Hunsafe Hrun]];
    change (pos_x p, pos_y p) with (x, y) in *.
  - rewrite (bind_val _ _ _ true _ (on_board_run _ (mkEnv b found (S next)) _ _ Hrun)). simpl.
    destruct (IH (mkEnv b1 found (S next))) as (e2 & Hrec & Hb2 & Hn2 & Hfound2).
    { split; [split; [done|]|unfold allocated]; simpl; rewrite Hplaced.
      - rewrite fmap_app. apply NoDup_app. split; [done|]. split; [|apply NoDup_singleton].
        intros o Ho Hp. apply list_elem_of_singleton in Hp as ->.
        apply list_elem_of_fmap in Ho as (q & Hoid & Hq). specialize (Hoids q Hq).
        simpl in Hoid. lia.
      - intros q [Hq| ->%list_elem_of_singleton]%elem_of_app; [|simpl; lia].
        specialize (Hoids q Hq). lia. }
    rewrite (bind_val _ _ _ tt _ Hrec). simpl in Hb2, Hn2, Hfound2.
    destruct (remove_piece_placed p b1 (placed_pieces b) [] Hb1 Hplaced)
      as (b3 & Hrem & Hb3 & Hsize3 & Hplaced3).
    { rewrite Hplaced, app_nil_r. apply list_remove_fresh_last.
      intros q Hq. specialize (Hoids q Hq). simpl. lia. }
    rewrite <- Hb2 in Hrem. rewrite (on_board_run _ _ _ _ Hrem).
    rewrite app_nil_r in Hplaced3.
    assert (b3 = b) as -> by (apply board_ok_unique; congruence).
    eexists. split; [done|]. simpl. split; [done|]. split; [lia|].
    intros s. rewrite Hfound2. rewrite Hsize, Hplaced, coordinates_of_app. simpl.
    rewrite Hsafe. tauto.
  - rewrite (bind_val _ _ _ false _ (on_board_run _ (mkEnv b found (S next)) _ _ Hrun)). simpl.
    eexists. split; [done|]. simpl. split; [done|]. split; [lia|].
    intros s. rewrite Hunsafe. split; [tauto|]. intros [?|[? _]]; done.
Qed.

Lemma recursive_solver_searched arr e :
  env_ok e → ∃ e', recursive_solver arr e = (Val tt, e') ∧ searched (length arr) e e'.
Proof.
  revert e. induction arr as [|a rest IH]; intros e Hok.
  - apply record_solution_searched.
  - simpl recursive_solver.
    rewrite (bind_val _ _ e (board_size (chess_board e)) e) by (by destruct e).
    set (n := board_size (chess_board e)).
    set (placed := coordinates_of (placed_pieces (chess_board e))).
    (* the solutions whose first addition is a cell that satisfies [P] *)
    set (I := λ (P : Z * Z → Prop) (e1 : Env),
      chess_board e1 = chess_board e ∧ (next_oid e ≤ next_oid e1)%nat ∧
      ∀ s, s ∈ found_solutions e1 ↔
           s ∈ found_solutions e
           ∨ ∃ c, P c ∧ safe_addition n placed c = true
                  ∧ solved n (placed ++ [c]) (length rest) s).
    match goal with |- context [for_each ?l ?body ?s] =>
      destruct (for_each_rule (λ ydone, I (λ c, c.2 ∈ ydone ∧ c.1 ∈ range n)) body l s)
        as (e' & Hrun & Hb' & Hn' & Hfound')
    end.
    { split; [done|]. split; [done|]. intros s. split; [by left|].
      intros [?|(c & [Hc _] & _)]; [done|]. by apply elem_of_nil in Hc. }
    { intros ydone y yrest e1 Hys (Hb1 & Hn1 & Hfound1).
      rewrite (bind_val _ _ e1 n e1) by (unfold n; rewrite <- Hb1; by destruct e1).
      match goal with |- context [for_each ?l ?body ?s] =>
        destruct (for_each_rule
                    (λ xdone, I (λ c, (c.2 ∈ ydone ∧ c.1 ∈ range n) ∨ (c.2 = y ∧ c.1 ∈ xdone)))
                    body l s)
          as (e2 & Hrun2 & Hb2 & Hn2 & Hfound2)
      end.
      - split; [done|]. split; [done|]. intros s. rewrite Hfound1.
        apply or_iff_compat_l. split.
        + intros (c & Hc & Hrest). exists c. tauto.
        + intros (c & [Hc|[_ Hc]] & Hrest); [by exists c|]. by apply elem_of_nil in Hc.
      - intros xdone x xrest e3 Hxs (Hb3 & Hn3 & Hfound3).
        assert (env_ok e3) as Hok3 by (by eapply env_ok_later).
        assert (in_bounds (board_size (chess_board e3)) x y) as Hin.
        { rewrite Hb3. split; apply elem_of_range; fold n.
          - rewrite Hxs, elem_of_app, elem_of_cons. tauto.
          - rewrite Hys, elem_of_app, elem_of_cons. tauto. }
        destruct (candidate_searched rest x y e3 IH Hok3 Hin)
          as (e4 & Hrun4 & Hb4 & Hn4 & Hfound4).
        exists e4. split; [exact Hrun4|]. split; [congruence|]. split; [lia|].
        intros s. rewrite Hfound4, Hfound3, Hb3. fold n placed. split.
        + intros [[?|(c & Hc & Hrest)]|[Hsafe Hsol]].
          * by left.
          * right. exists c. split; [|done]. rewrite elem_of_app. tauto.
          * right. exists (x, y). split; [|done]. right. simpl. split; [done|].
            rewrite elem_of_app, list_elem_of_singleton. tauto.
        + intros [?|(c & [Hc|[Hcy Hcx]] & Hsafe & Hsol)].
          * by left; left.
          * left. right. exists c. tauto.
          * apply elem_of_app in Hcx as [Hcx|Hcx%list_elem_of_singleton].
            -- left. right. exists c. tauto.
            -- right. destruct c as [cx cy]. simpl in *. by subst.
      - exists e2. split; [exact Hrun2|]. split; [done|]. split; [done|].
        intros s. rewrite Hfound2. apply or_iff_compat_l. split.
        + intros (c & [[Hcy Hcx]|[Hcy Hcx]] & Hrest); exists c; (split; [|done]);
            rewrite elem_of_app, list_elem_of_singleton; tauto.
        + intros (c & [Hcy Hcx] & Hrest). exists c. split; [|done].
          apply elem_of_app in Hcy as [?|?%list_elem_of_singleton]; tauto. }
    exists e'. split; [exact Hrun|]. split; [done|]. split; [done|].
    intros s. rewrite Hfound'. apply or_iff_compat_l. fold n placed. unfold solved at 2.
    setoid_rewrite completes_S_inv. split.
    + intros (c & _ & Hsafe & final & Hfinal & ->). eauto 6.
    + intros (final & (c & Hsafe & Hfinal) & ->). exists c.
      pose proof (safe_addition_in_bounds _ _ _ Hsafe) as [Hx Hy].
      rewrite !elem_of_range. unfold solved. eauto 8.
Qed.

Lemma find_solutions_searched board arr e :
  board_inv board → allocated (next_oid e) board →
  ∃ e', find_solutions board [arr] e = (Val tt, e') ∧
        searched (length arr) (mkEnv board (found_solutions e) (next_oid e)) e'.
Proof.
  intros Hinv Halloc.
  destruct (recursive_solver_searched arr (mkEnv board (found_solutions e) (next_oid e)))
    as (e' & Hrun & Hs); [done|].
  exists e'. split; [|done]. unfold find_solutions.
  rewrite (bind_val get _ e e e eq_refl).
  rewrite (bind_val (put _) _ e tt _ eq_refl). simpl.
  by rewrite (bind_val _ _ _ tt _ Hrun).
Qed.

(** ** Additions, on coordinates and on boards *)

Lemma grows_completes b l b' :
  board_ok b → grows b l b' →
  completes (board_size b) (coordinates_of (placed_pieces b)) l
            (coordinates_of (placed_pieces b')).
Proof.
  intros Hb Hgrows. induction Hgrows as [b|b p b1 l b' Hsafe Hplace _ IH]; [constructor|].
  rewrite (is_position_safe_ok p b Hb) in Hsafe. injection Hsafe as Hsafe.
  pose proof (safe_addition_in_bounds _ _ _ Hsafe) as Hin.
  destruct (place_piece_cases p b Hb Hin)
    as [(_ & b2 & Hrun & Hb2 & Hsize & Hplaced)|[_ Hrun]]; [|congruence].
  assert (b2 = b1) as -> by congruence.
  econstructor; [exact Hsafe|].
  specialize (IH Hb2). by rewrite Hsize, Hplaced, coordinates_of_app in IH.
Qed.

Lemma completes_grows l : ∀ b final,
  board_ok b →
  completes (board_size b) (coordinates_of (placed_pieces b)) l final →
  ∃ b', grows b l b' ∧ coordinates_of (placed_pieces b') = final.
Proof.
  induction l as [|l IH]; intros b final Hb Hc.
  - apply completes_O_inv in Hc as ->. exists b. split; [constructor|done].
  - apply completes_S_inv in Hc as ([x y] & Hsafe & Hrest).
    set (p := mkFigure 0 x y).
    pose proof (safe_addition_in_bounds _ _ _ Hsafe) as Hin.
    destruct (place_piece_cases p b Hb Hin)
      as [(_ & b1 & Hrun & Hb1 & Hsize & Hplaced)|[Hunsafe _]];
      [|simpl in Hunsafe; congruence].
    destruct (IH b1 final Hb1) as (b' & Hgrows & Hfinal).
    { by rewrite Hsize, Hplaced, coordinates_of_app. }
    exists b'. split; [|done]. econstructor; [|exact Hrun|exact Hgrows].
    by rewrite (is_position_safe_ok p b Hb), <- Hsafe.
Qed.

Lemma solved_grows b l s :
  board_ok b →
  solved (board_size b) (coordinates_of (placed_pieces b)) l s ↔
  ∃ b', grows b l b' ∧ s = list_to_set (coordinates_of (placed_pieces b')).
Proof.
  intros Hb. split.
  - intros (final & Hc & ->).
    destruct (completes_grows l b final Hb Hc) as (b' & Hg & <-). eauto.
  - intros (b' & Hg & ->). eexists. split; [by apply grows_completes|done].
Qed.

Lemma completes_length n placed l final :
  completes n placed l final → length final = (length placed + l)%nat.
Proof.
  induction 1 as [|placed c l final _ _ IH]; [lia|].
  rewrite IH, length_app. simpl. lia.
Qed.

Lemma safe_addition_fresh n placed c : safe_addition n placed c = true → c ∉ placed.
Proof.
  unfold safe_addition. rewrite andb_true_iff. intros [_ Hall] Hc.
  rewrite forallb_forall in Hall. apply list_elem_of_In, Hall in Hc.
  unfold conflict in Hc. by rewrite bool_decide_eq_true_2 in Hc.
Qed.

Lemma completes_NoDup n placed l final :
  completes n placed l final → NoDup placed → NoDup final.
Proof.
  induction 1 as [|placed c l final Hsafe _ IH]; [done|]. intros Hnd. apply IH.
  apply NoDup_app. split; [done|]. split; [|apply NoDup_singleton].
  intros d Hd ->%list_elem_of_singleton. by apply safe_addition_fresh in Hsafe.
Qed.

(** ** create_board *)

Lemma combinations_single {A} (a : A) r : combinations_with_replacement [a] r = [replicate r a].
Proof. induction r as [|r IH]; [done|]. simpl. by rewrite IH. Qed.

Lemma placement_options_run l e :
  0 ≤ l → placement_options l e = (Val [replicate (Z.to_nat l) " "%char], e).
Proof.
  intros Hl. unfold placement_options.
  rewrite bool_decide_eq_false_2 by lia. by rewrite combinations_single.
Qed.

Lemma on_local_run {A} (m : M ChessBoard A) board e a board' :
  m board = (Val a, board') → on_local board m e = (Val (a, board'), e).
Proof. intros Hm. unfold on_local. by rewrite Hm. Qed.

Lemma seed_board_spec initial_pieces : ∀ board e,
  board_inv board → allocated (next_oid e) board →
  (∀ c, c ∈ initial_pieces → in_bounds (board_size board) c.1 c.2) →
  ∃ board' next,
    seed_board board initial_pieces e
    = (Val board', mkEnv (chess_board e) (found_solutions e) next) ∧
    board_inv board' ∧ allocated next board' ∧
    board_size board' = board_size board ∧
    coordinates_of (placed_pieces board')
    = foldl (keep (board_size board)) (coordinates_of (placed_pieces board)) initial_pieces.
Proof.
  induction initial_pieces as [|[x y] rest IH]; intros board e Hinv Hoids Hin.
  - exists board, (next_oid e). by destruct e.
  - simpl seed_board.
    set (p := mkFigure (next_oid e) x y).
    set (e1 := mkEnv (chess_board e) (found_solutions e) (S (next_oid e))).
    rewrite (bind_val (new_ChessFigure x y) _ e p e1 eq_refl). cbv beta.
    assert (in_bounds (board_size board) (pos_x p) (pos_y p)) as Hp
      by (apply (Hin (x, y)); by left).
    destruct Hinv as [Hb Hnodup].
    destruct (place_piece_cases p board Hb Hp)
      as [(Hsafe & b1 & Hrun & Hb1 & Hsize & Hplaced)|[Hunsafe Hrun]];
      change (pos_x p, pos_y p) with (x, y) in *;
      rewrite (bind_val _ _ e1 _ e1 (on_local_run _ _ _ _ _ Hrun)); cbn [snd].
    + destruct (IH b1 e1) as (board' & next & Hseed & Hinv' & Hoids' & Hsize' & Hcoords).
      { split; [done|]. rewrite Hplaced, fmap_app. apply NoDup_app.
        split; [done|]. split; [|apply NoDup_singleton].
        intros o Ho ->%list_elem_of_singleton.
        apply list_elem_of_fmap in Ho as (q & Hoid & Hq). specialize (Hoids q Hq).
        simpl in Hoid. lia. }
      { unfold allocated. rewrite Hplaced.
        intros q [Hq| ->%list_elem_of_singleton]%elem_of_app; simpl; [|lia].
        specialize (Hoids q Hq). lia. }
      { rewrite Hsize. intros c Hc. apply Hin. by right. }
      exists board', next. split; [exact Hseed|]. split; [done|]. split; [done|].
      split; [congruence|]. rewrite Hcoords, Hsize, Hplaced, coordinates_of_app. simpl.
      replace (keep (board_size board) (coordinates_of (placed_pieces board)) (x, y))
        with (coordinates_of (placed_pieces board) ++ [(x, y)]); [done|].
      unfold keep. by rewrite Hsafe.
    + destruct (IH board e1) as (board' & next & Hseed & Hinv' & Hoids' & Hsize' & Hcoords).
      { done. }
      { intros q Hq. specialize (Hoids q Hq). simpl. lia. }
      { intros c Hc. apply Hin. by right. }
      exists board', next. split; [exact Hseed|]. split; [done|]. split; [done|].
      split; [done|]. rewrite Hcoords. simpl.
      replace (keep (board_size board) (coordinates_of (placed_pieces board)) (x, y))
        with (coordinates_of (placed_pieces board)); [done|].
      unfold keep. by rewrite Hunsafe.
Qed.

Lemma create_board_spec n l k initial_pieces e :
  0 ≤ l → (∀ c, c ∈ initial_pieces → in_bounds n c.1 c.2) →
  ∃ board next,
    create_board n l k initial_pieces e
    = (Val (board, [replicate (Z.to_nat l) " "%char]),
       mkEnv (chess_board e) (found_solutions e) next) ∧
    board_inv board ∧ allocated next board ∧
    board_size board = n ∧
    coordinates_of (placed_pieces board)
    = if bool_decide (k > 0) then seeded n initial_pieces else [].
Proof.
  intros Hl Hin. unfold create_board. case_bool_decide as Hk.
  - destruct (seed_board_spec initial_pieces (ChessBoard_init n) e)
      as (board & next & Hseed & Hinv & Hoids & Hsize & Hcoords).
    { apply ChessBoard_init_inv. }
    { intros q Hq. by apply elem_of_nil in Hq. }
    { done. }
    exists board, next. rewrite (bind_val _ _ e _ _ Hseed).
    rewrite (bind_val _ _ _ _ _ (placement_options_run l _ Hl)).
    split; [done|]. split; [done|]. split; [done|]. split; [done|]. exact Hcoords.
  - exists (ChessBoard_init n), (next_oid e).
    rewrite (bind_val _ _ e (ChessBoard_init n) e eq_refl).
    rewrite (bind_val _ _ _ _ _ (placement_options_run l _ Hl)).
    split; [by destruct e|]. split; [apply ChessBoard_init_inv|].
    split; [|done]. intros q Hq. by apply elem_of_nil in Hq.
Qed.

(** ** The threat pattern *)

Lemma threatens_spec c d :
  threatens c d = true ↔
  (d.1 = c.1 ∧ (d.2 = c.2 - 1 ∨ d.2 = c.2 + 1 ∨ d.2 = c.2 - 2 ∨ d.2 = c.2 + 2))
  ∨ (d.2 = c.2 ∧ (d.1 = c.1 - 1 ∨ d.1 = c.1 + 1 ∨ d.1 = c.1 - 2 ∨ d.1 = c.1 + 2)).
Proof.
  unfold threatens, reaches, possible_moves. simpl.
  rewrite !orb_true_iff, !andb_true_iff, !bool_decide_eq_true. lia.
Qed.

Lemma threatens_sym c d : threatens c d = threatens d c.
Proof. apply eq_true_iff_eq. rewrite !threatens_spec. lia. Qed.

Lemma conflict_sym c d : conflict c d = conflict d c.
Proof.
  unfold conflict. rewrite (threatens_sym c d). f_equal.
  apply bool_decide_ext. split; by intros ->.
Qed.

(** ** The check of the dialog *)

Lemma forallb_pointwise {A} (f g : A → bool) l :
  (∀ a, f a = g a) → forallb f l = forallb g l.
Proof. intros Hfg. induction l as [|a l IH]; [done|]. simpl. by rewrite Hfg, IH. Qed.

Lemma forallb_false_elem {A} (f : A → bool) l :
  forallb f l = false → ∃ a, a ∈ l ∧ f a = false.
Proof.
  induction l as [|a l IH]; [done|]. simpl. destruct (f a) eqn:Ha.
  - intros (b & Hb & Hfb)%IH. exists b. split; [by right|done].
  - intros _. exists a. split; [by left|done].
Qed.

Lemma forallb_andb {A} (f g : A → bool) l :
  forallb (λ a, f a && g a) l = forallb f l && forallb g l.
Proof.
  induction l as [|a l IH]; [done|]. simpl. rewrite IH.
  destruct (f a), (g a), (forallb f l); done.
Qed.

Lemma safe_addition_inside n kept c :
  in_bounds n c.1 c.2 →
  safe_addition n kept c = forallb (λ d, negb (conflict d c)) kept.
Proof.
  intros [Hx Hy]. unfold safe_addition.
  by rewrite (bool_decide_eq_true_2 _ Hx), (bool_decide_eq_true_2 _ Hy).
Qed.

Lemma check_positions_spec positions : ∀ temp_board e,
  board_ok temp_board →
  (∀ c, c ∈ positions → in_bounds (board_size temp_board) c.1 c.2) →
  ∃ next,
    check_positions temp_board positions e
    = (Val (forallb (λ c, forallb (λ d, negb (conflict d c))
                                  (coordinates_of (placed_pieces temp_board))) positions
            && mutually_safe positions),
       mkEnv (chess_board e) (found_solutions e) next).
Proof.
  induction positions as [|[x y] rest IH]; intros tb e Hb Hin.
  - exists (next_oid e). by destruct e.
  - simpl check_positions.
    set (p := mkFigure (next_oid e) x y).
    set (e1 := mkEnv (chess_board e) (found_solutions e) (S (next_oid e))).
    rewrite (bind_val (new_ChessFigure x y) _ e p e1 eq_refl). cbv beta.
    assert (in_bounds (board_size tb) x y) as Hp by (apply (Hin (x, y)); by left).
    pose proof (safe_addition_inside (board_size tb)
                  (coordinates_of (placed_pieces tb)) (x, y) Hp) as Hsafe_eq.
    destruct (place_piece_cases p tb Hb Hp)
      as [(Hsafe & b1 & Hrun & Hb1 & Hsize & Hplaced)|[Hunsafe Hrun]];
      change (pos_x p, pos_y p) with (x, y) in *;
      rewrite (bind_val _ _ e1 _ e1 (on_local_run _ _ _ _ _ Hrun)); cbn [fst snd negb].
    + destruct (IH b1 e1 Hb1) as (next & Hrun').
      { rewrite Hsize. intros c Hc. apply Hin. by right. }
      exists next. rewrite Hrun'. f_equal. f_equal.
      rewrite Hplaced, coordinates_of_app. simpl.
      rewrite <- Hsafe_eq, Hsafe. simpl.
      rewrite (forallb_pointwise _ (λ c, forallb (λ d, negb (conflict d c))
                                           (coordinates_of (placed_pieces tb))
                                         && negb (conflict (x, y) c))).
      * rewrite forallb_andb. by rewrite andb_assoc.
      * intros c. rewrite forallb_app. simpl. by rewrite andb_true_r.
    + exists (S (next_oid e)). unfold mret, M_ret, ret. f_equal. f_equal. simpl.
      by rewrite <- Hsafe_eq, Hunsafe.
Qed.

Lemma _check_safety_spec pieces_positions board_size e :
  (∀ c, c ∈ pieces_positions → in_bounds board_size c.1 c.2) →
  ∃ next,
    _check_safety pieces_positions board_size e
    = (Val (mutually_safe pieces_positions),
       mkEnv (chess_board e) (found_solutions e) next).
Proof.
  intros Hin. unfold _check_safety.
  destruct (check_positions_spec pieces_positions (ChessBoard_init board_size) e)
    as (next & Hrun); [apply ChessBoard_init_ok|done|].
  exists next. rewrite Hrun. f_equal. f_equal. simpl.
  replace (forallb _ pieces_positions) with true; [done|].
  symmetry. apply forallb_forall. done.
Qed.

Lemma mutually_safe_false_iff l :
  mutually_safe l = false ↔
  ∃ i j c d, (i < j)%nat ∧ l !! i = Some c ∧ l !! j = Some d ∧ conflict c d = true.
Proof.
  induction l as [|c l IH]; simpl.
  - split; [done|]. by intros (i & j & c & d & _ & Hi & _).
  - rewrite andb_false_iff, IH. split.
    + intros [Hhead|(i & j & c' & d & Hij & Hi & Hj & Hcd)].
      * apply forallb_false_elem in Hhead as (d & Hd & Hcd).
        apply negb_false_iff in Hcd.
        apply list_elem_of_lookup in Hd as [j Hj].
        exists 0%nat, (S j), c, d. split; [lia|done].
      * exists (S i), (S j), c', d. split; [lia|done].
    + intros (i & j & c' & d & Hij & Hi & Hj & Hcd). destruct i as [|i].
      * left. simpl in Hi. injection Hi as ->. destruct j as [|j]; [lia|]. simpl in Hj.
        apply not_true_iff_false. intros Hall. rewrite forallb_forall in Hall.
        specialize (Hall d). rewrite <- list_elem_of_In in Hall.
        rewrite Hcd in Hall. discriminate Hall. by eapply list_elem_of_lookup_2.
      * right. destruct j as [|j]; [lia|]. exists i, j, c', d. split; [lia|done].
Qed.

(** [create_board] keeps pre-placed coordinates that are mutually safe. *)
Lemma foldl_keep_safe n l : ∀ kept,
  (∀ c, c ∈ l → in_bounds n c.1 c.2) →
  forallb (λ c, forallb (λ d, negb (conflict d c)) kept) l = true →
  mutually_safe l = true →
  foldl (keep n) kept l = kept ++ l.
Proof.
  induction l as [|c l IH]; intros kept Hin Hkept Hsafe; simpl.
  - by rewrite app_nil_r.
  - simpl in Hkept, Hsafe.
    apply andb_true_iff in Hkept as [Hc Hkept]. apply andb_true_iff in Hsafe as [Hcl Hsafe].
    unfold keep at 2. rewrite safe_addition_inside by (apply Hin; by left). rewrite Hc.
    rewrite IH; [by rewrite <- app_assoc|intros d Hd; apply Hin; by right| |done].
    rewrite (forallb_pointwise _ (λ d, forallb (λ d', negb (conflict d' d)) kept
                                       && negb (conflict c d)))
      by (intros d; rewrite forallb_app; simpl; by rewrite andb_true_r).
    rewrite forallb_andb. by rewrite Hkept, Hcl.
Qed.

Lemma seeded_safe n l :
  (∀ c, c ∈ l → in_bounds n c.1 c.2) → mutually_safe l = true → seeded n l = l.
Proof.
  intros Hin Hsafe. unfold seeded. rewrite foldl_keep_safe; try done.
  apply forallb_forall. done.
Qed.

(** ** The solutions only accumulate *)

Section accumulation.
Variable F : gset (gset (Z * Z)).

Lemma accumulates_ret {A} (a : A) : accumulates F (mret a).
Proof. by intros e1 e2 H. Qed.

Lemma accumulates_raise {A} ex : accumulates F (raise (A:=A) ex).
Proof. by intros e1 e2 H. Qed.

Lemma accumulates_bind {A B} (m : M Env A) (f : A → M Env B) :
  accumulates F m → (∀ a, accumulates F (f a)) → accumulates F (m ≫= f).
Proof.
  intros Hm Hf e1 e2 H. unfold mbind, M_bind, bind.
  destruct (Hm e1 e2 H) as [Hr Hs].
  destruct (m e1) as [[a1|x1] e1'], (m e2) as [[a2|x2] e2']; simpl in *; try done.
  - injection Hr as ->. by apply Hf.
  - injection Hr as ->. by split.
Qed.

Lemma accumulates_for_each {A} (l : list A) (body : A → M Env unit) :
  (∀ a, accumulates F (body a)) → accumulates F (for_each l body).
Proof.
  intros Hbody. induction l as [|a l IH]; simpl.
  - apply (accumulates_ret tt).
  - apply accumulates_bind; [apply Hbody|]. by intros _.
Qed.

Lemma accumulates_on_board {A} (m : M ChessBoard A) : accumulates F (on_board m).
Proof.
  intros e1 e2 (Hb & Hn & Hf). unfold on_board. rewrite Hb.
  by destruct (m (chess_board e2)).
Qed.

Lemma accumulates_on_local {A} board (m : M ChessBoard A) : accumulates F (on_local board m).
Proof.
  intros e1 e2 H. unfold on_local. by destruct (m board) as [[a|ex] b'].
Qed.

Lemma accumulates_new x y : accumulates F (new_ChessFigure x y).
Proof.
  intros e1 e2 (Hb & Hn & Hf). unfold new_ChessFigure. simpl. rewrite Hn.
  split; [done|]. split; [done|]. split; simpl; congruence.
Qed.

Lemma accumulates_record : accumulates F record_solution.
Proof.
  intros e1 e2 (Hb & Hn & Hf). split; [done|]. split; [done|]. split; [done|].
  simpl. rewrite Hb, Hf.
  by rewrite !(assoc_L (∪)), (comm_L (∪) _ F).
Qed.

Lemma accumulates_recursive_solver arr : accumulates F (recursive_solver arr).
Proof.
  induction arr as [|a rest IH]; simpl; [apply accumulates_record|].
  apply accumulates_bind; [apply accumulates_on_board|]. intros rows.
  apply accumulates_for_each. intros y.
  apply accumulates_bind; [apply accumulates_on_board|]. intros columns.
  apply accumulates_for_each. intros x.
  apply accumulates_bind; [apply accumulates_new|]. intros p.
  apply accumulates_bind; [apply accumulates_on_board|]. intros [].
  - apply accumulates_bind; [done|]. intros _. apply accumulates_on_board.
  - apply (accumulates_ret tt).
Qed.

Lemma accumulates_find_solutions board arrs : accumulates F (find_solutions board arrs).
Proof.
  intros e1 e2 (Hb & Hn & Hf). unfold find_solutions.
  rewrite (bind_val get _ e1 e1 e1 eq_refl), (bind_val get _ e2 e2 e2 eq_refl).
  rewrite (bind_val (put _) _ e1 tt _ eq_refl), (bind_val (put _) _ e2 tt _ eq_refl).
  apply accumulates_for_each; [apply accumulates_recursive_solver|].
  split; [done|]. split; [done|]. done.
Qed.

Lemma accumulates_seed_board initial_pieces : ∀ board,
  accumulates F (seed_board board initial_pieces).
Proof.
  induction initial_pieces as [|c rest IH]; intros board; simpl.
  - apply accumulates_ret.
  - apply accumulates_bind; [apply accumulates_new|]. intros p.
    apply accumulates_bind; [apply accumulates_on_local|]. intros r. apply IH.
Qed.

Lemma accumulates_create_board n l k initial_pieces :
  accumulates F (create_board n l k initial_pieces).
Proof.
  unfold create_board. apply accumulates_bind.
  - case_bool_decide; [apply accumulates_seed_board|apply accumulates_ret].
  - intros board. apply accumulates_bind.
    + unfold placement_options. case_bool_decide;
        [apply accumulates_raise|apply accumulates_ret].
    + intros options. apply accumulates_ret.
Qed.

Lemma accumulates_solve n l k initial_pieces : accumulates F (solve n l k initial_pieces).
Proof.
  unfold solve. apply accumulates_bind; [apply accumulates_create_board|].
  intros r. apply accumulates_find_solutions.
Qed.
End accumulation.

Lemma ahead_with_found e : ahead (found_solutions e) e (with_found ∅ e).
Proof. split; [done|]. split; [done|]. simpl. by rewrite union_empty_r_L. Qed.

(** A computation that accumulates leaves the solutions it found before,
    and adds those of the same run on a solver without solutions. *)
Lemma accumulates_union {A} (m : M Env A) e :
  (∀ F, accumulates F m) →
  (m e).1 = (m (with_found ∅ e)).1 ∧
  found_solutions (m e).2
  = found_solutions e ∪ found_solutions (m (with_found ∅ e)).2.
Proof.
  intros Hm. destruct (Hm _ e _ (ahead_with_found e)) as (Hr & _ & _ & Hf). done.
Qed.

(** ** save_results *)
















(** ** Concrete runs *)

(** Two sets of sets with the same enumeration are equal; the enumerations
    of concrete sets are computed. *)
Lemma gset_eq_elements `{Countable K} (S T : gset (gset K)) :
  elements <$> elements S = elements <$> elements T → S = T.
Proof.
  intros Heq.
  assert (∀ U : gset (gset K), U = list_to_set (list_to_set <$> (elements <$> elements U))) as Hrep.
  { intros U. rewrite <- list_fmap_compose.
    rewrite (list_fmap_ext (list_to_set ∘ elements) id (elements U)).
    - by rewrite list_fmap_id, list_to_set_elements_L.
    - intros i x _. simpl. apply list_to_set_elements_L. }
  by rewrite (Hrep S), (Hrep T), Heq.
Qed.

Lemma centre_run :
  found_solutions (solve 3 1 1 [(1, 1)] (ChessSolver_init 0)).2
  = {[ {[ (1, 1); (0, 0) ]}; {[ (1, 1); (0, 2) ]}; {[ (1, 1); (2, 0) ]}; {[ (1, 1); (2, 2) ]} ]}.
Proof. apply gset_eq_elements. vm_compute. reflexivity. Qed.


Lemma two_by_two_run :
  found_solutions (solve 2 2 0 [] (ChessSolver_init 0)).2
  = {[ {[ (0, 0); (1, 1) ]}; {[ (1, 0); (0, 1) ]} ]}.
Proof. apply gset_eq_elements. vm_compute. reflexivity. Qed.

Lemma existsb_elem_of {A} (f : A → bool) l :
  existsb f l = true ↔ ∃ a, a ∈ l ∧ f a = true.
Proof.
  rewrite existsb_exists. split; intros (a & Ha & Hf); exists a; split; try done;
    by apply list_elem_of_In.
Qed.

Lemma board_ok_named b : board_ok b → one_piece_per_cell b ∧ flags_consistent b.
Proof.
  intros Hb. split; [split; [apply Hb|apply (ok_piece _ Hb)]|].
  intros x y Hin. destruct (grid_at_is_Some _ _ _ _ (ok_shape _ Hb) Hin) as [c Hc].
  exists c. split; [done|]. rewrite (ok_flags _ Hb x y c Hin Hc). apply existsb_elem_of.
Qed.

Lemma centre_board_inv : board_inv centre_board.
Proof.
  apply place_piece_inv; [apply ChessBoard_init_inv|].
  intros q Hq. by apply elem_of_nil in Hq.
Qed.

Lemma centre_board_allocated : allocated 1 centre_board.
Proof.
  assert (placed_pieces centre_board = [mkFigure 0 1 1]) as Hp by (vm_compute; reflexivity).
  intros q. rewrite Hp. intros ->%list_elem_of_singleton. simpl. lia.
Qed.

(** ** The claims of the specification *)

(** C1. For every board that satisfies the invariant (any size, any safe
    pre-seeding) and every arrangement of [length arrangement] figures
    still to place, [find_solutions] returns and the solutions it adds are
    exactly the coordinate sets of the boards reached by that many
    additions, each made by a successful [place_piece] of a figure for which
    [is_position_safe] holds on the board of that moment.  For N = 3,
    L = 1 and the pre-placed figure at (1, 1), the recorded solutions are
    the centre with each of the four corners. *)
Theorem find_solutions_enumerates_safe_additions
    (board : ChessBoard) (arrangement : list ascii) (e : Env) :
  board_inv board → allocated (next_oid e) board →
  (∃ e', find_solutions board [arrangement] e = (Val tt, e') ∧
         chess_board e' = board ∧
         ∀ s, s ∈ found_solutions e' ↔
              s ∈ found_solutions e
              ∨ ∃ board', grows board (length arrangement) board'
                          ∧ s = list_to_set (coordinates_of (placed_pieces board')))
  ∧ found_solutions (solve 3 1 1 [(1, 1)] (ChessSolver_init 0)).2
    = {[ {[ (1, 1); (0, 0) ]}; {[ (1, 1); (0, 2) ]};
         {[ (1, 1); (2, 0) ]}; {[ (1, 1); (2, 2) ]} ]}.
Proof.
  intros Hinv Halloc. split; [|exact centre_run].
  destruct (find_solutions_searched board arrangement e Hinv Halloc)
    as (e' & Hrun & Hb & _ & Hfound).
  exists e'. split; [done|]. split; [done|]. intros s. rewrite Hfound. simpl.
  apply or_iff_compat_l. apply solved_grows, Hinv.
Qed.

Lemma find_solutions_enumerates_safe_additions_witness :
  board_inv centre_board ∧ allocated 1 centre_board ∧
  ((∃ e', find_solutions centre_board [[" "%char]] (ChessSolver_init 1) = (Val tt, e') ∧
          chess_board e' = centre_board ∧
          ∀ s, s ∈ found_solutions e' ↔
               s ∈ found_solutions (ChessSolver_init 1)
               ∨ ∃ board', grows centre_board 1 board'
                           ∧ s = list_to_set (coordinates_of (placed_pieces board')))
   ∧ found_solutions (solve 3 1 1 [(1, 1)] (ChessSolver_init 0)).2
     = {[ {[ (1, 1); (0, 0) ]}; {[ (1, 1); (0, 2) ]};
          {[ (1, 1); (2, 0) ]}; {[ (1, 1); (2, 2) ]} ]}).
Proof.
  split; [exact centre_board_inv|]. split; [exact centre_board_allocated|].
  exact (find_solutions_enumerates_safe_additions centre_board [" "%char] (ChessSolver_init 1)
           centre_board_inv centre_board_allocated).
Defined.

(** C2, counterexample.  The pre-placed coordinates (0, 0) and (0, 1)
    threaten each other, and [create_board] does not fail on them: it
    returns a board that holds (0, 0) alone, and the search runs on it and
    records solutions. *)
Lemma create_board_unsafe_pre_placement_not_rejected :
  mutually_safe [(0, 0); (0, 1)] = false ∧
  (∃ board next,
     create_board 3 1 2 [(0, 0); (0, 1)] (ChessSolver_init 0)
     = (Val (board, [[" "%char]]), mkEnv (ChessBoard_init 0) ∅ next) ∧
     coordinates_of (placed_pieces board) = [(0, 0)]) ∧
  (solve 3 1 2 [(0, 0); (0, 1)] (ChessSolver_init 0)).1 = Val tt ∧
  size (found_solutions (solve 3 1 2 [(0, 0); (0, 1)] (ChessSolver_init 0)).2) = 4%nat.
Proof.
  split; [reflexivity|]. split; [|split; vm_compute; reflexivity].
  destruct (create_board_spec 3 1 2 [(0, 0); (0, 1)] (ChessSolver_init 0))
    as (board & next & Hrun & _ & _ & _ & Hcoords); [lia| |].
  - intros c Hc. repeat (apply elem_of_cons in Hc as [->|Hc]); try (by vm_compute).
    by apply elem_of_nil in Hc.
  - exists board, next. split; [exact Hrun|]. rewrite Hcoords. reflexivity.
Qed.

Lemma reaches_offsets q x y :
  reaches q x y = true ↔ offsets_reach (possible_moves q) (pos_x q, pos_y q) (x, y).
Proof.
  unfold reaches, offsets_reach. rewrite existsb_exists. split.
  - intros ([dx dy] & Hin%list_elem_of_In & [Hx%bool_decide_eq_true Hy%bool_decide_eq_true]%andb_true_iff).
    by exists dx, dy.
  - intros (dx & dy & Hin & Hx & Hy). exists (dx, dy).
    split; [by apply list_elem_of_In|]. simpl in Hx, Hy.
    by rewrite andb_true_iff, !bool_decide_eq_true.
Qed.

Lemma offsets_reach_in_line q c d :
  offsets_reach (possible_moves q) c d ↔ in_line_within_two c d.
Proof.
  destruct c as [cx cy], d as [dx dy].
  rewrite <- (reaches_offsets (mkFigure 0 cx cy) dx dy).
  apply (threatens_spec (cx, cy) (dx, dy)).
Qed.

Lemma threatens_in_line c d : threatens c d = true ↔ in_line_within_two c d.
Proof. apply threatens_spec. Qed.

Lemma create_board_cases n l k initial_pieces e :
  (∀ c, c ∈ initial_pieces → in_bounds n c.1 c.2) →
  ∃ board next,
    create_board n l k initial_pieces e
    = (if bool_decide (l < 0) then Raise ValueError
       else Val (board, [replicate (Z.to_nat l) " "%char]),
       mkEnv (chess_board e) (found_solutions e) next) ∧
    board_inv board ∧ allocated next board ∧ board_size board = n ∧
    coordinates_of (placed_pieces board)
    = if bool_decide (k > 0) then seeded n initial_pieces else [].
Proof.
  intros Hin.
  assert (∃ board next,
            (if bool_decide (k > 0) then seed_board (ChessBoard_init n) initial_pieces
             else mret (ChessBoard_init n)) e
            = (Val board, mkEnv (chess_board e) (found_solutions e) next) ∧
            board_inv board ∧ allocated next board ∧ board_size board = n ∧
            coordinates_of (placed_pieces board)
            = if bool_decide (k > 0) then seeded n initial_pieces else [])
    as (board & next & Hseed & Hinv & Halloc & Hsize & Hcoords).
  { case_bool_decide as Hk.
    - destruct (seed_board_spec initial_pieces (ChessBoard_init n) e)
        as (board & next & Hseed & Hinv & Halloc & Hsize & Hcoords);
        [apply ChessBoard_init_inv| |done|].
      { intros q Hq. by apply elem_of_nil in Hq. }
      by exists board, next.
    - exists (ChessBoard_init n), (next_oid e). split; [by destruct e|].
      split; [apply ChessBoard_init_inv|]. split; [|done].
      intros q Hq. by apply elem_of_nil in Hq. }
  exists board, next. split; [|done].
  unfold create_board. rewrite (bind_val _ _ e _ _ Hseed).
  destruct (decide (l < 0)) as [Hl|Hl].
  - rewrite (bool_decide_eq_true_2 _ Hl). apply bind_raise.
    unfold placement_options. by rewrite bool_decide_eq_true_2.
  - rewrite (bool_decide_eq_false_2 _ Hl).
    by rewrite (bind_val _ _ _ _ _ (placement_options_run l _ ltac:(lia))).
Qed.

(** C2, amended.  For pre-placed coordinates that are on the board, the
    check of the dialog returns [False] exactly when two of them coincide
    or stand one or two cells apart in a column or a row, and works on a
    board of its own: the solver's board and solutions are as before.
    [create_board] raises no error for pre-placed figures: it seeds a board
    that satisfies the invariant and keeps the coordinates that were safe
    additions when their turn came (all of them when they are mutually
    safe, none unless [k > 0]); for [l ≥ 0] it returns that board and the
    search runs on it and returns, for [l < 0] it raises ValueError. *)
Theorem pre_placement_is_checked_by_the_dialog
    (pieces_positions : list (Z * Z)) (n l k : Z) (e : Env) :
  (∀ c, c ∈ pieces_positions → in_bounds n c.1 c.2) →
  (∃ next, _check_safety pieces_positions n e
           = (Val (mutually_safe pieces_positions),
              mkEnv (chess_board e) (found_solutions e) next))
  ∧ (mutually_safe pieces_positions = false ↔
     ∃ i j c d, (i < j)%nat ∧ pieces_positions !! i = Some c ∧ pieces_positions !! j = Some d
                ∧ (c = d ∨ in_line_within_two c d))
  ∧ (∃ board next,
       create_board n l k pieces_positions e
       = (if bool_decide (l < 0) then Raise ValueError
          else Val (board, [replicate (Z.to_nat l) " "%char]),
          mkEnv (chess_board e) (found_solutions e) next) ∧
       board_inv board ∧ board_size board = n ∧
       coordinates_of (placed_pieces board)
       = if bool_decide (k > 0) then seeded n pieces_positions else [])
  ∧ (mutually_safe pieces_positions = true → seeded n pieces_positions = pieces_positions)
  ∧ (solve n l k pieces_positions e).1
    = (if bool_decide (l < 0) then Raise ValueError else Val tt).
Proof.
  intros Hin. split; [by apply _check_safety_spec|]. split; [|split; [|split]].
  - rewrite mutually_safe_false_iff.
    split; intros (i & j & c & d & Hij & Hi & Hj & Hcd); exists i, j, c, d;
      (split; [done|]; split; [done|]; split; [done|]).
    + unfold conflict in Hcd. rewrite <- threatens_in_line.
      apply orb_true_iff in Hcd as [Heq%bool_decide_eq_true|Hthreat]; tauto.
    + unfold conflict. apply orb_true_iff. rewrite <- threatens_in_line in Hcd.
      destruct Hcd as [->|Hthreat]; [left; by apply bool_decide_eq_true|by right].
  - destruct (create_board_cases n l k pieces_positions e Hin)
      as (board & next & Hrun & Hinv & _ & Hsize & Hcoords).
    eauto 10.
  - by apply seeded_safe.
  - destruct (create_board_cases n l k pieces_positions e Hin)
      as (board & next & Hrun & Hinv & Halloc & _ & _).
    unfold solve. destruct (decide (l < 0)) as [Hl|Hl].
    + rewrite (bool_decide_eq_true_2 _ Hl) in *. by rewrite (bind_raise _ _ e _ _ Hrun).
    + rewrite (bool_decide_eq_false_2 _ Hl) in *. rewrite (bind_val _ _ e _ _ Hrun). cbn [fst snd]. unfold start_solving.
      destruct (find_solutions_searched board (replicate (Z.to_nat l) " "%char)
                  (mkEnv (chess_board e) (found_solutions e) next) Hinv Halloc)
        as (e' & Hfind & _).
      by rewrite Hfind.
Qed.

Lemma pre_placement_is_checked_by_the_dialog_witness :
  (∀ c, c ∈ [(0, 0); (0, 1)] → in_bounds 3 c.1 c.2) ∧
  ((∃ next, _check_safety [(0, 0); (0, 1)] 3 (ChessSolver_init 0)
            = (Val (mutually_safe [(0, 0); (0, 1)]),
               mkEnv (chess_board (ChessSolver_init 0))
                     (found_solutions (ChessSolver_init 0)) next))
   ∧ (mutually_safe [(0, 0); (0, 1)] = false ↔
      ∃ i j c d, (i < j)%nat ∧ [(0, 0); (0, 1)] !! i = Some c ∧ [(0, 0); (0, 1)] !! j = Some d
                 ∧ (c = d ∨ in_line_within_two c d))
   ∧ (∃ board next,
        create_board 3 1 2 [(0, 0); (0, 1)] (ChessSolver_init 0)
        = (if bool_decide (1 < 0) then Raise ValueError
           else Val (board, [replicate (Z.to_nat 1) " "%char]),
           mkEnv (chess_board (ChessSolver_init 0))
                 (found_solutions (ChessSolver_init 0)) next) ∧
        board_inv board ∧ board_size board = 3 ∧
        coordinates_of (placed_pieces board)
        = if bool_decide (2 > 0) then seeded 3 [(0, 0); (0, 1)] else [])
   ∧ (mutually_safe [(0, 0); (0, 1)] = true → seeded 3 [(0, 0); (0, 1)] = [(0, 0); (0, 1)])
   ∧ (solve 3 1 2 [(0, 0); (0, 1)] (ChessSolver_init 0)).1
     = (if bool_decide (1 < 0) then Raise ValueError else Val tt)).
Proof.
  assert (∀ c : Z * Z, c ∈ [(0, 0); (0, 1)] → in_bounds 3 c.1 c.2) as Hin.
  { intros c Hc. apply elem_of_cons in Hc as [->|Hc]; [unfold in_bounds; simpl; lia|].
    apply list_elem_of_singleton in Hc as ->. unfold in_bounds; simpl; lia. }
  split; [exact Hin|].
  exact (pre_placement_is_checked_by_the_dialog [(0, 0); (0, 1)] 3 1 2 (ChessSolver_init 0) Hin).
Defined.

(** What [place_piece] does for coordinates that index the grid: it
    follows the safety predicate.  When the predicate holds the figure is
    put in its cell and appended to the placed list, every flag is
    recomputed from the new list, and the result is [True]; otherwise the
    result is [False] and the board is as before. *)
Lemma place_piece_follows_is_position_safe p b :
  grid_shape (board_size b) (cells b) →
  - board_size b ≤ pos_x p < board_size b → - board_size b ≤ pos_y p < board_size b →
  ∃ safe, is_position_safe p b = (Val safe, b) ∧
    if safe
    then ∃ g, place_piece p b = (Val true, mkBoard (board_size b) g (placed_pieces b ++ [p])) ∧
              grid_shape (board_size b) g ∧
              ∀ x y, in_bounds (board_size b) x y →
                grid_at g x y
                = regrid (pos_x p) (pos_y p) (Some p) (placed_pieces b ++ [p]) x y
                    <$> grid_at (cells b) x y
    else place_piece p b = (Val false, b).
Proof.
  intros Hshape Hx Hy.
  destruct (decide (pos_x p < 0 ∨ pos_y p < 0)) as [Hneg|Hpos].
  - exists false. split; [|by apply place_piece_wrapped].
    apply is_position_safe_outside. unfold in_bounds. lia.
  - assert (in_bounds (board_size b) (pos_x p) (pos_y p)) as Hin by (unfold in_bounds; lia).
    destruct (grid_at_is_Some _ _ _ _ Hshape Hin) as [c Hc].
    rewrite (is_position_safe_in_bounds p b c Hshape Hin Hc). eexists. split; [done|].
    destruct (cell_piece c) as [q|] eqn:Hq; [by eapply place_piece_occupied|].
    destruct (existsb _ (placed_pieces b)) eqn:Hthreat; simpl.
    + by eapply place_piece_threatened.
    + by eapply place_piece_success.
Qed.

(** C3, at the failing input.  On the empty 3×3 board the figure at
    (3, 0) is out of bounds: the safety predicate returns [False] for it,
    and [place_piece] raises IndexError in its emptiness check instead of
    returning [False].  The board is unchanged. *)
Theorem place_piece_raises_out_of_bounds :
  is_position_safe (mkFigure 0 3 0) (ChessBoard_init 3) = (Val false, ChessBoard_init 3) ∧
  place_piece (mkFigure 0 3 0) (ChessBoard_init 3) = (Raise IndexError, ChessBoard_init 3).
Proof. split; vm_compute; reflexivity. Qed.

Lemma in_line_within_two_sym c d : in_line_within_two c d → in_line_within_two d c.
Proof. unfold in_line_within_two. lia. Qed.

(** C4. On a board whose grid has its shape, [is_position_safe] returns,
    changes nothing, and returns [False] exactly when the coordinate is out
    of bounds, or the cell is occupied, or the offset list of a placed
    figure reaches the coordinate, or the offset list of the candidate
    reaches the coordinate of a placed figure.  The offset list reaches
    the cells one or two steps away in the column or the row, a relation
    that is symmetric; and on the program: when a figure at P makes Q
    unsafe, a figure at Q makes P unsafe. *)
Theorem is_position_safe_decides (b : ChessBoard) (piece : ChessFigure) :
  grid_shape (board_size b) (cells b) →
  (∃ safe, is_position_safe piece b = (Val safe, b) ∧
     (safe = false ↔
        ¬ in_bounds (board_size b) (pos_x piece) (pos_y piece)
        ∨ occupied b (pos_x piece) (pos_y piece)
        ∨ (∃ q, q ∈ placed_pieces b ∧
                offsets_reach (possible_moves q) (pos_x q, pos_y q)
                              (pos_x piece, pos_y piece))
        ∨ (∃ q, q ∈ placed_pieces b ∧
                offsets_reach (possible_moves piece) (pos_x piece, pos_y piece)
                              (pos_x q, pos_y q))))
  ∧ (∀ q c d, offsets_reach (possible_moves q) c d ↔ in_line_within_two c d)
  ∧ (∀ P Q c d, offsets_reach (possible_moves P) c d → offsets_reach (possible_moves Q) d c)
  ∧ (∀ n P Q,
       in_bounds n (pos_x P) (pos_y P) → in_bounds n (pos_x Q) (pos_y Q) →
       (is_position_safe Q (place_piece P (ChessBoard_init n)).2).1 = Val false →
       (is_position_safe P (place_piece Q (ChessBoard_init n)).2).1 = Val false).
Proof.
  intros Hshape. split; [|split; [|split]].
  - assert (∀ q, offsets_reach (possible_moves piece) (pos_x piece, pos_y piece)
                   (pos_x q, pos_y q)
                 ↔ offsets_reach (possible_moves q) (pos_x q, pos_y q)
                     (pos_x piece, pos_y piece)) as Hsym.
    { intros q. rewrite !offsets_reach_in_line.
      split; apply in_line_within_two_sym. }
    destruct (decide (in_bounds (board_size b) (pos_x piece) (pos_y piece))) as [Hin|Hout].
    + destruct (grid_at_is_Some _ _ _ _ Hshape Hin) as [c Hc].
      rewrite (is_position_safe_in_bounds piece b c Hshape Hin Hc).
      eexists. split; [done|]. unfold occupied. rewrite Hc.
      destruct (cell_piece c) as [q|] eqn:Hq.
      * split; [|done]. intros _. right. left. eauto.
      * rewrite negb_false_iff, existsb_elem_of. split.
        -- intros (q & Hq' & Hr). right. right. left. exists q. split; [done|].
           by apply reaches_offsets.
        -- intros [?|[(c' & q & [= <-] & Hq')|[(q & Hq' & Hr)|(q & Hq' & Hr)]]];
             [done|congruence| |]; exists q; (split; [done|]); apply reaches_offsets;
             [done|by apply Hsym].
    + rewrite (is_position_safe_outside piece b Hout). eexists. split; [done|]. tauto.
  - intros q c d. apply offsets_reach_in_line.
  - intros P Q c d. rewrite !offsets_reach_in_line. apply in_line_within_two_sym.
  - intros n P Q HP HQ.
    assert (∀ A B, in_bounds n (pos_x A) (pos_y A) →
              is_position_safe B (place_piece A (ChessBoard_init n)).2
              = (Val (safe_addition n [(pos_x A, pos_y A)] (pos_x B, pos_y B)),
                 (place_piece A (ChessBoard_init n)).2)) as Hone.
    { intros A B HA.
      destruct (place_piece_cases A (ChessBoard_init n) (ChessBoard_init_ok n) HA)
        as [(_ & b' & Hrun & Hb' & Hsize & Hplaced)|[Hunsafe _]].
      - rewrite Hrun. simpl. rewrite (is_position_safe_ok B b' Hb'), Hsize, Hplaced. done.
      - unfold safe_addition in Hunsafe. simpl in Hunsafe. destruct HA as [Hx Hy].
        by rewrite (bool_decide_eq_true_2 _ Hx), (bool_decide_eq_true_2 _ Hy) in Hunsafe. }
    rewrite (Hone P Q HP), (Hone Q P HQ). simpl.
    rewrite !safe_addition_inside by done. simpl.
    by rewrite (conflict_sym (pos_x P, pos_y P)).
Qed.

Lemma is_position_safe_decides_witness :
  grid_shape (board_size centre_board) (cells centre_board) ∧
  ((∃ safe, is_position_safe (mkFigure 1 0 1) centre_board = (Val safe, centre_board) ∧
      (safe = false ↔
         ¬ in_bounds (board_size centre_board) 0 1
         ∨ occupied centre_board 0 1
         ∨ (∃ q, q ∈ placed_pieces centre_board ∧
                 offsets_reach (possible_moves q) (pos_x q, pos_y q) (0, 1))
         ∨ (∃ q, q ∈ placed_pieces centre_board ∧
                 offsets_reach (possible_moves (mkFigure 1 0 1)) (0, 1) (pos_x q, pos_y q))))
   ∧ (∀ q c d, offsets_reach (possible_moves q) c d ↔ in_line_within_two c d)
   ∧ (∀ P Q c d, offsets_reach (possible_moves P) c d → offsets_reach (possible_moves Q) d c)
   ∧ (∀ n P Q,
        in_bounds n (pos_x P) (pos_y P) → in_bounds n (pos_x Q) (pos_y Q) →
        (is_position_safe Q (place_piece P (ChessBoard_init n)).2).1 = Val false →
        (is_position_safe P (place_piece Q (ChessBoard_init n)).2).1 = Val false)).
Proof.
  assert (grid_shape (board_size centre_board) (cells centre_board)) as Hshape.
  { split; [reflexivity|]. repeat constructor. }
  split; [exact Hshape|].
  exact (is_position_safe_decides centre_board (mkFigure 1 0 1) Hshape).
Defined.

(** C5. On every board that a caller can build, after [place_piece] and
    after [remove_piece] the invariant holds: no two placed figures share a
    cell and a cell holds a figure exactly when that figure is placed
    there; the flag of every cell on the board is [True] exactly when some
    placed figure reaches the cell. *)
Theorem board_invariant_after_place_and_remove (b : ChessBoard) (piece : ChessFigure) :
  reachable_board b → coherent b piece →
  (one_piece_per_cell (place_piece piece b).2 ∧ flags_consistent (place_piece piece b).2)
  ∧ (one_piece_per_cell (remove_piece piece b).2 ∧ flags_consistent (remove_piece piece b).2).
Proof.
  intros Hreach Hco. pose proof (reachable_board_inv b Hreach) as Hinv. split.
  - apply board_ok_named. by apply place_piece_inv.
  - apply board_ok_named. by apply remove_piece_inv.
Qed.

Lemma board_invariant_after_place_and_remove_witness :
  reachable_board (ChessBoard_init 3) ∧ coherent (ChessBoard_init 3) (mkFigure 0 1 1) ∧
  ((one_piece_per_cell (place_piece (mkFigure 0 1 1) (ChessBoard_init 3)).2
    ∧ flags_consistent (place_piece (mkFigure 0 1 1) (ChessBoard_init 3)).2)
   ∧ (one_piece_per_cell (remove_piece (mkFigure 0 1 1) (ChessBoard_init 3)).2
      ∧ flags_consistent (remove_piece (mkFigure 0 1 1) (ChessBoard_init 3)).2)).
Proof.
  assert (coherent (ChessBoard_init 3) (mkFigure 0 1 1)) as Hco.
  { intros q Hq. simpl in Hq. inversion Hq. }
  split; [exact (reach_init 3)|]. split; [exact Hco|].
  exact (board_invariant_after_place_and_remove (ChessBoard_init 3) (mkFigure 0 1 1)
           (reach_init 3) Hco).
Defined.


(** C7, counterexample.  With the pre-placed coordinates (0, 0) and (0, 1),
    which threaten each other, one figure to place and a placed count of
    two, the board handed to the search holds (0, 0) alone: the run stores
    solutions, and the solution of (0, 0) and (1, 1) among them has two
    cells, not three.  A second run on the same solver, with nothing to
    place and nothing placed, leaves that solution stored: it has two
    cells, not zero. *)
Lemma stored_solution_of_another_size :
  ({[ (0, 0); (1, 1) ]} : gset (Z * Z))
    ∈ found_solutions (solve 3 1 2 [(0, 0); (0, 1)] (ChessSolver_init 0)).2
  ∧ size ({[ (0, 0); (1, 1) ]} : gset (Z * Z)) ≠ (Z.to_nat 1 + Z.to_nat 2)%nat
  ∧ ({[ (0, 0); (1, 1) ]} : gset (Z * Z))
      ∈ found_solutions
          (solve 3 0 0 [] (solve 3 1 2 [(0, 0); (0, 1)] (ChessSolver_init 0)).2).2
  ∧ size ({[ (0, 0); (1, 1) ]} : gset (Z * Z)) ≠ (Z.to_nat 0 + Z.to_nat 0)%nat.
Proof.
  assert (size ({[ (0, 0); (1, 1) ]} : gset (Z * Z)) = 2%nat) as Hsize
    by (vm_compute; reflexivity).
  split; [|split; [rewrite Hsize; simpl; lia|split; [|rewrite Hsize; simpl; lia]]].
  - apply (bool_decide_unpack _). vm_compute. exact I.
  - apply (bool_decide_unpack _). vm_compute. exact I.
Qed.

(** C7, amended.  On a board that satisfies the invariant, every solution
    that a search adds to those stored before it is a coordinate set of
    size [pieces_to_place] plus the number of figures on the board handed
    to the search, and the solutions stored before it stay stored; for a
    run through [create_board] that size is
    [pieces_to_place + placed_count] when the pre-placed coordinates are on
    the board, mutually safe and [placed_count] in number.  Two branches
    whose final placed lists are permutations of one another store the
    same value, which is in the set; sets with the same members are the
    same stored value.  On the 2×2 board with two figures to place the two
    orders of placing (0, 0) and (1, 1) are both branches of the search,
    and the search stores two solutions, not four. *)
Theorem found_solutions_are_deduplicated
    (board : ChessBoard) (arrangement : list ascii) (e : Env) :
  board_inv board → allocated (next_oid e) board →
  (∀ s, s ∈ found_solutions (find_solutions board [arrangement] e).2 →
        s ∈ found_solutions e
        ∨ size s = (length arrangement + length (placed_pieces board))%nat)
  ∧ (∀ s, s ∈ found_solutions e →
          s ∈ found_solutions (find_solutions board [arrangement] e).2)
  ∧ (∀ n l k initial_pieces e0,
       0 ≤ l → (∀ c, c ∈ initial_pieces → in_bounds n c.1 c.2) →
       mutually_safe initial_pieces = true → k = Z.of_nat (length initial_pieces) →
       ∀ s, s ∈ found_solutions (solve n l k initial_pieces e0).2 →
            s ∈ found_solutions e0 ∨ size s = (Z.to_nat l + Z.to_nat k)%nat)
  ∧ (∀ b1 b2,
       grows board (length arrangement) b1 → grows board (length arrangement) b2 →
       coordinates_of (placed_pieces b1) ≡ₚ coordinates_of (placed_pieces b2) →
       (list_to_set (coordinates_of (placed_pieces b1)) : gset (Z * Z))
       = list_to_set (coordinates_of (placed_pieces b2))
       ∧ list_to_set (coordinates_of (placed_pieces b1))
           ∈ found_solutions (find_solutions board [arrangement] e).2)
  ∧ (∀ s1 s2 : gset (Z * Z), (∀ c, c ∈ s1 ↔ c ∈ s2) → s1 = s2)
  ∧ (∃ b1 b2,
       grows (ChessBoard_init 2) 2 b1 ∧ grows (ChessBoard_init 2) 2 b2 ∧
       coordinates_of (placed_pieces b1) = [(0, 0); (1, 1)] ∧
       coordinates_of (placed_pieces b2) = [(1, 1); (0, 0)])
  ∧ found_solutions (solve 2 2 0 [] (ChessSolver_init 0)).2
    = {[ {[ (0, 0); (1, 1) ]}; {[ (1, 0); (0, 1) ]} ]}.
Proof.
  intros Hinv Halloc.
  assert (∀ board arrangement e, board_inv board → allocated (next_oid e) board →
            ∀ s, s ∈ found_solutions (find_solutions board [arrangement] e).2 →
                 s ∈ found_solutions e
                 ∨ size s = (length arrangement + length (placed_pieces board))%nat) as Hsizes.
  { clear. intros board arrangement e Hinv Halloc s.
    destruct (find_solutions_searched board arrangement e Hinv Halloc)
      as (e' & Hrun & _ & _ & Hfound).
    rewrite Hrun. cbn [snd]. simpl in Hfound.
    intros [Hs|(final & Hfinal & ->)]%Hfound; [by left|]. right.
    rewrite size_list_to_set.
    - rewrite (completes_length _ _ _ _ Hfinal). unfold coordinates_of.
      rewrite length_fmap. lia.
    - eapply completes_NoDup; [done|]. apply Hinv. }
  destruct (find_solutions_searched board arrangement e Hinv Halloc)
    as (e' & Hrun & _ & _ & Hfound).
  split; [by apply Hsizes|].
  split; [rewrite Hrun; cbn [snd]; simpl in Hfound; intros s Hs; apply Hfound; by left|].
  split; [|rewrite Hrun; cbn [snd]; simpl in Hfound; split; [|split; [|split]]].
  - intros n l k initial_pieces e0 Hl Hin Hsafe Hk s.
    destruct (create_board_spec n l k initial_pieces e0 Hl Hin)
      as (b0 & next & Hcreate & Hinv0 & Halloc0 & _ & Hcoords).
    unfold solve. rewrite (bind_val _ _ e0 _ _ Hcreate). cbn [fst snd]. unfold start_solving.
    intros Hs. destruct (Hsizes b0 _ (mkEnv (chess_board e0) (found_solutions e0) next)
                             Hinv0 Halloc0 s Hs) as [Hs'|Hs']; [by left|]. right.
    rewrite Hs', length_replicate. f_equal.
    rewrite <- (length_fmap (λ p, (pos_x p, pos_y p))).
    fold (coordinates_of (placed_pieces b0)). rewrite Hcoords.
    case_bool_decide as Hpos.
    + rewrite (seeded_safe n initial_pieces Hin Hsafe). lia.
    + simpl. lia.
  - intros b1 b2 Hb1 Hb2 Hperm. split; [by apply list_to_set_perm_L|].
    apply Hfound. right. apply solved_grows; [apply Hinv|]. eauto.
  - intros s1 s2 Hmem. by apply set_eq.
  - destruct (completes_grows 2 (ChessBoard_init 2) [(0, 0); (1, 1)] (ChessBoard_init_ok 2))
      as (b1 & Hb1 & Hc1); [by repeat econstructor|].
    destruct (completes_grows 2 (ChessBoard_init 2) [(1, 1); (0, 0)] (ChessBoard_init_ok 2))
      as (b2 & Hb2 & Hc2); [by repeat econstructor|].
    eauto 10.
  - exact two_by_two_run.
Qed.

Lemma found_solutions_are_deduplicated_witness :
  board_inv centre_board ∧ allocated (next_oid (ChessSolver_init 1)) centre_board ∧
  ((∀ s, s ∈ found_solutions (find_solutions centre_board [[" "%char]] (ChessSolver_init 1)).2 →
         s ∈ found_solutions (ChessSolver_init 1)
         ∨ size s = (length [" "%char] + length (placed_pieces centre_board))%nat)
   ∧ (∀ s, s ∈ found_solutions (ChessSolver_init 1) →
           s ∈ found_solutions (find_solutions centre_board [[" "%char]] (ChessSolver_init 1)).2)
   ∧ (∀ n l k initial_pieces e0,
        0 ≤ l → (∀ c, c ∈ initial_pieces → in_bounds n c.1 c.2) →
        mutually_safe initial_pieces = true → k = Z.of_nat (length initial_pieces) →
        ∀ s, s ∈ found_solutions (solve n l k initial_pieces e0).2 →
             s ∈ found_solutions e0 ∨ size s = (Z.to_nat l + Z.to_nat k)%nat)
   ∧ (∀ b1 b2,
        grows centre_board (length [" "%char]) b1 → grows centre_board (length [" "%char]) b2 →
        coordinates_of (placed_pieces b1) ≡ₚ coordinates_of (placed_pieces b2) →
        (list_to_set (coordinates_of (placed_pieces b1)) : gset (Z * Z))
        = list_to_set (coordinates_of (placed_pieces b2))
        ∧ list_to_set (coordinates_of (placed_pieces b1))
            ∈ found_solutions (find_solutions centre_board [[" "%char]] (ChessSolver_init 1)).2)
   ∧ (∀ s1 s2 : gset (Z * Z), (∀ c, c ∈ s1 ↔ c ∈ s2) → s1 = s2)
   ∧ (∃ b1 b2,
        grows (ChessBoard_init 2) 2 b1 ∧ grows (ChessBoard_init 2) 2 b2 ∧
        coordinates_of (placed_pieces b1) = [(0, 0); (1, 1)] ∧
        coordinates_of (placed_pieces b2) = [(1, 1); (0, 0)])
   ∧ found_solutions (solve 2 2 0 [] (ChessSolver_init 0)).2
     = {[ {[ (0, 0); (1, 1) ]}; {[ (1, 0); (0, 1) ]} ]}).
Proof.
  split; [exact centre_board_inv|]. split; [exact centre_board_allocated|].
  exact (found_solutions_are_deduplicated centre_board [" "%char] (ChessSolver_init 1)
           centre_board_inv centre_board_allocated).
Defined.

Lemma find_solutions_nothing_to_place board e :
  found_solutions (find_solutions board [[]] e).2
  = {[ list_to_set (coordinates_of (placed_pieces board)) ]} ∪ found_solutions e.
Proof. reflexivity. Qed.

(** C8. With no figure to place the search records exactly one solution:
    for N ≥ 1 and K = 0 the empty placement; for any board handed to the
    search, the coordinate set of the figures placed on it; and so, for
    pre-placed coordinates on the board that are mutually safe, the set of
    those coordinates. *)
Theorem nothing_to_place_records_the_pre_seeded_board
    (n : Z) (initial_pieces : list (Z * Z)) (next : nat) (board : ChessBoard) (e : Env) :
  1 ≤ n →
  ((solve n 0 0 initial_pieces (ChessSolver_init next)).1 = Val tt
   ∧ found_solutions (solve n 0 0 initial_pieces (ChessSolver_init next)).2 = {[ ∅ ]})
  ∧ ((find_solutions board [[]] (with_found ∅ e)).1 = Val tt
     ∧ found_solutions (find_solutions board [[]] (with_found ∅ e)).2
       = {[ list_to_set (coordinates_of (placed_pieces board)) ]})
  ∧ (∀ k, k > 0 →
       (∀ c, c ∈ initial_pieces → in_bounds n c.1 c.2) →
       mutually_safe initial_pieces = true →
       (solve n 0 k initial_pieces (ChessSolver_init next)).1 = Val tt
       ∧ found_solutions (solve n 0 k initial_pieces (ChessSolver_init next)).2
         = {[ list_to_set initial_pieces ]}).
Proof.
  intros Hn. split; [|split].
  - split; [reflexivity|]. unfold solve, create_board.
    rewrite bool_decide_eq_false_2 by lia.
    transitivity ({[ list_to_set (coordinates_of []) ]} ∪ (∅ : gset (gset (Z * Z))));
      [reflexivity|]. by rewrite union_empty_r_L.
  - split; [reflexivity|]. rewrite find_solutions_nothing_to_place. simpl.
    by rewrite union_empty_r_L.
  - intros k Hk Hin Hsafe.
    destruct (create_board_spec n 0 k initial_pieces (ChessSolver_init next))
      as (b & next' & Hrun & _ & _ & _ & Hcoords); [lia|done|].
    rewrite bool_decide_eq_true_2 in Hcoords by done.
    rewrite seeded_safe in Hcoords by done.
    unfold solve. rewrite (bind_val _ _ _ _ _ Hrun). cbn [fst snd]. unfold start_solving.
    change (replicate (Z.to_nat 0) " "%char) with (@nil ascii).
    split; [reflexivity|]. rewrite find_solutions_nothing_to_place, Hcoords. simpl.
    by rewrite union_empty_r_L.
Qed.

Lemma nothing_to_place_records_the_pre_seeded_board_witness :
  1 ≤ 1 ∧
  (((solve 1 0 0 [] (ChessSolver_init 0)).1 = Val tt
    ∧ found_solutions (solve 1 0 0 [] (ChessSolver_init 0)).2 = {[ ∅ ]})
   ∧ ((find_solutions centre_board [[]] (with_found ∅ (ChessSolver_init 1))).1 = Val tt
      ∧ found_solutions (find_solutions centre_board [[]] (with_found ∅ (ChessSolver_init 1))).2
        = {[ list_to_set (coordinates_of (placed_pieces centre_board)) ]})
   ∧ (∀ k, k > 0 →
        (∀ c, c ∈ [] → in_bounds 1 c.1 c.2) →
        mutually_safe [] = true →
        (solve 1 0 k [] (ChessSolver_init 0)).1 = Val tt
        ∧ found_solutions (solve 1 0 k [] (ChessSolver_init 0)).2
          = {[ list_to_set [] ]})).
Proof.
  split; [lia|].
  apply (nothing_to_place_records_the_pre_seeded_board 1 [] 0 centre_board (ChessSolver_init 1)).
  lia.
Defined.

(** C9, at the failing input.  On the empty 3×3 board the figure at
    (-1, 3) has a negative x that is not less than -3.  The safety
    predicate returns [False] for it, and [place_piece] raises IndexError
    in its emptiness check, where the row index 3 is out of range, instead
    of returning [False].  The board is unchanged. *)
Theorem place_piece_wrapped_column_bad_row :
  - 3 ≤ pos_x (mkFigure 0 (-1) 3) < 0 ∧
  is_position_safe (mkFigure 0 (-1) 3) (ChessBoard_init 3) = (Val false, ChessBoard_init 3) ∧
  place_piece (mkFigure 0 (-1) 3) (ChessBoard_init 3) = (Raise IndexError, ChessBoard_init 3).
Proof. split; [simpl; lia|split; vm_compute; reflexivity]. Qed.

(** Where the other coordinate indexes the grid too: on a board whose grid
    has its shape, for a figure whose coordinates both index the grid
    ([- N ≤ x < N] and [- N ≤ y < N]) and one of which is negative, the
    emptiness check reads the cell that Python's negative indexing
    designates, and [place_piece] returns [False] without an exception and
    leaves the board as it was. *)
Theorem place_piece_rejects_wrapped_coordinates (b : ChessBoard) (piece : ChessFigure) :
  grid_shape (board_size b) (cells b) →
  - board_size b ≤ pos_x piece < board_size b →
  - board_size b ≤ pos_y piece < board_size b →
  pos_x piece < 0 ∨ pos_y piece < 0 →
  (∃ c, cell_at (pos_x piece) (pos_y piece) b = (Val c, b) ∧
        grid_at (cells b) (wrap (board_size b) (pos_x piece))
                          (wrap (board_size b) (pos_y piece)) = Some c)
  ∧ is_position_safe piece b = (Val false, b)
  ∧ place_piece piece b = (Val false, b).
Proof.
  intros Hshape Hx Hy Hneg. split; [|split].
  - destruct (cell_at_cases b (pos_x piece) (pos_y piece) Hshape)
      as [(_ & _ & c & Hrun & Hc)|[Hout _]]; [eauto|tauto].
  - apply is_position_safe_outside. unfold in_bounds. lia.
  - by apply place_piece_wrapped.
Qed.

Lemma place_piece_rejects_wrapped_coordinates_witness :
  grid_shape (board_size centre_board) (cells centre_board) ∧
  - board_size centre_board ≤ -1 < board_size centre_board ∧
  - board_size centre_board ≤ -2 < board_size centre_board ∧
  (-1 < 0 ∨ -2 < 0) ∧
  ((∃ c, cell_at (-1) (-2) centre_board = (Val c, centre_board) ∧
         grid_at (cells centre_board) (wrap (board_size centre_board) (-1))
                                      (wrap (board_size centre_board) (-2)) = Some c)
   ∧ is_position_safe (mkFigure 1 (-1) (-2)) centre_board = (Val false, centre_board)
   ∧ place_piece (mkFigure 1 (-1) (-2)) centre_board = (Val false, centre_board)).
Proof.
  assert (grid_shape (board_size centre_board) (cells centre_board)) as Hshape.
  { split; [reflexivity|]. repeat constructor. }
  assert (board_size centre_board = 3) as Hsize by reflexivity.
  split; [exact Hshape|]. split; [rewrite Hsize; lia|].
  split; [rewrite Hsize; lia|]. split; [left; lia|].
  apply (place_piece_rejects_wrapped_coordinates centre_board (mkFigure 1 (-1) (-2)) Hshape).
  - rewrite Hsize. simpl. lia.
  - rewrite Hsize. simpl. lia.
  - left. simpl. lia.
Defined.

(** C10. [found_solutions] is never cleared.  For two successive calls of
    [find_solutions] on one solver, on any boards and arrangements, every
    solution present after the first call is present after the second,
    and the set after the second call is the union of the set after the
    first with what the second run records on a solver without solutions. *)
Theorem found_solutions_only_grow
    (e : Env) (board1 board2 : ChessBoard) (arrangements1 arrangements2 : list (list ascii)) :
  let e1 := (find_solutions board1 arrangements1 e).2 in
  let e2 := (find_solutions board2 arrangements2 e1).2 in
  found_solutions e ⊆ found_solutions e1
  ∧ found_solutions e1 ⊆ found_solutions e2
  ∧ found_solutions e2
    = found_solutions e1
      ∪ found_solutions (find_solutions board2 arrangements2 (with_found ∅ e1)).2.
Proof.
  intros e1 e2.
  destruct (accumulates_union (find_solutions board1 arrangements1) e) as [_ H1].
  { intros F. apply accumulates_find_solutions. }
  destruct (accumulates_union (find_solutions board2 arrangements2) e1) as [_ H2].
  { intros F. apply accumulates_find_solutions. }
  fold e1 in H1. fold e2 in H2. split; [|split; [|done]].
  - rewrite H1. apply union_subseteq_l.
  - rewrite H2. apply union_subseteq_l.
Qed.

(** ** Mutual safety, pair by pair *)

Lemma conflict_false_iff c d : conflict c d = false ↔ c ≠ d ∧ threatens c d = false.
Proof.
  unfold conflict. rewrite orb_false_iff, bool_decide_eq_false. tauto.
Qed.

Lemma no_conflict_forallb c l :
  forallb (λ d, negb (conflict c d)) l = true ↔
  (c ∉ l) ∧ (∀ d, d ∈ l → threatens c d = false).
Proof.
  rewrite forallb_forall. split.
  - intros Hall. split.
    + intros Hc%list_elem_of_In. specialize (Hall c Hc).
      apply negb_true_iff, conflict_false_iff in Hall. tauto.
    + intros d Hd%list_elem_of_In. specialize (Hall d Hd).
      apply negb_true_iff, conflict_false_iff in Hall. tauto.
  - intros [Hc Hl] d Hd%list_elem_of_In. apply negb_true_iff, conflict_false_iff.
    split; [by intros ->|by apply Hl].
Qed.

Lemma mutually_safe_iff l : mutually_safe l = true ↔ NoDup l ∧ conflict_free l.
Proof.
  induction l as [|c l IH]; simpl.
  - split; [|done]. intros _. split; [constructor|]. intros c d Hc. by apply elem_of_nil in Hc.
  - rewrite andb_true_iff, IH, no_conflict_forallb, NoDup_cons. split.
    + intros [[Hc Hcl] [Hnd Hfree]]. split; [done|].
      intros a b [->|Ha]%elem_of_cons [->|Hb]%elem_of_cons Hab; try done.
      * by apply Hcl.
      * rewrite threatens_sym. by apply Hcl.
      * by apply Hfree.
    + intros [[Hc Hnd] Hfree]. split; [split; [done|]|split; [done|]].
      * intros d Hd. apply Hfree; [by left|by right|]. by intros ->.
      * intros a b Ha Hb. apply Hfree; by right.
Qed.

Lemma conflict_free_perm l1 l2 : l1 ≡ₚ l2 → conflict_free l1 → conflict_free l2.
Proof. intros Hp Hfree c d Hc Hd. apply Hfree; by rewrite Hp. Qed.

Lemma mutually_safe_perm l1 l2 : l1 ≡ₚ l2 → mutually_safe l1 = mutually_safe l2.
Proof.
  intros Hp. apply eq_true_iff_eq. rewrite !mutually_safe_iff. split.
  - intros [Hnd Hfree]. split; [by rewrite <- Hp|by eapply conflict_free_perm].
  - intros [Hnd Hfree]. split; [by rewrite Hp|by eapply conflict_free_perm].
Qed.

Lemma mutually_safe_snoc l c :
  mutually_safe (l ++ [c]) = mutually_safe l && forallb (λ d, negb (conflict d c)) l.
Proof.
  induction l as [|a l IH]; simpl; [done|].
  rewrite IH, forallb_app. simpl.
  destruct (forallb _ l), (negb (conflict a c)), (mutually_safe l), (forallb _ l); done.
Qed.

Lemma mutually_safe_app_l l1 l2 : mutually_safe (l1 ++ l2) = true → mutually_safe l1 = true.
Proof.
  rewrite !mutually_safe_iff. intros [Hnd Hfree]. split.
  - by apply NoDup_app in Hnd as [? _].
  - intros c d Hc Hd. apply Hfree; apply elem_of_app; by left.
Qed.

(** The additions of [completes], all at once: the final list is the
    placed one followed by [l] cells of the board, and no two of its
    coordinates coincide or threaten each other. *)
Lemma completes_iff n l : ∀ placed final,
  mutually_safe placed = true →
  completes n placed l final ↔
  ∃ extra, final = placed ++ extra ∧ length extra = l ∧
           (∀ c, c ∈ extra → in_bounds n c.1 c.2) ∧
           mutually_safe (placed ++ extra) = true.
Proof.
  induction l as [|l IH]; intros placed final Hsafe.
  - rewrite completes_O_inv. split.
    + intros ->. exists []. rewrite app_nil_r. split; [done|]. split; [done|].
      split; [|done]. intros c Hc. by apply elem_of_nil in Hc.
    + intros (extra & -> & Hlen & _). destruct extra; [|done]. by rewrite app_nil_r.
  - rewrite completes_S_inv. split.
    + intros (c & Hc & Hrest).
      assert (mutually_safe (placed ++ [c]) = true) as Hsafe'.
      { rewrite mutually_safe_snoc, Hsafe. simpl.
        unfold safe_addition in Hc. by apply andb_true_iff in Hc as [_ ?]. }
      apply (IH _ _ Hsafe') in Hrest as (extra & -> & Hlen & Hin & Hall).
      exists (c :: extra). rewrite <- app_assoc in *. simpl in *.
      split; [done|]. split; [by rewrite Hlen|]. split; [|done].
      intros d [->|Hd]%elem_of_cons; [by apply safe_addition_in_bounds in Hc|by apply Hin].
    + intros (extra & -> & Hlen & Hin & Hall). destruct extra as [|c extra]; [done|].
      assert (mutually_safe (placed ++ [c]) = true) as Hsafe'.
      { apply (mutually_safe_app_l _ extra). by rewrite <- app_assoc. }
      exists c. split.
      * rewrite safe_addition_inside by (apply Hin; by left).
        rewrite mutually_safe_snoc in Hsafe'. by apply andb_true_iff in Hsafe' as [_ ?].
      * apply (IH _ _ Hsafe'). exists extra. rewrite <- app_assoc. simpl.
        split; [done|]. split; [by injection Hlen|]. split; [|done].
        intros d Hd. apply Hin. by right.
Qed.

(** The same on coordinate sets. *)
Lemma solved_iff (n : Z) (placed : list (Z * Z)) (l : nat) (s : gset (Z * Z)) :
  mutually_safe placed = true → (∀ c, c ∈ placed → in_bounds n c.1 c.2) →
  solved n placed l s ↔
  (∀ c, c ∈ placed → c ∈ s) ∧ size s = (length placed + l)%nat ∧
  (∀ c, c ∈ s → in_bounds n c.1 c.2) ∧
  (∀ c d, c ∈ s → d ∈ s → c ≠ d → threatens c d = false).
Proof.
  intros Hsafe Hplaced. unfold solved. split.
  - intros (final & Hfinal & ->). apply (completes_iff _ _ _ _ Hsafe) in Hfinal
      as (extra & -> & Hlen & Hin & Hall).
    apply mutually_safe_iff in Hall as [Hnd Hfree]. split; [|split; [|split]].
    + intros c Hc. apply elem_of_list_to_set, elem_of_app. by left.
    + rewrite size_list_to_set by done. rewrite length_app. lia.
    + intros c [Hc|Hc]%elem_of_list_to_set%elem_of_app; [by apply Hplaced|by apply Hin].
    + intros c d Hc%elem_of_list_to_set Hd%elem_of_list_to_set. by apply Hfree.
  - intros (Hsub & Hsize & Hin & Hfree).
    apply mutually_safe_iff in Hsafe as [Hnd Hfree0].
    set (extra := elements (s ∖ list_to_set placed)).
    assert (∀ c, c ∈ extra ↔ c ∈ s ∧ c ∉ placed) as Hextra.
    { intros c. unfold extra. rewrite elem_of_elements, elem_of_difference, elem_of_list_to_set.
      done. }
    assert (s = list_to_set (placed ++ extra)) as Hs.
    { apply set_eq. intros c. rewrite elem_of_list_to_set, elem_of_app, Hextra. split.
      - intros Hc. destruct (decide (c ∈ placed)); tauto.
      - intros [Hc|[Hc _]]; [by apply Hsub|done]. }
    exists (placed ++ extra). split; [|done].
    apply completes_iff; [by apply mutually_safe_iff|]. exists extra. split; [done|].
    assert (NoDup (placed ++ extra)) as Hnd'.
    { apply NoDup_app. split; [done|]. split; [|apply NoDup_elements].
      intros c Hc Hc'. apply Hextra in Hc'. tauto. }
    split; [|split].
    + assert (size s = length (placed ++ extra)) as Hlen
        by (rewrite Hs at 1; by apply size_list_to_set).
      rewrite length_app in Hlen. lia.
    + intros c Hc%Hextra. apply Hin. tauto.
    + apply mutually_safe_iff. split; [done|].
      intros c d Hc Hd. apply Hfree; rewrite Hs; by apply elem_of_list_to_set.
Qed.

Lemma centre_board_safe : mutually_safe (coordinates_of (placed_pieces centre_board)) = true.
Proof. reflexivity. Qed.

Lemma board_ok_coordinates_inside b c :
  board_ok b → c ∈ coordinates_of (placed_pieces b) → in_bounds (board_size b) c.1 c.2.
Proof.
  intros Hb Hc. destruct c as [x y].
  apply elem_of_coordinates_of in Hc as (q & Hq & <- & <-). by apply (ok_inside _ Hb).
Qed.

(** X1. The search, as a brute-force filter would describe it: on a board
    whose figures are mutually safe, the solutions that a run stores are
    exactly the sets of K + L cells of the board that contain the cells of
    the K figures on it and in which no cell threatens another. *)
Theorem find_solutions_records_exactly_the_safe_sets
    (board : ChessBoard) (arrangement : list ascii) (e : Env) :
  board_inv board → allocated (next_oid e) board →
  mutually_safe (coordinates_of (placed_pieces board)) = true →
  found_solutions e = ∅ →
  ∀ s : gset (Z * Z),
    s ∈ found_solutions (find_solutions board [arrangement] e).2 ↔
    (∀ c, c ∈ coordinates_of (placed_pieces board) → c ∈ s) ∧
    size s = (length (placed_pieces board) + length arrangement)%nat ∧
    (∀ c, c ∈ s → in_bounds (board_size board) c.1 c.2) ∧
    (∀ c d, c ∈ s → d ∈ s → c ≠ d → threatens c d = false).
Proof.
  intros Hinv Halloc Hsafe Hempty s.
  destruct (find_solutions_searched board arrangement e Hinv Halloc)
    as (e' & Hrun & _ & _ & Hfound).
  rewrite Hrun. cbn [snd]. rewrite Hfound. simpl. rewrite Hempty.
  rewrite (solved_iff _ _ _ _ Hsafe).
  - unfold coordinates_of at 2. rewrite length_fmap. split; [|tauto].
    intros [Hs|?]; [|done]. by apply not_elem_of_empty in Hs.
  - intros c. apply board_ok_coordinates_inside, Hinv.
Qed.

Lemma find_solutions_records_exactly_the_safe_sets_witness :
  board_inv centre_board ∧ allocated 1 centre_board ∧
  mutually_safe (coordinates_of (placed_pieces centre_board)) = true ∧
  found_solutions (ChessSolver_init 1) = ∅ ∧
  ∀ s : gset (Z * Z),
    s ∈ found_solutions (find_solutions centre_board [[" "%char]] (ChessSolver_init 1)).2 ↔
    (∀ c, c ∈ coordinates_of (placed_pieces centre_board) → c ∈ s) ∧
    size s = (length (placed_pieces centre_board) + length [" "%char])%nat ∧
    (∀ c, c ∈ s → in_bounds (board_size centre_board) c.1 c.2) ∧
    (∀ c d, c ∈ s → d ∈ s → c ≠ d → threatens c d = false).
Proof.
  split; [exact centre_board_inv|]. split; [exact centre_board_allocated|].
  split; [reflexivity|]. split; [reflexivity|].
  exact (find_solutions_records_exactly_the_safe_sets centre_board [" "%char]
           (ChessSolver_init 1) centre_board_inv centre_board_allocated eq_refl eq_refl).
Defined.

(** ** Counting cells *)

Lemma length_bind_const {A B} (f : A → list B) (k : nat) (l : list A) :
  (∀ a, length (f a) = k) → length (l ≫= f) = (length l * k)%nat.
Proof.
  intros Hf. induction l as [|a l IH]; [done|].
  rewrite bind_cons, length_app, Hf, IH. simpl. lia.
Qed.

Lemma length_inside n (l : list (Z * Z)) :
  NoDup l → (∀ c, c ∈ l → in_bounds n c.1 c.2) →
  (length l ≤ Z.to_nat n * Z.to_nat n)%nat.
Proof.
  intros Hnd Hin.
  set (all := x ← range n; y ← range n; [(x, y)]).
  assert (length all = (Z.to_nat n * Z.to_nat n)%nat) as <-.
  { unfold all. rewrite (length_bind_const _ (Z.to_nat n)), length_range; [done|].
    intros x. rewrite (length_bind_const _ 1%nat), length_range; [lia|done]. }
  apply submseteq_length, NoDup_submseteq; [done|].
  intros [x y] Hc. destruct (Hin _ Hc) as [Hx Hy]. simpl in *.
  apply list_elem_of_bind. exists x. split; [|by apply elem_of_range].
  apply list_elem_of_bind. exists y. split; [by left|by apply elem_of_range].
Qed.

Lemma completes_inside n placed l final :
  completes n placed l final → (∀ c, c ∈ placed → in_bounds n c.1 c.2) →
  ∀ c, c ∈ final → in_bounds n c.1 c.2.
Proof.
  induction 1 as [|placed c l final Hsafe _ IH]; [done|]. intros Hin. apply IH.
  intros d [Hd| ->%list_elem_of_singleton]%elem_of_app; [by apply Hin|].
  by apply safe_addition_in_bounds in Hsafe.
Qed.

(** X2. When the figures on the board and the figures to place are more
    than the board has cells, the search returns and stores nothing. *)
Theorem find_solutions_finds_nothing_beyond_the_cells
    (board : ChessBoard) (arrangement : list ascii) (e : Env) :
  board_inv board → allocated (next_oid e) board → found_solutions e = ∅ →
  (Z.to_nat (board_size board) * Z.to_nat (board_size board)
   < length (placed_pieces board) + length arrangement)%nat →
  (find_solutions board [arrangement] e).1 = Val tt ∧
  found_solutions (find_solutions board [arrangement] e).2 = ∅.
Proof.
  intros Hinv Halloc Hempty Hmany.
  destruct (find_solutions_searched board arrangement e Hinv Halloc)
    as (e' & Hrun & _ & _ & Hfound).
  rewrite Hrun. split; [done|]. cbn [snd]. apply set_eq. intros s.
  rewrite Hfound. simpl. rewrite Hempty. split; [|by intros ?%not_elem_of_empty].
  intros [Hs|(final & Hfinal & _)]; [done|]. exfalso.
  destruct Hinv as [Hb _].
  pose proof (completes_length _ _ _ _ Hfinal) as Hlen.
  pose proof (completes_NoDup _ _ _ _ Hfinal (ok_nodup _ Hb)) as Hnd.
  pose proof (completes_inside _ _ _ _ Hfinal
                (λ c, board_ok_coordinates_inside board c Hb)) as Hin.
  pose proof (length_inside _ _ Hnd Hin) as Hle.
  unfold coordinates_of in Hlen. rewrite length_fmap in Hlen. lia.
Qed.

Lemma find_solutions_finds_nothing_beyond_the_cells_witness :
  board_inv (ChessBoard_init 1) ∧ allocated 0 (ChessBoard_init 1) ∧
  found_solutions (ChessSolver_init 0) = ∅ ∧
  (Z.to_nat (board_size (ChessBoard_init 1)) * Z.to_nat (board_size (ChessBoard_init 1))
   < length (placed_pieces (ChessBoard_init 1)) + length [" "%char; " "%char])%nat ∧
  (find_solutions (ChessBoard_init 1) [[" "%char; " "%char]] (ChessSolver_init 0)).1 = Val tt ∧
  found_solutions
    (find_solutions (ChessBoard_init 1) [[" "%char; " "%char]] (ChessSolver_init 0)).2 = ∅.
Proof.
  assert (allocated 0 (ChessBoard_init 1)) as Halloc.
  { intros q Hq. simpl in Hq. inversion Hq. }
  assert (Z.to_nat (board_size (ChessBoard_init 1)) * Z.to_nat (board_size (ChessBoard_init 1))
          < length (placed_pieces (ChessBoard_init 1)) + length [" "%char; " "%char])%nat
    as Hmany by (simpl; lia).
  split; [exact (ChessBoard_init_inv 1)|]. split; [exact Halloc|]. split; [reflexivity|].
  split; [exact Hmany|].
  exact (find_solutions_finds_nothing_beyond_the_cells (ChessBoard_init 1)
           [" "%char; " "%char] (ChessSolver_init 0)
           (ChessBoard_init_inv 1) Halloc eq_refl Hmany).
Defined.

(** ** More on the methods of the board *)

Lemma board_inv_coherent b p : board_inv b → p ∈ placed_pieces b → coherent b p.
Proof.
  intros [_ Hoids] Hp q Hq Hoid.
  apply list_elem_of_lookup in Hp as [i Hi]. apply list_elem_of_lookup in Hq as [j Hj].
  assert (i = j) as ->; [|congruence].
  apply (NoDup_lookup _ i j (oid p) Hoids); rewrite list_lookup_fmap.
  - by rewrite Hi.
  - rewrite Hj. simpl. by rewrite Hoid.
Qed.

Lemma place_piece_true_inside p b b1 :
  grid_shape (board_size b) (cells b) → place_piece p b = (Val true, b1) →
  in_bounds (board_size b) (pos_x p) (pos_y p).
Proof.
  intros Hshape Hrun.
  destruct (decide (- board_size b ≤ pos_x p < board_size b
                    ∧ - board_size b ≤ pos_y p < board_size b)) as [[Hx Hy]|Hout].
  - destruct (decide (pos_x p < 0 ∨ pos_y p < 0)) as [Hneg|Hpos].
    + rewrite (place_piece_wrapped p b Hshape Hx Hy Hneg) in Hrun. done.
    + unfold in_bounds. lia.
  - rewrite (place_piece_index_error p b Hshape Hout) in Hrun. done.
Qed.

(** X3. Backtracking is exact: on a board that satisfies the invariant,
    removing a figure that [place_piece] has just placed gives back the
    board as it was before, cell by cell and flag by flag. *)
Theorem remove_piece_undoes_place_piece (b b1 : ChessBoard) (piece : ChessFigure) :
  board_inv b → (∀ q, q ∈ placed_pieces b → oid q ≠ oid piece) →
  place_piece piece b = (Val true, b1) →
  remove_piece piece b1 = (Val tt, b).
Proof.
  intros [Hb Hoids] Hfresh Hplace.
  pose proof (place_piece_true_inside piece b b1 (ok_shape _ Hb) Hplace) as Hin.
  destruct (place_piece_cases piece b Hb Hin)
    as [(_ & b' & Hrun & Hb' & Hsize & Hplaced)|[_ Hrun]]; [|congruence].
  assert (b' = b1) as -> by congruence.
  destruct (remove_piece_placed piece b1 (placed_pieces b) [] Hb' Hplaced)
    as (b2 & Hrem & Hb2 & Hsize2 & Hplaced2).
  { rewrite Hplaced, app_nil_r. by apply list_remove_fresh_last. }
  rewrite app_nil_r in Hplaced2. rewrite Hrem. f_equal.
  apply board_ok_unique; congruence.
Qed.

Lemma remove_piece_undoes_place_piece_witness :
  board_inv (ChessBoard_init 3) ∧
  (∀ q, q ∈ placed_pieces (ChessBoard_init 3) → oid q ≠ oid (mkFigure 0 1 1)) ∧
  place_piece (mkFigure 0 1 1) (ChessBoard_init 3) = (Val true, centre_board) ∧
  remove_piece (mkFigure 0 1 1) centre_board = (Val tt, ChessBoard_init 3).
Proof.
  assert (∀ q, q ∈ placed_pieces (ChessBoard_init 3) → oid q ≠ oid (mkFigure 0 1 1)) as Hfresh.
  { intros q Hq. simpl in Hq. inversion Hq. }
  assert (place_piece (mkFigure 0 1 1) (ChessBoard_init 3) = (Val true, centre_board)) as Hplace
    by (vm_compute; reflexivity).
  split; [exact (ChessBoard_init_inv 3)|]. split; [exact Hfresh|]. split; [exact Hplace|].
  exact (remove_piece_undoes_place_piece (ChessBoard_init 3) centre_board (mkFigure 0 1 1)
           (ChessBoard_init_inv 3) Hfresh Hplace).
Defined.

(** X4. Removing a figure that is not on the board changes nothing: the
    call returns when the coordinates of the figure index the grid
    (also through Python's negative indices) and raises IndexError when
    they do not. *)
Theorem remove_piece_of_absent_piece (b : ChessBoard) (piece : ChessFigure) :
  board_inv b → coherent b piece → piece ∉ placed_pieces b →
  (remove_piece piece b).2 = b ∧
  ((remove_piece piece b).1
   = if bool_decide (- board_size b ≤ pos_x piece < board_size b
                     ∧ - board_size b ≤ pos_y piece < board_size b)
     then Val tt else Raise IndexError).
Proof.
  intros [Hb Hoids] Hco Hp. unfold remove_piece.
  destruct (cell_at_cases b (pos_x piece) (pos_y piece) (ok_shape _ Hb))
    as [(Hx & Hy & c & Hrun & Hc)|[Hout Hrun]].
  - rewrite (bind_val _ _ b c b Hrun). rewrite bool_decide_eq_true_2 by done.
    destruct (cell_piece c) as [q|] eqn:Hq; [|done].
    destruct (same_object q piece) eqn:Hsame; [|done]. exfalso.
    apply (ok_piece _ Hb _ _ c q (wrap_in_bounds _ _ _ Hx Hy) Hc) in Hq as (Hq & _).
    assert (q = piece) as -> by (apply Hco; [done|by apply bool_decide_eq_true in Hsame]).
    done.
  - rewrite (bind_raise _ _ b IndexError b Hrun). by rewrite bool_decide_eq_false_2.
Qed.

Lemma remove_piece_of_absent_piece_witness :
  board_inv centre_board ∧ coherent centre_board (mkFigure 1 0 0) ∧
  (mkFigure 1 0 0 ∉ placed_pieces centre_board) ∧
  (remove_piece (mkFigure 1 0 0) centre_board).2 = centre_board ∧
  ((remove_piece (mkFigure 1 0 0) centre_board).1
   = if bool_decide (- board_size centre_board ≤ pos_x (mkFigure 1 0 0) < board_size centre_board
                     ∧ - board_size centre_board ≤ pos_y (mkFigure 1 0 0)
                       < board_size centre_board)
     then Val tt else Raise IndexError).
Proof.
  assert (placed_pieces centre_board = [mkFigure 0 1 1]) as Hp by reflexivity.
  assert (coherent centre_board (mkFigure 1 0 0)) as Hco.
  { intros q. rewrite Hp. intros ->%list_elem_of_singleton. simpl. discriminate. }
  assert (mkFigure 1 0 0 ∉ placed_pieces centre_board) as Hnot.
  { rewrite Hp. intros Habs%list_elem_of_singleton. discriminate. }
  split; [exact centre_board_inv|]. split; [exact Hco|]. split; [exact Hnot|].
  exact (remove_piece_of_absent_piece centre_board (mkFigure 1 0 0) centre_board_inv Hco Hnot).
Defined.

(** X5. Removing a figure that is on the board returns, takes exactly that
    figure out of the placed list, keeps the order of the others and the
    invariant, and leaves the cell of the figure empty. *)
Theorem remove_piece_frees_the_cell (b : ChessBoard) (piece : ChessFigure) :
  board_inv b → piece ∈ placed_pieces b →
  ∃ b' l1 l2,
    remove_piece piece b = (Val tt, b') ∧
    placed_pieces b = l1 ++ piece :: l2 ∧ placed_pieces b' = l1 ++ l2 ∧
    (piece ∉ placed_pieces b') ∧ board_inv b' ∧ board_size b' = board_size b ∧
    is_position_empty (pos_x piece) (pos_y piece) b' = (Val true, b').
Proof.
  intros Hinv Hp. pose proof (board_inv_coherent b piece Hinv Hp) as Hco.
  pose proof (remove_piece_inv piece b Hinv Hco) as Hinv'.
  destruct Hinv as [Hb Hoids].
  destruct (list_remove_split piece (placed_pieces b) Hp Hco) as (l1 & l2 & Hsplit & Hrem).
  destruct (remove_piece_placed piece b l1 l2 Hb Hsplit Hrem)
    as (b' & Hrun & Hb' & Hsize & Hplaced).
  rewrite Hrun in Hinv'. exists b', l1, l2.
  assert (∀ q, q ∈ placed_pieces b' → ¬ (pos_x q = pos_x piece ∧ pos_y q = pos_y piece))
    as Hfree.
  { intros q Hq [Hx Hy]. pose proof (ok_nodup _ Hb) as Hnd.
    rewrite Hsplit, coordinates_of_app in Hnd. simpl in Hnd.
    apply NoDup_app in Hnd as (_ & Hdisj & [Hnot _]%NoDup_cons).
    rewrite Hplaced in Hq. apply elem_of_app in Hq as [Hq|Hq].
    - apply (Hdisj (pos_x piece, pos_y piece)); [|by left].
      apply elem_of_coordinates_of. eauto.
    - apply Hnot. apply elem_of_coordinates_of. eauto. }
  split; [done|]. split; [done|]. split; [done|]. split; [|split; [done|split; [done|]]].
  - intros Hq. by apply (Hfree piece Hq).
  - pose proof (ok_inside _ Hb piece Hp) as Hin. rewrite <- Hsize in Hin.
    destruct (grid_at_is_Some _ _ _ _ (ok_shape _ Hb') Hin) as [c Hc].
    rewrite (is_position_empty_in_bounds b' _ _ c (ok_shape _ Hb') Hin Hc).
    destruct (cell_piece c) as [q|] eqn:Hq; [|done]. exfalso.
    apply (ok_piece _ Hb' _ _ c q Hin Hc) in Hq as (Hq & Hxy). by apply (Hfree q Hq).
Qed.

Lemma remove_piece_frees_the_cell_witness :
  board_inv centre_board ∧ mkFigure 0 1 1 ∈ placed_pieces centre_board ∧
  ∃ b' l1 l2,
    remove_piece (mkFigure 0 1 1) centre_board = (Val tt, b') ∧
    placed_pieces centre_board = l1 ++ mkFigure 0 1 1 :: l2 ∧ placed_pieces b' = l1 ++ l2 ∧
    (mkFigure 0 1 1 ∉ placed_pieces b') ∧ board_inv b' ∧ board_size b' = board_size centre_board ∧
    is_position_empty (pos_x (mkFigure 0 1 1)) (pos_y (mkFigure 0 1 1)) b' = (Val true, b').
Proof.
  assert (mkFigure 0 1 1 ∈ placed_pieces centre_board) as Hp.
  { change (placed_pieces centre_board) with [mkFigure 0 1 1]. by left. }
  split; [exact centre_board_inv|]. split; [exact Hp|].
  exact (remove_piece_frees_the_cell centre_board (mkFigure 0 1 1) centre_board_inv Hp).
Defined.

(** X6. On a board whose grid has its shape, [place_piece] raises
    IndexError exactly for coordinates that do not index the grid; for all
    others it returns what [is_position_safe] returns.  Unless it returns
    [True] the board is as before; when it returns [True] the figure is the
    new last element of the placed list. *)
Theorem place_piece_agrees_with_is_position_safe_on_the_grid
    (b : ChessBoard) (piece : ChessFigure) :
  grid_shape (board_size b) (cells b) →
  ((place_piece piece b).1 = Raise IndexError ↔
   ¬ (- board_size b ≤ pos_x piece < board_size b
      ∧ - board_size b ≤ pos_y piece < board_size b))
  ∧ ((place_piece piece b).1 ≠ Raise IndexError →
     (place_piece piece b).1 = (is_position_safe piece b).1)
  ∧ ((place_piece piece b).1 ≠ Val true → (place_piece piece b).2 = b)
  ∧ ((place_piece piece b).1 = Val true →
     placed_pieces (place_piece piece b).2 = placed_pieces b ++ [piece]
     ∧ board_size (place_piece piece b).2 = board_size b).
Proof.
  intros Hshape.
  destruct (decide (- board_size b ≤ pos_x piece < board_size b
                    ∧ - board_size b ≤ pos_y piece < board_size b)) as [[Hx Hy]|Hout].
  - destruct (place_piece_follows_is_position_safe piece b Hshape Hx Hy)
      as (safe & Hsafe & Hplace).
    rewrite Hsafe. destruct safe.
    + destruct Hplace as (g & -> & _). simpl. split; [split; [done|tauto]|]. done.
    + rewrite Hplace. simpl. split; [split; [done|tauto]|]. done.
  - rewrite (place_piece_index_error piece b Hshape Hout). simpl.
    split; [done|]. split; [done|]. done.
Qed.

Lemma place_piece_agrees_with_is_position_safe_on_the_grid_witness :
  grid_shape (board_size centre_board) (cells centre_board) ∧
  (((place_piece (mkFigure 1 0 0) centre_board).1 = Raise IndexError ↔
    ¬ (- board_size centre_board ≤ pos_x (mkFigure 1 0 0) < board_size centre_board
       ∧ - board_size centre_board ≤ pos_y (mkFigure 1 0 0) < board_size centre_board))
   ∧ ((place_piece (mkFigure 1 0 0) centre_board).1 ≠ Raise IndexError →
      (place_piece (mkFigure 1 0 0) centre_board).1
      = (is_position_safe (mkFigure 1 0 0) centre_board).1)
   ∧ ((place_piece (mkFigure 1 0 0) centre_board).1 ≠ Val true →
      (place_piece (mkFigure 1 0 0) centre_board).2 = centre_board)
   ∧ ((place_piece (mkFigure 1 0 0) centre_board).1 = Val true →
      placed_pieces (place_piece (mkFigure 1 0 0) centre_board).2
      = placed_pieces centre_board ++ [mkFigure 1 0 0]
      ∧ board_size (place_piece (mkFigure 1 0 0) centre_board).2 = board_size centre_board)).
Proof.
  assert (grid_shape (board_size centre_board) (cells centre_board)) as Hshape.
  { split; [reflexivity|]. repeat constructor. }
  split; [exact Hshape|].
  exact (place_piece_agrees_with_is_position_safe_on_the_grid centre_board (mkFigure 1 0 0)
           Hshape).
Defined.

(** X7. The two queries never change the board, whatever its state and
    whatever they return or raise. *)
Theorem queries_leave_the_board (b : ChessBoard) (piece : ChessFigure) (x y : Z) :
  (is_position_empty x y b).2 = b ∧ (is_position_safe piece b).2 = b.
Proof. split; [apply is_position_empty_state|apply is_position_safe_state]. Qed.

(** X8. On a board whose grid has its shape, [update_threatened_cells]
    returns and is idempotent: a second run changes nothing.  It touches
    neither the placed list nor the occupant of any cell. *)
Theorem update_threatened_cells_idempotent (b : ChessBoard) :
  grid_shape (board_size b) (cells b) →
  ∃ b1, update_threatened_cells b = (Val tt, b1) ∧
        update_threatened_cells b1 = (Val tt, b1) ∧
        board_size b1 = board_size b ∧ placed_pieces b1 = placed_pieces b ∧
        ∀ x y, in_bounds (board_size b) x y →
          cell_piece <$> grid_at (cells b1) x y = cell_piece <$> grid_at (cells b) x y.
Proof.
  intros Hshape.
  destruct (update_threatened_cells_spec b Hshape) as (g & Hrun & Hg & Hflags).
  exists (set_cells g b). split; [done|].
  destruct (update_threatened_cells_spec (set_cells g b) Hg) as (g2 & Hrun2 & Hg2 & Hflags2).
  simpl in *. split; [|split; [done|split; [done|]]].
  - rewrite Hrun2. f_equal. unfold set_cells. simpl. f_equal.
    apply (grid_eq (board_size b)); [done..|]. intros x y Hin.
    rewrite (Hflags2 x y Hin), (Hflags x y Hin). apply set_threatened_twice.
  - intros x y Hin. rewrite (Hflags x y Hin). by destruct (grid_at (cells b) x y).
Qed.

Lemma update_threatened_cells_idempotent_witness :
  grid_shape (board_size centre_board) (cells centre_board) ∧
  ∃ b1, update_threatened_cells centre_board = (Val tt, b1) ∧
        update_threatened_cells b1 = (Val tt, b1) ∧
        board_size b1 = board_size centre_board ∧
        placed_pieces b1 = placed_pieces centre_board ∧
        ∀ x y, in_bounds (board_size centre_board) x y →
          cell_piece <$> grid_at (cells b1) x y
          = cell_piece <$> grid_at (cells centre_board) x y.
Proof.
  assert (grid_shape (board_size centre_board) (cells centre_board)) as Hshape.
  { split; [reflexivity|]. repeat constructor. }
  split; [exact Hshape|].
  exact (update_threatened_cells_idempotent centre_board Hshape).
Defined.

(** ** More on create_board *)

Lemma foldl_keep_spec n l : ∀ kept,
  mutually_safe kept = true → (∀ c, c ∈ l → in_bounds n c.1 c.2) →
  ∃ more, foldl (keep n) kept l = kept ++ more ∧ sublist more l ∧
          mutually_safe (kept ++ more) = true ∧
          ∀ c, c ∈ l → ∃ d, d ∈ kept ++ more ∧ conflict d c = true.
Proof.
  induction l as [|c l IH]; intros kept Hsafe Hin; simpl.
  - exists []. rewrite app_nil_r. split; [done|]. split; [done|]. split; [done|].
    intros c Hc. by apply elem_of_nil in Hc.
  - assert (in_bounds n c.1 c.2) as Hc by (apply Hin; by left).
    assert (∀ d, d ∈ l → in_bounds n d.1 d.2) as Hin' by (intros d Hd; apply Hin; by right).
    unfold keep at 2. rewrite (safe_addition_inside _ _ _ Hc).
    destruct (forallb _ kept) eqn:Hall.
    + destruct (IH (kept ++ [c])) as (more & Heq & Hsub & Hsafe' & Hcover); [|done|].
      { by rewrite mutually_safe_snoc, Hsafe, Hall. }
      exists (c :: more). rewrite <- app_assoc in *. simpl in *.
      split; [done|]. split; [by apply sublist_skip|]. split; [done|].
      intros d [->|Hd]%elem_of_cons; [|by apply Hcover].
      exists c. split; [rewrite elem_of_app, elem_of_cons; tauto|].
      unfold conflict. by rewrite bool_decide_eq_true_2.
    + destruct (IH kept Hsafe Hin') as (more & Heq & Hsub & Hsafe' & Hcover).
      exists more. split; [done|]. split; [by apply sublist_cons|]. split; [done|].
      intros d [->|Hd]%elem_of_cons; [|by apply Hcover].
      apply forallb_false_elem in Hall as (a & Ha & Hconf). apply negb_false_iff in Hconf.
      exists a. split; [|done]. apply elem_of_app. by left.
Qed.

(** X9. For pre-placed coordinates on the board, [create_board] returns a
    board that is safely seeded whatever the caller passed: it satisfies the
    invariant, its figures are mutually safe and stand in the order of
    [initial_pieces], of which they are a sub-list, and every coordinate
    that was passed is on the board or in conflict with one that is. *)
Theorem create_board_seeds_safely
    (n l k : Z) (initial_pieces : list (Z * Z)) (e : Env) :
  (∀ c, c ∈ initial_pieces → in_bounds n c.1 c.2) → 0 ≤ l → k > 0 →
  ∃ board next,
    create_board n l k initial_pieces e
    = (Val (board, [replicate (Z.to_nat l) " "%char]),
       mkEnv (chess_board e) (found_solutions e) next) ∧
    board_inv board ∧ allocated next board ∧ board_size board = n ∧
    mutually_safe (coordinates_of (placed_pieces board)) = true ∧
    sublist (coordinates_of (placed_pieces board)) initial_pieces ∧
    ∀ c, c ∈ initial_pieces →
      ∃ d, d ∈ coordinates_of (placed_pieces board) ∧ conflict d c = true.
Proof.
  intros Hin Hl Hk.
  destruct (create_board_spec n l k initial_pieces e Hl Hin)
    as (board & next & Hrun & Hinv & Halloc & Hsize & Hcoords).
  rewrite bool_decide_eq_true_2 in Hcoords by done.
  destruct (foldl_keep_spec n initial_pieces [] eq_refl Hin)
    as (more & Heq & Hsub & Hsafe & Hcover).
  simpl in *. unfold seeded in Hcoords. rewrite Heq in Hcoords.
  exists board, next. rewrite Hcoords. done.
Qed.

Lemma create_board_seeds_safely_witness :
  (∀ c, c ∈ [(0, 0); (0, 1); (1, 1)] → in_bounds 3 c.1 c.2) ∧ 0 ≤ 1 ∧ 3 > 0 ∧
  ∃ board next,
    create_board 3 1 3 [(0, 0); (0, 1); (1, 1)] (ChessSolver_init 0)
    = (Val (board, [replicate (Z.to_nat 1) " "%char]),
       mkEnv (chess_board (ChessSolver_init 0)) (found_solutions (ChessSolver_init 0)) next) ∧
    board_inv board ∧ allocated next board ∧ board_size board = 3 ∧
    mutually_safe (coordinates_of (placed_pieces board)) = true ∧
    sublist (coordinates_of (placed_pieces board)) [(0, 0); (0, 1); (1, 1)] ∧
    ∀ c, c ∈ [(0, 0); (0, 1); (1, 1)] →
      ∃ d, d ∈ coordinates_of (placed_pieces board) ∧ conflict d c = true.
Proof.
  assert (∀ c : Z * Z, c ∈ [(0, 0); (0, 1); (1, 1)] → in_bounds 3 c.1 c.2) as Hin.
  { intros c Hc. repeat (apply elem_of_cons in Hc as [->|Hc]; [unfold in_bounds; simpl; lia|]).
    by apply elem_of_nil in Hc. }
  split; [exact Hin|]. split; [lia|]. split; [lia|].
  apply (create_board_seeds_safely 3 1 3 [(0, 0); (0, 1); (1, 1)] (ChessSolver_init 0) Hin);
    lia.
Defined.

(** X10. A negative number of figures to place makes [create_board] raise
    ValueError, after the seeding and before any search: the solver keeps
    its board and its solutions. *)
Theorem create_board_rejects_negative_count
    (n l k : Z) (initial_pieces : list (Z * Z)) (e : Env) :
  (∀ c, c ∈ initial_pieces → in_bounds n c.1 c.2) → l < 0 →
  (create_board n l k initial_pieces e).1 = Raise ValueError ∧
  (solve n l k initial_pieces e).1 = Raise ValueError ∧
  chess_board (solve n l k initial_pieces e).2 = chess_board e ∧
  found_solutions (solve n l k initial_pieces e).2 = found_solutions e.
Proof.
  intros Hin Hl.
  assert (∃ next, create_board n l k initial_pieces e
                  = (Raise ValueError, mkEnv (chess_board e) (found_solutions e) next))
    as (next & Hrun).
  { unfold create_board, placement_options. rewrite (bool_decide_eq_true_2 _ Hl).
    case_bool_decide as Hk.
    - destruct (seed_board_spec initial_pieces (ChessBoard_init n) e)
        as (board & next & Hseed & _); [apply ChessBoard_init_inv| |done|].
      { intros q Hq. by apply elem_of_nil in Hq. }
      exists next. by rewrite (bind_val _ _ e _ _ Hseed).
    - exists (next_oid e). rewrite (bind_val _ _ e (ChessBoard_init n) e eq_refl).
      by destruct e. }
  unfold solve. rewrite (bind_raise _ _ e _ _ Hrun). by rewrite Hrun.
Qed.

Lemma create_board_rejects_negative_count_witness :
  (∀ c, c ∈ [(0, 0)] → in_bounds 3 c.1 c.2) ∧ -1 < 0 ∧
  (create_board 3 (-1) 1 [(0, 0)] (ChessSolver_init 0)).1 = Raise ValueError ∧
  (solve 3 (-1) 1 [(0, 0)] (ChessSolver_init 0)).1 = Raise ValueError ∧
  chess_board (solve 3 (-1) 1 [(0, 0)] (ChessSolver_init 0)).2
  = chess_board (ChessSolver_init 0) ∧
  found_solutions (solve 3 (-1) 1 [(0, 0)] (ChessSolver_init 0)).2
  = found_solutions (ChessSolver_init 0).
Proof.
  assert (∀ c : Z * Z, c ∈ [(0, 0)] → in_bounds 3 c.1 c.2) as Hin.
  { intros c ->%list_elem_of_singleton. unfold in_bounds. simpl. lia. }
  split; [exact Hin|]. split; [lia|].
  apply (create_board_rejects_negative_count 3 (-1) 1 [(0, 0)] (ChessSolver_init 0) Hin).
  lia.
Defined.

Lemma seed_board_app l1 l2 : ∀ board e,
  seed_board board (l1 ++ l2) e = (seed_board board l1 ≫= λ b, seed_board b l2) e.
Proof.
  induction l1 as [|c l1 IH]; intros board e; [done|].
  simpl seed_board. unfold mbind, M_bind, bind. cbn [new_ChessFigure].
  destruct (on_local board (place_piece _) _) as [[r|ex] e1]; [|done].
  apply IH.
Qed.

(** X11. A pre-placed coordinate that does not index the grid makes
    [create_board] raise IndexError when its turn comes (the earlier
    coordinates being on the board): nothing is searched, and the solver
    keeps its board and its solutions. *)
Theorem create_board_raises_off_the_grid
    (n l k : Z) (before after : list (Z * Z)) (c : Z * Z) (e : Env) :
  k > 0 → (∀ d, d ∈ before → in_bounds n d.1 d.2) →
  ¬ (- n ≤ c.1 < n ∧ - n ≤ c.2 < n) →
  (create_board n l k (before ++ c :: after) e).1 = Raise IndexError ∧
  (solve n l k (before ++ c :: after) e).1 = Raise IndexError ∧
  chess_board (solve n l k (before ++ c :: after) e).2 = chess_board e ∧
  found_solutions (solve n l k (before ++ c :: after) e).2 = found_solutions e.
Proof.
  intros Hk Hin Hout.
  assert (∃ next, create_board n l k (before ++ c :: after) e
                  = (Raise IndexError, mkEnv (chess_board e) (found_solutions e) next))
    as (next & Hrun).
  { unfold create_board. rewrite (bool_decide_eq_true_2 _ Hk).
    destruct (seed_board_spec before (ChessBoard_init n) e)
      as (board & next & Hseed & [Hb _] & _ & Hsize & _); [apply ChessBoard_init_inv| |done|].
    { intros q Hq. by apply elem_of_nil in Hq. }
    exists (S next). apply bind_raise. rewrite seed_board_app.
    rewrite (bind_val _ _ e _ _ Hseed). simpl seed_board.
    set (e1 := mkEnv (chess_board e) (found_solutions e) next).
    set (p := mkFigure next c.1 c.2).
    rewrite (bind_val (new_ChessFigure c.1 c.2) _ e1 p
               (mkEnv (chess_board e) (found_solutions e) (S next)) eq_refl).
    apply bind_raise. unfold on_local.
    rewrite (place_piece_index_error p board (ok_shape _ Hb)); [done|].
    simpl in Hsize. by rewrite Hsize. }
  unfold solve. rewrite (bind_raise _ _ e _ _ Hrun). by rewrite Hrun.
Qed.

Lemma create_board_raises_off_the_grid_witness :
  3 > 0 ∧ (∀ d, d ∈ [(0, 0)] → in_bounds 3 d.1 d.2) ∧
  ¬ (- 3 ≤ (4, 4).1 < 3 ∧ - 3 ≤ (4, 4).2 < 3) ∧
  (create_board 3 1 3 ([(0, 0)] ++ (4, 4) :: [(2, 2)]) (ChessSolver_init 0)).1
  = Raise IndexError ∧
  (solve 3 1 3 ([(0, 0)] ++ (4, 4) :: [(2, 2)]) (ChessSolver_init 0)).1 = Raise IndexError ∧
  chess_board (solve 3 1 3 ([(0, 0)] ++ (4, 4) :: [(2, 2)]) (ChessSolver_init 0)).2
  = chess_board (ChessSolver_init 0) ∧
  found_solutions (solve 3 1 3 ([(0, 0)] ++ (4, 4) :: [(2, 2)]) (ChessSolver_init 0)).2
  = found_solutions (ChessSolver_init 0).
Proof.
  assert (∀ d : Z * Z, d ∈ [(0, 0)] → in_bounds 3 d.1 d.2) as Hin.
  { intros d ->%list_elem_of_singleton. unfold in_bounds. simpl. lia. }
  assert (¬ (- 3 ≤ (4, 4).1 < 3 ∧ - 3 ≤ (4, 4).2 < 3)) as Hout by (simpl; lia).
  split; [lia|]. split; [exact Hin|]. split; [exact Hout|].
  apply (create_board_raises_off_the_grid 3 1 3 [(0, 0)] [(2, 2)] (4, 4) (ChessSolver_init 0));
    [lia|exact Hin|exact Hout].
Defined.

(** X12. What the dialog accepts, the search uses: for coordinates on the
    board for which [_check_safety] returns [True], [create_board] places
    every one of them, in their order, and every solution that [solve] then
    stores on a solver without solutions contains all of them and has
    [len(initial_pieces) + l] cells. *)
Theorem accepted_pre_placement_is_in_every_solution
    (n l k : Z) (initial_pieces : list (Z * Z)) (e0 e : Env) :
  (∀ c, c ∈ initial_pieces → in_bounds n c.1 c.2) →
  (_check_safety initial_pieces n e0).1 = Val true →
  k > 0 → 0 ≤ l → found_solutions e = ∅ →
  (∃ board e1, create_board n l k initial_pieces e
               = (Val (board, [replicate (Z.to_nat l) " "%char]), e1)
               ∧ coordinates_of (placed_pieces board) = initial_pieces)
  ∧ (solve n l k initial_pieces e).1 = Val tt
  ∧ ∀ s, s ∈ found_solutions (solve n l k initial_pieces e).2 →
         (∀ c, c ∈ initial_pieces → c ∈ s)
         ∧ size s = (length initial_pieces + Z.to_nat l)%nat.
Proof.
  intros Hin Hcheck Hk Hl Hempty.
  destruct (_check_safety_spec initial_pieces n e0 Hin) as (next0 & Hrun0).
  rewrite Hrun0 in Hcheck. injection Hcheck as Hsafe.
  destruct (create_board_spec n l k initial_pieces e Hl Hin)
    as (board & next & Hrun & Hinv & Halloc & Hsize & Hcoords).
  rewrite bool_decide_eq_true_2 in Hcoords by done.
  rewrite (seeded_safe n initial_pieces Hin Hsafe) in Hcoords.
  split; [eauto|].
  unfold solve. rewrite (bind_val _ _ e _ _ Hrun). cbn [fst snd]. unfold start_solving.
  destruct (find_solutions_searched board (replicate (Z.to_nat l) " "%char)
              (mkEnv (chess_board e) (found_solutions e) next) Hinv Halloc)
    as (e' & Hfind & _ & _ & Hfound).
  rewrite Hfind. split; [done|]. cbn [snd]. intros s Hs.
  apply Hfound in Hs as [Hs|Hs]; [simpl in Hs; rewrite Hempty in Hs; done|].
  simpl in Hs. rewrite Hcoords, Hsize, length_replicate in Hs.
  apply solved_iff in Hs; [tauto|done|done].
Qed.

Lemma accepted_pre_placement_is_in_every_solution_witness :
  (∀ c, c ∈ [(0, 0); (1, 1)] → in_bounds 3 c.1 c.2) ∧
  (_check_safety [(0, 0); (1, 1)] 3 (ChessSolver_init 0)).1 = Val true ∧
  2 > 0 ∧ 0 ≤ 1 ∧ found_solutions (ChessSolver_init 2) = ∅ ∧
  ((∃ board e1, create_board 3 1 2 [(0, 0); (1, 1)] (ChessSolver_init 2)
                = (Val (board, [replicate (Z.to_nat 1) " "%char]), e1)
                ∧ coordinates_of (placed_pieces board) = [(0, 0); (1, 1)])
   ∧ (solve 3 1 2 [(0, 0); (1, 1)] (ChessSolver_init 2)).1 = Val tt
   ∧ ∀ s, s ∈ found_solutions (solve 3 1 2 [(0, 0); (1, 1)] (ChessSolver_init 2)).2 →
          (∀ c, c ∈ [(0, 0); (1, 1)] → c ∈ s)
          ∧ size s = (length [(0, 0); (1, 1)] + Z.to_nat 1)%nat).
Proof.
  assert (∀ c : Z * Z, c ∈ [(0, 0); (1, 1)] → in_bounds 3 c.1 c.2) as Hin.
  { intros c Hc. repeat (apply elem_of_cons in Hc as [->|Hc]; [unfold in_bounds; simpl; lia|]).
    by apply elem_of_nil in Hc. }
  assert ((_check_safety [(0, 0); (1, 1)] 3 (ChessSolver_init 0)).1 = Val true) as Hcheck
    by (vm_compute; reflexivity).
  split; [exact Hin|]. split; [exact Hcheck|]. split; [lia|]. split; [lia|].
  split; [reflexivity|].
  apply (accepted_pre_placement_is_in_every_solution 3 1 2 [(0, 0); (1, 1)]
           (ChessSolver_init 0) (ChessSolver_init 2) Hin Hcheck); [lia|lia|reflexivity].
Defined.

(** ** The picture of a solution *)

Lemma range_of_length n : range (Z.of_nat (Z.to_nat n)) = range n.
Proof. unfold range. by rewrite Nat2Z.id. Qed.

Lemma collect_pure {S A B} (f : A → list B) (body : A → M S (list B)) l s :
  (∀ a, a ∈ l → body a s = (Val (f a), s)) →
  collect l body s = (Val (l ≫= f), s).
Proof.
  induction l as [|a l IH]; intros Hbody; [done|].
  simpl collect. rewrite (bind_val _ _ s _ s (Hbody a ltac:(by left))).
  rewrite (bind_val _ _ s (l ≫= f) s); [done|].
  apply IH. intros a' Ha'. apply Hbody. by right.
Qed.

Lemma existsb_coordinates ps x y :
  existsb (λ q, reaches q x y) ps
  = existsb (λ c, threatens c (x, y)) (coordinates_of ps).
Proof. induction ps as [|q ps IH]; simpl; [done|]. by rewrite IH. Qed.

Lemma cell_state_shown b x y :
  board_ok b → in_bounds (board_size b) x y →
  ∃ s, cell_state x y b = (Val s, b) ∧
       cell_colour s = shown (coordinates_of (placed_pieces b)) x y.
Proof.
  intros Hb Hin.
  destruct (cell_at_in_bounds b x y (ok_shape _ Hb) Hin) as (c & Hcell & Hc).
  pose proof (is_position_empty_in_bounds b x y c (ok_shape _ Hb) Hin Hc) as Hempty.
  unfold cell_state. rewrite (bind_val _ _ b c b Hcell).
  unfold shown. rewrite <- existsb_coordinates, <- (ok_flags _ Hb x y c Hin Hc).
  destruct (cell_threatened c); [by exists 3|].
  rewrite (bind_val _ _ b _ b Hempty).
  destruct (cell_piece c) as [q|] eqn:Hq.
  - cbn [andb]. rewrite (bind_val _ _ b _ b Hempty). cbn [andb].
    exists 2. split; [done|]. rewrite bool_decide_eq_true_2; [done|].
    apply elem_of_coordinates_of. exists q. by apply (ok_piece _ Hb x y c q Hin Hc).
  - rewrite (bool_decide_eq_false_2 ((x, y) ∈ _)).
    + cbn [andb]. case_bool_decide as Hpar; [by exists 0|].
      rewrite (bind_val _ _ b _ b Hempty). cbn [andb].
      rewrite bool_decide_eq_true_2 by done. by exists 1.
    + intros (q & Hq' & Hx & Hy)%elem_of_coordinates_of.
      assert (cell_piece c = Some q) as Hsome by (by apply (ok_piece _ Hb x y c q Hin Hc)).
      congruence.
Qed.

Lemma foldl_keep_safe_cons n kept c l :
  safe_addition n kept c = true →
  foldl (keep n) kept (c :: l) = foldl (keep n) (kept ++ [c]) l.
Proof. intros Hs. simpl. unfold keep at 2. by rewrite Hs. Qed.

Lemma foldl_keep_unsafe_cons n kept c l :
  safe_addition n kept c = false →
  foldl (keep n) kept (c :: l) = foldl (keep n) kept l.
Proof. intros Hs. simpl. unfold keep at 2. by rewrite Hs. Qed.

Lemma place_temporary_spec solution : ∀ temps e orig,
  env_ok e → placed_pieces (chess_board e) = orig ++ temps →
  (∀ c, c ∈ solution → in_bounds (board_size (chess_board e)) c.1 c.2) →
  ∃ temps' b' next,
    place_temporary solution temps e = (Val temps', mkEnv b' (found_solutions e) next) ∧
    board_inv b' ∧ allocated next b' ∧ (next_oid e ≤ next)%nat ∧
    board_size b' = board_size (chess_board e) ∧
    placed_pieces b' = orig ++ temps' ∧
    coordinates_of (placed_pieces b')
    = foldl (keep (board_size (chess_board e)))
            (coordinates_of (placed_pieces (chess_board e))) solution.
Proof.
  induction solution as [|[x y] rest IH]; intros temps [b f nx] orig [Hinv Hoids] Hplaced Hin;
    simpl in Hinv, Hoids, Hplaced, Hin; cbn [chess_board found_solutions next_oid].
  - exists temps, b, nx. split_and!; done.
  - simpl place_temporary. set (e := mkEnv b f nx).
    assert (in_bounds (board_size b) x y) as Hxy by (apply (Hin (x, y)); by left).
    assert (∀ c, c ∈ rest → in_bounds (board_size b) c.1 c.2) as Hin'
      by (intros c Hc; apply Hin; by right).
    pose proof Hinv as [Hb Hnodup].
    destruct (grid_at_is_Some _ _ _ _ (ok_shape _ Hb) Hxy) as [c Hc].
    pose proof (on_board_run _ e _ _
                  (is_position_empty_in_bounds b x y c (ok_shape _ Hb) Hxy Hc)) as Hempty.
    rewrite (bind_val _ _ e _ _ Hempty). fold e.
    pose proof (safe_addition_cell b x y c Hb Hxy Hc) as Hsafe.
    destruct (cell_piece c) as [q|] eqn:Hq.
    + destruct (IH temps e orig) as (temps' & b' & next & Hrun & H1 & H2 & H3 & H4 & H5 & H6);
        [done|done|done|].
      exists temps', b', next. repeat (split; [done|]).
      rewrite H6. cbn [chess_board e]. by rewrite (foldl_keep_unsafe_cons _ _ _ _ Hsafe).
    + set (p := mkFigure nx x y). set (e1 := mkEnv b f (S nx)).
      rewrite (bind_val (new_ChessFigure x y) _ e p e1 eq_refl).
      destruct (place_piece_cases p b Hb Hxy)
        as [(Hs & b1 & Hrun & Hb1 & Hsize & Hpl)|[Hs Hrun]];
        change (pos_x p, pos_y p) with (x, y) in Hs;
        rewrite (bind_val _ _ e1 _ _ (on_board_run _ e1 _ _ Hrun));
        cbn [chess_board found_solutions next_oid e1].
      * destruct (IH (temps ++ [p]) (mkEnv b1 f (S nx)) orig)
          as (temps' & b' & next & Hrun' & H1 & H2 & H3 & H4 & H5 & H6).
        { split; cbn [chess_board next_oid].
          - split; [done|]. rewrite Hpl, fmap_app. apply NoDup_app.
            split; [done|]. split; [|apply NoDup_singleton].
            intros o Ho ->%list_elem_of_singleton.
            apply list_elem_of_fmap in Ho as (q & Hoid & Hq'). specialize (Hoids q Hq').
            simpl in Hoid. lia.
          - unfold allocated. rewrite Hpl.
            intros q [Hq'| ->%list_elem_of_singleton]%elem_of_app; simpl; [|lia].
            specialize (Hoids q Hq'). lia. }
        { cbn [chess_board]. by rewrite Hpl, Hplaced, app_assoc. }
        { cbn [chess_board]. by rewrite Hsize. }
        cbn [chess_board found_solutions next_oid] in *.
        exists temps', b', next. split; [done|]. split; [done|]. split; [done|].
        split; [lia|]. split; [congruence|]. split; [done|].
        rewrite H6, Hsize, Hpl, coordinates_of_app.
        by rewrite (foldl_keep_safe_cons _ _ _ _ Hs).
      * destruct (IH temps e1 orig)
          as (temps' & b' & next & Hrun' & H1 & H2 & H3 & H4 & H5 & H6).
        { split; [done|]. intros q Hq'. specialize (Hoids q Hq'). simpl. lia. }
        { done. }
        { done. }
        cbn [chess_board found_solutions next_oid e1] in *.
        exists temps', b', next. split; [done|]. split; [done|]. split; [done|].
        split; [lia|]. split; [done|]. split; [done|].
        rewrite H6. by rewrite (foldl_keep_unsafe_cons _ _ _ _ Hs).
Qed.

Lemma list_remove_middle (p : ChessFigure) l1 l2 :
  (∀ q, q ∈ l1 → oid q ≠ oid p) →
  list_remove same_object p (l1 ++ p :: l2) = Some (l1 ++ l2).
Proof.
  induction l1 as [|q l1 IH]; intros Hfresh; simpl.
  - unfold same_object. by rewrite bool_decide_eq_true_2.
  - unfold same_object at 1. rewrite bool_decide_eq_false_2 by (apply Hfresh; by left).
    rewrite IH; [done|]. intros q' Hq'. apply Hfresh. by right.
Qed.

Lemma remove_temporary temps : ∀ e orig,
  board_ok (chess_board e) → placed_pieces (chess_board e) = orig ++ temps →
  NoDup (oid <$> orig ++ temps) →
  ∃ b', for_each temps (λ piece, on_board (remove_piece piece)) e
        = (Val tt, mkEnv b' (found_solutions e) (next_oid e)) ∧
        board_ok b' ∧ board_size b' = board_size (chess_board e) ∧
        placed_pieces b' = orig.
Proof.
  induction temps as [|t temps IH]; intros [b f nx] orig Hb Hplaced Hnodup;
    cbn [chess_board found_solutions next_oid] in *.
  - exists b. rewrite app_nil_r in Hplaced. done.
  - assert (list_remove same_object t (placed_pieces b) = Some (orig ++ temps)) as Hrem.
    { rewrite Hplaced. apply list_remove_middle. intros q Hq Hoid.
      rewrite fmap_app in Hnodup. apply NoDup_app in Hnodup as (_ & Hdisj & _).
      apply (Hdisj (oid q)); [by apply list_elem_of_fmap_2|].
      rewrite Hoid. apply list_elem_of_fmap_2. by left. }
    destruct (remove_piece_placed t b orig temps Hb Hplaced Hrem)
      as (b1 & Hrun & Hb1 & Hsize & Hpl).
    destruct (IH (mkEnv b1 f nx) orig) as (b' & Hloop & Hb' & Hsize' & Hpl'); [done|done| |].
    { rewrite fmap_app in *. apply NoDup_app in Hnodup as (H1 & H2 & H3).
      rewrite fmap_cons in H2, H3. apply NoDup_cons in H3 as [_ H3].
      apply NoDup_app. split; [done|]. split; [|done].
      intros o Ho Ho'. apply (H2 o Ho). by right. }
    cbn [chess_board found_solutions next_oid] in *.
    exists b'. split; [|split; [done|split; [congruence|done]]].
    simpl for_each.
    rewrite (bind_val _ _ (mkEnv b f nx) tt _ (on_board_run _ (mkEnv b f nx) _ _ Hrun)).
    exact Hloop.
Qed.

Lemma elem_of_picture n l i :
  i ∈ picture n l ↔
  ∃ x y, 0 ≤ x < n ∧ 0 ≤ y < n ∧ i = mkItem (x * 40) (y * 40) (shown l x y).
Proof.
  unfold picture. rewrite list_elem_of_bind. split.
  - intros (x & (y & ->%list_elem_of_singleton & Hy%elem_of_range)%list_elem_of_bind
              & Hx%elem_of_range). eauto.
  - intros (x & y & Hx & Hy & ->). exists x. split; [|by apply elem_of_range].
    apply list_elem_of_bind. exists y. split; [by left|by apply elem_of_range].
Qed.

Lemma length_picture n l : length (picture n l) = (Z.to_nat n * Z.to_nat n)%nat.
Proof.
  unfold picture.
  rewrite (length_bind_const _ (Z.to_nat n)), length_range; [done|].
  intros x. rewrite (length_bind_const _ 1%nat), length_range; [lia|done].
Qed.

Lemma shown_ext l1 l2 x y : (∀ c, c ∈ l1 ↔ c ∈ l2) → shown l1 x y = shown l2 x y.
Proof.
  intros Hl. unfold shown.
  assert (existsb (λ c, threatens c (x, y)) l1 = existsb (λ c, threatens c (x, y)) l2) as ->.
  { apply eq_true_iff_eq. rewrite !existsb_elem_of.
    split; intros (a & Ha & Hf); exists a; split; try done; by apply Hl. }
  by rewrite (bool_decide_ext _ _ (Hl (x, y))).
Qed.

Lemma picture_ext n l1 l2 : (∀ c, c ∈ l1 ↔ c ∈ l2) → picture n l1 = picture n l2.
Proof.
  intros Hl. unfold picture. apply list_bind_ext; [|done]. intros x.
  apply list_bind_ext; [|done]. intros y. by rewrite (shown_ext l1 l2 x y Hl).
Qed.

Lemma threatens_irrefl c : threatens c c = false.
Proof.
  apply not_true_iff_false. rewrite threatens_spec. lia.
Qed.

Lemma shown_blue_iff l x y : conflict_free l → shown l x y = blue ↔ (x, y) ∈ l.
Proof.
  intros Hfree. unfold shown.
  destruct (existsb _ l) eqn:Hex.
  - split; [done|]. intros Hin. exfalso.
    apply existsb_elem_of in Hex as (c & Hc & Hthreat).
    destruct (decide (c = (x, y))) as [->|Hne].
    + by rewrite threatens_irrefl in Hthreat.
    + by rewrite (Hfree c (x, y) Hc Hin Hne) in Hthreat.
  - case_bool_decide as Hin; [done|]. by case_bool_decide.
Qed.

Lemma foldl_keep_elem n all l : ∀ kept,
  conflict_free all → (∀ c, c ∈ kept → c ∈ all) →
  (∀ c, c ∈ l → c ∈ all ∧ in_bounds n c.1 c.2) →
  ∀ c, c ∈ foldl (keep n) kept l ↔ c ∈ kept ∨ c ∈ l.
Proof.
  induction l as [|a l IH]; intros kept Hfree Hkept Hl c; simpl.
  - rewrite elem_of_nil. tauto.
  - destruct (Hl a) as [Ha Hin]; [by left|].
    assert (∀ c, c ∈ l → c ∈ all ∧ in_bounds n c.1 c.2) as Hl'
      by (intros d Hd; apply Hl; by right).
    unfold keep at 2. rewrite (safe_addition_inside _ _ _ Hin).
    destruct (forallb _ kept) eqn:Hall.
    + rewrite IH; [|done| |done].
      * rewrite elem_of_app, !elem_of_cons, elem_of_nil. tauto.
      * intros d [Hd| ->%list_elem_of_singleton]%elem_of_app; [by apply Hkept|done].
    + rewrite (IH kept Hfree Hkept Hl'). rewrite elem_of_cons.
      assert (a ∈ kept) as Hak; [|split; [tauto|intros [?|[->|?]]; tauto]].
      apply forallb_false_elem in Hall as (d & Hd & Hconf). apply negb_false_iff in Hconf.
      destruct (decide (d = a)) as [->|Hne]; [done|]. exfalso.
      unfold conflict in Hconf. rewrite bool_decide_eq_false_2 in Hconf by done.
      simpl in Hconf. by rewrite (Hfree d a (Hkept d Hd) Ha Hne) in Hconf.
Qed.

Lemma display_solution_run (solution : list (Z * Z)) (e : Env) :
  env_ok e →
  (∀ c, c ∈ solution → in_bounds (board_size (chess_board e)) c.1 c.2) →
  ∃ next,
    _display_solution solution e
    = (Val (picture (board_size (chess_board e))
              (foldl (keep (board_size (chess_board e)))
                     (coordinates_of (placed_pieces (chess_board e))) solution)),
       mkEnv (chess_board e) (found_solutions e) next) ∧
    (next_oid e ≤ next)%nat.
Proof.
  intros Hok Hin.
  destruct (place_temporary_spec solution [] e (placed_pieces (chess_board e)) Hok)
    as (temps & b1 & next & Hplace & [Hb1 Hnd1] & Halloc & Hnext & Hsize & Hpl & Hcoords);
    [by rewrite app_nil_r|done|].
  destruct Hok as [[Hb Hnd] Hoids]. destruct e as [b f nx].
  cbn [chess_board found_solutions next_oid] in *.
  set (kept := foldl (keep (board_size b)) (coordinates_of (placed_pieces b)) solution) in *.
  exists next. split; [|done].
  unfold _display_solution.
  rewrite (bind_val (on_board (gets (λ b, Z.of_nat (length (cells b))))) _
             (mkEnv b f nx) (Z.of_nat (length (cells b))) (mkEnv b f nx) eq_refl).
  destruct (ok_shape _ Hb) as [Hlen _]. rewrite Hlen, range_of_length.
  rewrite (bind_val _ _ _ _ _ Hplace).
  set (e1 := mkEnv b1 f next).
  rewrite (bind_val _ _ e1 (picture (board_size b) kept) e1).
  - destruct (remove_temporary temps e1 (placed_pieces b) Hb1 Hpl)
      as (b2 & Hloop & Hb2 & Hsize2 & Hpl2); [by rewrite <- Hpl|].
    cbn [chess_board found_solutions next_oid e1] in *.
    rewrite (bind_val _ _ e1 tt _ Hloop).
    assert (b2 = b) as -> by (apply board_ok_unique; [done|done|congruence|done]).
    done.
  - unfold picture. apply collect_pure. intros x Hx%elem_of_range.
    apply collect_pure. intros y Hy%elem_of_range.
    destruct (cell_state_shown b1 x y Hb1) as (s & Hrun & Hcol).
    { rewrite Hsize. split; lia. }
    rewrite (bind_val _ _ e1 s e1 (on_board_run _ e1 _ _ Hrun)).
    unfold create_board_cell. by rewrite Hcol, Hcoords.
Qed.

(** X13. [_display_solution] borrows the solver's board and gives it back:
    for a solution on the board it places as temporary figures the cells
    of the solution that are free and safe when their turn comes, adds one
    item per cell (column by column, at [(40 x, 40 y)]) that shows the board
    so filled, and removes the temporary figures in the order it placed
    them; the board is then the one it started from, and the solutions are
    not touched. *)
Theorem display_solution_restores_the_board (solution : list (Z * Z)) (e : Env) :
  env_ok e →
  (∀ c, c ∈ solution → in_bounds (board_size (chess_board e)) c.1 c.2) →
  ∃ scene next,
    _display_solution solution e
    = (Val scene, mkEnv (chess_board e) (found_solutions e) next) ∧
    (next_oid e ≤ next)%nat ∧
    scene = picture (board_size (chess_board e))
              (foldl (keep (board_size (chess_board e)))
                     (coordinates_of (placed_pieces (chess_board e))) solution) ∧
    length scene
    = (Z.to_nat (board_size (chess_board e)) * Z.to_nat (board_size (chess_board e)))%nat.
Proof.
  intros Hok Hin. destruct (display_solution_run solution e Hok Hin) as (next & Hrun & Hnext).
  eexists _, next. split; [exact Hrun|]. split; [done|]. split; [done|].
  apply length_picture.
Qed.

Lemma display_solution_restores_the_board_witness :
  env_ok (mkEnv centre_board ∅ 1) ∧
  (∀ c, c ∈ [(0, 0); (0, 1); (2, 2)] →
        in_bounds (board_size (chess_board (mkEnv centre_board ∅ 1))) c.1 c.2) ∧
  ∃ scene next,
    _display_solution [(0, 0); (0, 1); (2, 2)] (mkEnv centre_board ∅ 1)
    = (Val scene, mkEnv (chess_board (mkEnv centre_board ∅ 1))
                        (found_solutions (mkEnv centre_board ∅ 1)) next) ∧
    (next_oid (mkEnv centre_board ∅ 1) ≤ next)%nat ∧
    scene = picture (board_size (chess_board (mkEnv centre_board ∅ 1)))
              (foldl (keep (board_size (chess_board (mkEnv centre_board ∅ 1))))
                     (coordinates_of (placed_pieces (chess_board (mkEnv centre_board ∅ 1))))
                     [(0, 0); (0, 1); (2, 2)]) ∧
    length scene
    = (Z.to_nat (board_size (chess_board (mkEnv centre_board ∅ 1)))
       * Z.to_nat (board_size (chess_board (mkEnv centre_board ∅ 1))))%nat.
Proof.
  assert (env_ok (mkEnv centre_board ∅ 1)) as Hok
    by (split; [exact centre_board_inv|exact centre_board_allocated]).
  assert (∀ c : Z * Z, c ∈ [(0, 0); (0, 1); (2, 2)] →
            in_bounds (board_size (chess_board (mkEnv centre_board ∅ 1))) c.1 c.2) as Hin.
  { intros c Hc.
    repeat (apply elem_of_cons in Hc as [->|Hc]; [unfold in_bounds; simpl; lia|]).
    by apply elem_of_nil in Hc. }
  split; [exact Hok|]. split; [exact Hin|].
  exact (display_solution_restores_the_board [(0, 0); (0, 1); (2, 2)]
           (mkEnv centre_board ∅ 1) Hok Hin).
Defined.

Lemma handle_solution_spec `{SetOrder} (solutions : gset (gset (Z * Z))) (e : Env) :
  env_ok e →
  (∀ s, s ∈ solutions →
        (∀ c, c ∈ coordinates_of (placed_pieces (chess_board e)) → c ∈ s) ∧
        (∀ c, c ∈ s → in_bounds (board_size (chess_board e)) c.1 c.2) ∧
        (∀ c d, c ∈ s → d ∈ s → c ≠ d → threatens c d = false)) →
  ∃ next,
    _handle_solution solutions e
    = (Val ((λ s, picture (board_size (chess_board e)) (iter s)) <$> head (iter solutions)),
       mkEnv (chess_board e) (found_solutions e) next).
Proof.
  intros Hok Hsol. unfold _handle_solution.
  assert (∀ s, s ∈ iter solutions → s ∈ solutions) as Hiter.
  { intros s Hs. rewrite iter_elements in Hs. by apply elem_of_elements in Hs. }
  destruct (iter solutions) as [|s rest]; [exists (next_oid e); by destruct e|].
  destruct (Hsol s) as (Hsup & Hin & Hfree); [apply Hiter; by left|].
  assert (∀ c, c ∈ iter s ↔ c ∈ s) as Hs.
  { intros c. by rewrite iter_elements, elem_of_elements. }
  destruct (display_solution_run (iter s) e Hok) as (next & Hrun & _).
  { intros c Hc. apply Hin. by apply Hs. }
  exists next. rewrite (bind_val _ _ e _ _ Hrun). cbn [fmap option_fmap option_map head].
  rewrite (picture_ext _ _ (iter s)); [done|]. intros c.
  rewrite (foldl_keep_elem _ (iter s)).
  - rewrite Hs. split; [intros [?|?]; [by apply Hsup|done]|by right].
  - intros a b Ha Hb. apply Hfree; by apply Hs.
  - intros a Ha. apply Hs. by apply Hsup.
  - intros a Ha. split; [done|]. apply Hin. by apply Hs.
Qed.

(** X14. The search and the display together: after [find_solutions] on a
    solver without solutions (the figures on the board being mutually
    safe), [_handle_solution], called with the solver's board and
    solutions, shows nothing when there is no solution and otherwise the
    picture of the first solution in the set's iteration order, with the
    board as the search left it; in that picture the blue cells are
    exactly the cells of the solution. *)
Theorem handle_solution_shows_a_recorded_solution `{SetOrder}
    (board : ChessBoard) (arrangement : list ascii) (e : Env) :
  board_inv board → allocated (next_oid e) board →
  mutually_safe (coordinates_of (placed_pieces board)) = true →
  found_solutions e = ∅ →
  ∃ e' next,
    find_solutions board [arrangement] e = (Val tt, e') ∧
    _handle_solution (found_solutions e') e'
    = (Val ((λ s, picture (board_size board) (iter s)) <$> head (iter (found_solutions e'))),
       mkEnv board (found_solutions e') next) ∧
    ∀ s, head (iter (found_solutions e')) = Some s →
      s ∈ found_solutions e' ∧
      ∀ x y, in_bounds (board_size board) x y →
        (mkItem (x * 40) (y * 40) blue ∈ picture (board_size board) (iter s) ↔ (x, y) ∈ s).
Proof.
  intros Hinv Halloc Hsafe Hempty.
  destruct (find_solutions_searched board arrangement e Hinv Halloc)
    as (e' & Hfind & Hboard & Hnext & Hfound).
  cbn [chess_board found_solutions next_oid] in Hboard, Hnext, Hfound.
  assert (env_ok e') as Hok.
  { split; rewrite Hboard; [done|]. intros q Hq. specialize (Halloc q Hq). lia. }
  assert (∀ s, s ∈ found_solutions e' →
            (∀ c, c ∈ coordinates_of (placed_pieces board) → c ∈ s) ∧
            (∀ c, c ∈ s → in_bounds (board_size board) c.1 c.2) ∧
            (∀ c d, c ∈ s → d ∈ s → c ≠ d → threatens c d = false)) as Hsol.
  { intros s [Hs|Hs]%Hfound; [by rewrite Hempty in Hs|].
    apply solved_iff in Hs; [tauto|done|].
    intros c Hc. apply board_ok_coordinates_inside; [apply Hinv|done]. }
  destruct (handle_solution_spec (found_solutions e') e' Hok) as (next & Hrun).
  { by rewrite Hboard. }
  rewrite Hboard in Hrun. exists e', next. split; [done|]. split; [done|].
  intros s Hhead.
  assert (s ∈ found_solutions e') as Hs.
  { apply elem_of_elements. rewrite <- iter_elements.
    destruct (iter (found_solutions e')) as [|s' rest]; [done|].
    injection Hhead as ->. by left. }
  split; [done|]. intros x y [Hx Hy].
  destruct (Hsol s Hs) as (_ & _ & Hfree).
  assert (∀ c, c ∈ iter s ↔ c ∈ s) as Hiter.
  { intros c. by rewrite iter_elements, elem_of_elements. }
  assert (conflict_free (iter s)) as Hcf.
  { intros c d Hc Hd. apply Hfree; by apply Hiter. }
  rewrite elem_of_picture, <- Hiter. split.
  - intros (x' & y' & _ & _ & [= Hx' Hy' Hcol]).
    assert (x' = x) as -> by lia. assert (y' = y) as -> by lia.
    by apply (shown_blue_iff _ _ _ Hcf).
  - intros Hin. exists x, y. split; [done|]. split; [done|].
    f_equal. symmetry. by apply shown_blue_iff.
Qed.

Lemma handle_solution_shows_a_recorded_solution_witness :
  board_inv centre_board ∧ allocated (next_oid (ChessSolver_init 1)) centre_board ∧
  mutually_safe (coordinates_of (placed_pieces centre_board)) = true ∧
  found_solutions (ChessSolver_init 1) = ∅ ∧
  ∃ e' next,
    find_solutions centre_board [[" "%char]] (ChessSolver_init 1) = (Val tt, e') ∧
    @_handle_solution elements_order (found_solutions e') e'
    = (Val ((λ s, picture (board_size centre_board) (@iter elements_order _ _ _ s))
              <$> head (@iter elements_order _ _ _ (found_solutions e'))),
       mkEnv centre_board (found_solutions e') next) ∧
    ∀ s, head (@iter elements_order _ _ _ (found_solutions e')) = Some s →
      s ∈ found_solutions e' ∧
      ∀ x y, in_bounds (board_size centre_board) x y →
        (mkItem (x * 40) (y * 40) blue
           ∈ picture (board_size centre_board) (@iter elements_order _ _ _ s)
         ↔ (x, y) ∈ s).
Proof.
  split; [exact centre_board_inv|]. split; [exact centre_board_allocated|].
  split; [reflexivity|]. split; [reflexivity|].
  exact (@handle_solution_shows_a_recorded_solution elements_order centre_board [" "%char]
           (ChessSolver_init 1) centre_board_inv centre_board_allocated eq_refl eq_refl).
Defined.

Lemma place_temporary_app l1 l2 : ∀ temps e,
  place_temporary (l1 ++ l2) temps e
  = (place_temporary l1 temps ≫= λ t, place_temporary l2 t) e.
Proof.
  induction l1 as [|[x y] l1 IH]; intros temps e; [done|].
  simpl place_temporary. unfold mbind, M_bind, bind in *.
  destruct (on_board (is_position_empty x y) e) as [[[]|ex] e1]; [|apply IH|done].
  cbn [new_ChessFigure].
  destruct (on_board (place_piece _) _) as [[r|ex] e2]; [apply IH|done].
Qed.

Lemma is_position_empty_index_error b x y :
  grid_shape (board_size b) (cells b) →
  ¬ (- board_size b ≤ x < board_size b ∧ - board_size b ≤ y < board_size b) →
  is_position_empty x y b = (Raise IndexError, b).
Proof.
  intros Hshape Hout. unfold is_position_empty.
  destruct (cell_at_cases b x y Hshape) as [(Hx & Hy & _)|[_ Hrun]]; [tauto|].
  by rewrite (bind_raise _ _ b IndexError b).
Qed.

(** X15. [_display_solution] is not safe against a coordinate that does
    not index the grid: it raises IndexError when the coordinate's turn
    comes in the first loop, so the removal loop is not reached and the
    temporary figures placed for the earlier coordinates stay on the
    solver's board. *)
Theorem display_solution_leaves_temporaries_on_error
    (before after : list (Z * Z)) (c : Z * Z) (e : Env) :
  env_ok e →
  (∀ d, d ∈ before → in_bounds (board_size (chess_board e)) d.1 d.2) →
  ¬ (- board_size (chess_board e) ≤ c.1 < board_size (chess_board e)
     ∧ - board_size (chess_board e) ≤ c.2 < board_size (chess_board e)) →
  ∃ b' temporary_pieces next,
    _display_solution (before ++ c :: after) e
    = (Raise IndexError, mkEnv b' (found_solutions e) next) ∧
    board_inv b' ∧
    placed_pieces b' = placed_pieces (chess_board e) ++ temporary_pieces ∧
    coordinates_of (placed_pieces b')
    = foldl (keep (board_size (chess_board e)))
            (coordinates_of (placed_pieces (chess_board e))) before.
Proof.
  intros Hok Hin Hout.
  destruct (place_temporary_spec before [] e (placed_pieces (chess_board e)) Hok)
    as (temps & b1 & next & Hplace & Hinv1 & Halloc & Hnext & Hsize & Hpl & Hcoords);
    [by rewrite app_nil_r|done|].
  exists b1, temps, next. split; [|done].
  destruct e as [b f nx]. cbn [chess_board found_solutions next_oid] in *.
  unfold _display_solution.
  rewrite (bind_val (on_board (gets (λ b, Z.of_nat (length (cells b))))) _
             (mkEnv b f nx) (Z.of_nat (length (cells b))) (mkEnv b f nx) eq_refl).
  apply bind_raise. rewrite place_temporary_app. rewrite (bind_val _ _ _ _ _ Hplace).
  destruct c as [x y]. simpl place_temporary. apply bind_raise.
  apply (on_board_run _ (mkEnv b1 f next)). cbn [chess_board].
  apply is_position_empty_index_error; [apply Hinv1|by rewrite Hsize].
Qed.

Lemma display_solution_leaves_temporaries_on_error_witness :
  env_ok (mkEnv centre_board ∅ 1) ∧
  (∀ d, d ∈ [(0, 0)] → in_bounds (board_size (chess_board (mkEnv centre_board ∅ 1))) d.1 d.2) ∧
  ¬ (- board_size (chess_board (mkEnv centre_board ∅ 1)) ≤ (5, 5).1
       < board_size (chess_board (mkEnv centre_board ∅ 1))
     ∧ - board_size (chess_board (mkEnv centre_board ∅ 1)) ≤ (5, 5).2
       < board_size (chess_board (mkEnv centre_board ∅ 1))) ∧
  ∃ b' temporary_pieces next,
    _display_solution ([(0, 0)] ++ (5, 5) :: [(2, 2)]) (mkEnv centre_board ∅ 1)
    = (Raise IndexError, mkEnv b' (found_solutions (mkEnv centre_board ∅ 1)) next) ∧
    board_inv b' ∧
    placed_pieces b' = placed_pieces (chess_board (mkEnv centre_board ∅ 1)) ++ temporary_pieces ∧
    coordinates_of (placed_pieces b')
    = foldl (keep (board_size (chess_board (mkEnv centre_board ∅ 1))))
            (coordinates_of (placed_pieces (chess_board (mkEnv centre_board ∅ 1)))) [(0, 0)].
Proof.
  assert (env_ok (mkEnv centre_board ∅ 1)) as Hok
    by (split; [exact centre_board_inv|exact centre_board_allocated]).
  assert (∀ d : Z * Z, d ∈ [(0, 0)] →
            in_bounds (board_size (chess_board (mkEnv centre_board ∅ 1))) d.1 d.2) as Hin.
  { intros d ->%list_elem_of_singleton. unfold in_bounds. simpl. lia. }
  assert (¬ (- board_size (chess_board (mkEnv centre_board ∅ 1)) ≤ (5, 5).1
               < board_size (chess_board (mkEnv centre_board ∅ 1))
             ∧ - board_size (chess_board (mkEnv centre_board ∅ 1)) ≤ (5, 5).2
               < board_size (chess_board (mkEnv centre_board ∅ 1)))) as Hout
    by (simpl; lia).
  split; [exact Hok|]. split; [exact Hin|]. split; [exact Hout|].
  exact (display_solution_leaves_temporaries_on_error [(0, 0)] [(2, 2)] (5, 5)
           (mkEnv centre_board ∅ 1) Hok Hin Hout).
Defined.
